(** * pastella-utils: a shallow embedding of the transaction and sync core

    Part I embeds the code, module by module:
    - [JS]          the JavaScript number semantics the code relies on;
    - [Transaction] the varint codec of the transaction module;
    - [Config], [WalletOutput], [WalletSpend], [SyncedBlockInfo]
                    the constants of [config.ts] and the records of
                    [types.ts];
    - [Staking]     the varint writer and the output selectors of
                    [staking.js];
    - [WalletSync]  the UTXO tracker ([walletSync-utils.js],
                    [walletSync-balance.js], [walletSync-processing.js]);
    - [Crypto]      the Schnorr signatures and key images of [crypto.js],
                    over the two packages it imports;
    - [Keccak256], [ScalarGroup]
                    a model of Keccak-256 and a small group, to run the
                    code of [Crypto] on concrete inputs;
    - [Wallet], [StakingCodec]
                    the varint codecs of [index.ts] and [staking.js];
    - [Balance], [NumberBalances], [Processing]
                    the getters, the balances as sums of Numbers and the
                    pruning of the UTXO tracker;
    - [StakingInputs], [TransactionPicker]
                    the input selections of [staking.js] and
                    [transaction.ts];
    - [Base58], [Address]
                    Base58 in blocks and the addresses of [index.ts] and
                    [transaction.ts];
    - [Outcome], [StakingTransaction]
                    the preparation transaction of [staking.js], with
                    its serializers and its signatures;
    - [TransactionSerializer], [TransactionBuilder]
                    the serializer and the builder of [transaction.ts];
    - [Hex], [Selection], [Layout]
                    notions the properties are stated with;
    - [Scenario], [CryptoScenario], [PreparationScenario],
      [BuilderScenario]
                    the inputs of the examples.
    Part II states and proves the properties.

    Integers are [Z]; a [Uint8Array] or a JS array of byte values is a
    [list Z]; a JS [Map] used as a dictionary is a [gmap], a [Set] a
    [gset]; a function that can throw returns an [option], and an
    [Outcome.outcome] where it can also run a loop that has no exit.
    Amounts are Numbers that hold integers: where the code adds or
    subtracts them the result is rounded to a double ([JS.number_add],
    [JS.number_sub]), which changes nothing up to [2^53]. *)

From Stdlib Require Import ZArith List Lia Bool Ascii.
From stdpp Require Import base gmap sets list strings.
From Equations Require Import Equations.
Import ListNotations.
Local Open Scope Z_scope.

(* ===================================================================== *)
(** * Part I: the embedding                                               *)
(* ===================================================================== *)

(** ** JavaScript number semantics *)
Module JS.

(** [ToInt32]: the value is wrapped into the signed 32-bit range. *)
Definition to_int32 (z : Z) : Z := (z + 2 ^ 31) mod 2 ^ 32 - 2 ^ 31.

(** [a & b], [a | b] on Numbers: both operands go through [ToInt32]. *)
Definition and32 (a b : Z) : Z := Z.land (to_int32 a) (to_int32 b).
Definition or32 (a b : Z) : Z := Z.lor (to_int32 a) (to_int32 b).

(** [a << s] on Numbers: the shift count is taken modulo 32 and the result
    is wrapped by [ToInt32]. *)
Definition shl32 (a s : Z) : Z := to_int32 (Z.shiftl (to_int32 a) (s mod 32)).

(** Truthiness of an optional number such as [spentHeight?: number]:
    [undefined] and [0] are falsy. *)
Definition truthy (v : option Z) : bool :=
  match v with
  | Some n => negb (n =? 0)
  | None => false
  end.

(** [a >>> s] on Numbers: the operand goes through [ToUint32], the shift
    count is taken modulo 32. *)
Definition ushr32 (a s : Z) : Z := Z.shiftr (a mod 2 ^ 32) (s mod 32).

(** [Number(b)] for a BigInt [b]: the nearest double, ties to even; [None]
    stands for an infinite result. *)
Definition number_of_bigint (b : Z) : option Z :=
  let a := Z.abs b in
  if a <? 2 ^ 53 then Some b
  else
    let e := Z.log2 a - 52 in
    let q := Z.shiftr a e in
    let r := a - Z.shiftl q e in
    let half := Z.shiftl 1 (e - 1) in
    let q := if (half <? r) || ((half =? r) && Z.odd q) then q + 1 else q in
    let v := Z.shiftl q e in
    if 2 ^ 1024 <=? v then None else Some (Z.sgn b * v).

(** The double nearest to an integer, ties to even: 53 significant bits
    are kept.  The exponent is not bounded here; from [2^1024] on the
    program has [Infinity], which is left out. *)
Definition round_double (x : Z) : Z :=
  let a := Z.abs x in
  if a <? 2 ^ 53 then x
  else
    let e := Z.log2 a - 52 in
    let q := Z.shiftr a e in
    let r := a - Z.shiftl q e in
    let half := Z.shiftl 1 (e - 1) in
    let q := if (half <? r) || ((half =? r) && Z.odd q) then q + 1 else q in
    Z.sgn x * Z.shiftl q e.

(** [a + b] and [a - b] on Numbers that hold integers: the exact result,
    rounded to the nearest double. *)
Definition number_add (a b : Z) : Z := round_double (a + b).
Definition number_sub (a b : Z) : Z := round_double (a - b).

(** The integers up to [2^53] in magnitude, all of which are doubles. *)
Definition exact (x : Z) : Prop := - 2 ^ 53 <= x <= 2 ^ 53.

End JS.

(** ** The transaction module: varint codec *)
Module Transaction.

Definition mask : Z := 0x7f.
Definition continuation : Z := 0x80.
Definition threshold : Z := 0x80.

(** The [while (remaining >= threshold)] loop of [writeVarint]; it works
    on BigInts, so [&], [|] and [>>=] are the unbounded operations. *)
Equations? writeVarint_loop (remaining : Z) (bytes : list Z) : Z * list Z
  by wf (Z.to_nat (Z.log2 remaining)) lt :=
  writeVarint_loop remaining bytes with Z_le_gt_dec threshold remaining => {
    | left _ :=
        writeVarint_loop (Z.shiftr remaining 7)
          (bytes ++ [Z.lor (Z.land remaining mask) continuation]);
    | right _ := (remaining, bytes) }.
Proof.
  unfold threshold in *. rewrite Z.log2_shiftr by lia.
  assert (7 <= Z.log2 remaining) by (apply Z.log2_le_pow2; lia). lia.
Qed.

(** [writeVarint(value)]; [value] is the integer held by the argument. *)
Definition writeVarint (value : Z) : list Z :=
  let '(remaining, bytes) := writeVarint_loop value [] in
  bytes ++ [Z.land remaining mask].

(** The [for (let i = offset; i < bytes.length; i++)] loop of
    [decodeVarint], on the bytes from [offset] on.  Here [value] is a
    Number, so [&], [|=] and [<<] are the 32-bit operations. *)
Fixpoint decodeVarint_loop (bytes : list Z) (value shift bytesRead : Z)
  : Z * Z :=
  match bytes with
  | [] => (value, bytesRead)
  | byte :: rest =>
      let value := JS.or32 value (JS.shl32 (JS.and32 byte 0x7f) shift) in
      let bytesRead := bytesRead + 1 in
      if JS.and32 byte 0x80 =? 0 then (value, bytesRead)
      else decodeVarint_loop rest value (shift + 7) bytesRead
  end.

(** [decodeVarint(bytes, offset)] returns [{value, bytesRead}]. *)
Definition decodeVarint (bytes : list Z) (offset : nat) : Z * Z :=
  decodeVarint_loop (skipn offset bytes) 0 0 0.

End Transaction.


(** ** config.ts *)
Module Config.

Definition MATURITY_BLOCKS : Z := 10.
Definition MIN_FEE : Z := 1000.
Definition UNLOCK_TIME_TIMESTAMP_THRESHOLD : Z := 500000000.

End Config.

(** ** types.ts: the records of the tracker *)
Module WalletOutput.
Record t : Type := mk {
  key : string;
  amount : Z;
  blockHeight : Z;
  timestamp : Z;
  transactionHash : string;
  transactionIndex : Z;
  unlockTime : Z;
  transactionPublicKey : string;
  isSpendable : bool;
  spentHeight : option Z;
  globalOutputIndex : option Z;
  outputIndex : option Z;
  compositeKey : option string;
  isStaking : option bool
}.

(** [output.spentHeight = height] on the object held by the map. *)
Definition set_spentHeight (o : t) (height : Z) : t :=
  mk (key o) (amount o) (blockHeight o) (timestamp o) (transactionHash o)
     (transactionIndex o) (unlockTime o) (transactionPublicKey o)
     (isSpendable o) (Some height) (globalOutputIndex o) (outputIndex o)
     (compositeKey o) (isStaking o).
End WalletOutput.

Module WalletSpend.
Record t : Type := mk {
  amount : Z;
  parentTransactionHash : string;
  transactionIndex : option Z;
  blockHeight : Z;
  timestamp : Z;
  keyImage : option string;
  outputKey : string;
  spendingTxHash : option string
}.
End WalletSpend.

Module SyncedBlockInfo.
Record t : Type := mk {
  blockHeight : Z;
  blockHash : string;
  timestamp : Z;
  transactions : list string
}.
End SyncedBlockInfo.

(** ** staking.js *)
Module Staking.

Definition mask : Z := 0x7f.
Definition continuation : Z := 0x80.
Definition threshold : Z := 0x80.

(** The [do { ... } while (remaining >= threshold)] loop of the
    module-level [writeVarint]. *)
Equations? writeVarint_loop (remaining : Z) (bytes : list Z) : list Z
  by wf (Z.to_nat (Z.log2 remaining)) lt :=
  writeVarint_loop remaining bytes
    with Z_le_gt_dec threshold (Z.shiftr remaining 7) => {
    | left _ :=
        writeVarint_loop (Z.shiftr remaining 7)
          (bytes ++ [Z.lor (Z.land remaining mask) continuation]);
    | right _ := bytes ++ [Z.lor (Z.land remaining mask) continuation] }.
Proof.
  unfold threshold in *.
  assert (0 < remaining).
  { destruct (Z_lt_le_dec 0 remaining) as [|Hle]; [assumption|].
    exfalso. destruct (Z.eq_dec remaining 0) as [->|].
    - rewrite Z.shiftr_0_l in l. lia.
    - assert (Z.shiftr remaining 7 < 0) by (apply Z.shiftr_neg; lia). lia. }
  rewrite Z.log2_shiftr by lia.
  assert (7 <= Z.log2 remaining).
  { apply Z.log2_le_pow2; [lia|].
    rewrite Z.shiftr_div_pow2 in l by lia.
    assert (remaining / 2 ^ 7 <= remaining) by (apply Z.div_le_upper_bound; lia).
    lia. }
  lia.
Qed.

(** [writeVarint(value)]: the loop, then
    [bytes[bytes.length - 1] &= 0x7f]. *)
Definition writeVarint (value : Z) : list Z :=
  let bytes := writeVarint_loop value [] in
  alter (fun b => JS.and32 b 0x7f) (length bytes - 1)%nat bytes.

(** The filter every selector of this module starts with:
    [isUnspent && isMature && o.unlockTime === 0]. *)
Definition spendable_filter (matureHeight : Z) (o : WalletOutput.t) : bool :=
  let isUnspent := negb (JS.truthy (WalletOutput.spentHeight o)) in
  let isMature := WalletOutput.blockHeight o <=? matureHeight in
  isUnspent && isMature && (WalletOutput.unlockTime o =? 0).

(** [hasPreciseStakingOutputs(amount, outputs, currentHeight, currentFee,
    maturityBlocks)]; the last two default to [MIN_FEE] and
    [MATURITY_BLOCKS]. *)
Definition hasPreciseStakingOutputs (amount : Z) (outputs : list WalletOutput.t)
    (currentHeight currentFee maturityBlocks : Z) : bool :=
  let matureHeight := currentHeight - maturityBlocks in
  let spendable := List.filter (spendable_filter matureHeight) outputs in
  let hasAmountInput :=
    existsb (fun o => WalletOutput.amount o =? amount) spendable in
  let hasFeeInput :=
    existsb (fun o => (WalletOutput.amount o =? currentFee)
                      && negb (WalletOutput.amount o =? amount)) spendable in
  if hasAmountInput && hasFeeInput then
    let amountInputs :=
      List.filter (fun o => WalletOutput.amount o =? amount) spendable in
    let feeInputs :=
      List.filter (fun o => (WalletOutput.amount o =? currentFee)
                            && negb (WalletOutput.amount o =? amount))
        spendable in
    let hasDifferentFeeInput :=
      existsb
        (fun fee =>
           negb (existsb
                   (fun amount =>
                      String.eqb (WalletOutput.transactionHash amount)
                        (WalletOutput.transactionHash fee)
                      && (WalletOutput.transactionIndex amount
                          =? WalletOutput.transactionIndex fee))
                   amountInputs))
        feeInputs in
    hasDifferentFeeInput
  else false.

(** [[...spendable].sort((a, b) => b.amount - a.amount)]: a stable sort,
    largest amount first. *)
Fixpoint insert_desc (o : WalletOutput.t) (sorted : list WalletOutput.t)
  : list WalletOutput.t :=
  match sorted with
  | [] => [o]
  | x :: rest =>
      if WalletOutput.amount x <? WalletOutput.amount o then o :: x :: rest
      else x :: insert_desc o rest
  end.

Definition sort_desc (l : list WalletOutput.t) : list WalletOutput.t :=
  fold_left (fun sorted o => insert_desc o sorted) l [].

(** The selection loop of [prepareStakingOutputs]:
    [for (const output of sorted) { push; totalInput += amount;
    if (totalInput >= totalNeeded) break; }]. *)
Fixpoint select_inputs (sorted selectedInputs : list WalletOutput.t)
    (totalInput totalNeeded : Z) : list WalletOutput.t * Z :=
  match sorted with
  | [] => (selectedInputs, totalInput)
  | output :: rest =>
      let selectedInputs := selectedInputs ++ [output] in
      let totalInput := JS.number_add totalInput (WalletOutput.amount output) in
      if totalInput >=? totalNeeded then (selectedInputs, totalInput)
      else select_inputs rest selectedInputs totalInput totalNeeded
  end.

Record SelectedInput : Type := mkSelectedInput {
  output : WalletOutput.t;
  transactionHash : string;
  outputIndex : Z;
  publicKey : string;
  privateKey : string
}.

Record SerializedKeyInput : Type := mkSerializedKeyInput {
  in_amount : Z;
  in_outputIndexes : list Z;
  in_transactionHash : string;
  in_outputIndex : Z;
  in_publicKey : string;
  in_privateKey : string
}.

Record SerializedOutput : Type := mkSerializedOutput {
  key : string;
  amount : Z
}.

(** The outputs [hasPreciseStakingOutputs] looks at. *)
Definition spendable_in (outputs : list WalletOutput.t)
    (currentHeight maturityBlocks : Z) (o : WalletOutput.t) : Prop :=
  In o outputs /\ spendable_filter (currentHeight - maturityBlocks) o = true.

(** The test inside [hasDifferentFeeInput]. *)
Definition same_hash_and_index (a b : WalletOutput.t) : Prop :=
  WalletOutput.transactionHash a = WalletOutput.transactionHash b /\
  WalletOutput.transactionIndex a = WalletOutput.transactionIndex b.

(** The condition of the specification: one transaction holds, at two
    distinct places of the output list, a spendable output of [amount] and
    a spendable output of [fee]. *)
Definition pair_in_one_transaction (amount : Z) (outputs : list WalletOutput.t)
    (currentHeight fee maturityBlocks : Z) : Prop :=
  exists (i j : nat) (a f : WalletOutput.t),
    i <> j /\ outputs !! i = Some a /\ outputs !! j = Some f /\
    spendable_filter (currentHeight - maturityBlocks) a = true /\
    spendable_filter (currentHeight - maturityBlocks) f = true /\
    WalletOutput.amount a = amount /\ WalletOutput.amount f = fee /\
    WalletOutput.transactionHash a = WalletOutput.transactionHash f.

End Staking.

(** ** What a canonical varint is *)
Module Varint.

(** The integer a base-128 little-endian byte sequence stands for. *)
Fixpoint value (bs : list Z) : Z :=
  match bs with
  | [] => 0
  | b :: rest => Z.land b 0x7f + 128 * value rest
  end.

(** Bytes, with the continuation bit set on all but the last one. *)
Fixpoint framed (bs : list Z) : bool :=
  match bs with
  | [] => false
  | [b] => (0 <=? b) && (b <? 128)
  | b :: rest => (128 <=? b) && (b <? 256) && framed rest
  end.

(** No trailing zero group: one byte, or a last byte that is not zero. *)
Definition no_trailing_zero (bs : list Z) : Prop :=
  length bs = 1%nat \/ List.last bs 0 <> 0.

Definition canonical (n : Z) (bs : list Z) : Prop :=
  framed bs = true /\ value bs = n /\ no_trailing_zero bs.

End Varint.

(** ** walletSync-utils.js, walletSync-balance.js, walletSync-processing.js *)
Module WalletSync.

(** [isOutputSpendable(blockHeight, unlockTime, blockTimestamp,
    currentHeight)].  [now] is what [Math.floor(Date.now() / 1000)]
    reads. *)
Definition isOutputSpendable (now : Z)
    (blockHeight unlockTime blockTimestamp currentHeight : Z) : bool :=
  let matureHeight := currentHeight - Config.MATURITY_BLOCKS in
  let maturityMet := blockHeight <=? matureHeight in
  if negb maturityMet then false
  else if unlockTime =? 0 then true
  else if unlockTime <? Config.UNLOCK_TIME_TIMESTAMP_THRESHOLD then
    currentHeight >=? unlockTime
  else
    let currentTimestamp := now in
    currentTimestamp >=? unlockTime.

(** The part of [ProcessingContext] the balance and fork code reads and
    writes ([rawTransactionOutputs] and [pendingTxData] are left out). *)
Record ProcessingContext : Type := mkContext {
  publicKeys : gset string;
  currentHeight : Z;
  outputs : gmap string WalletOutput.t;
  spends : gmap string WalletSpend.t;
  stakingTxHashes : gset string
}.

Record Balances : Type := mkBalances {
  available : Z;
  locked : Z;
  stakingLocked : Z
}.

(** [isStaking?: boolean] read in a condition. *)
Definition flag (b : option bool) : bool :=
  match b with Some v => v | None => false end.

(** One turn of the loop of [recalculateBalances]. *)
Definition recalculateBalances_step (now : Z) (stakingTxHashes : gset string)
    (currentHeight : Z) (output : WalletOutput.t) (acc : Balances)
  : Balances :=
  if JS.truthy (WalletOutput.spentHeight output) then acc
  else
    let unlockMet :=
      isOutputSpendable now (WalletOutput.blockHeight output)
        (WalletOutput.unlockTime output) 0 currentHeight in
    if unlockMet then
      mkBalances (available acc + WalletOutput.amount output)
                 (locked acc) (stakingLocked acc)
    else
      let isStakingOutput :=
        flag (WalletOutput.isStaking output)
        || bool_decide (WalletOutput.transactionHash output ∈ stakingTxHashes) in
      if isStakingOutput then
        mkBalances (available acc) (locked acc)
                   (stakingLocked acc + WalletOutput.amount output)
      else
        mkBalances (available acc) (locked acc + WalletOutput.amount output)
                   (stakingLocked acc).

(** [recalculateBalances(ctx)]: [for (const output of outputs.values())].
    The amounts are added as integers.  The program adds Numbers: it
    computes these figures as long as no sum passes [2^53]; the walk with
    sums of Numbers is [NumberBalances.recalculateBalances]. *)
Definition recalculateBalances (now : Z) (ctx : ProcessingContext) : Balances :=
  map_fold
    (fun _ output acc =>
       recalculateBalances_step now (stakingTxHashes ctx) (currentHeight ctx)
         output acc)
    (mkBalances 0 0 0) (outputs ctx).

(** [for (const [k, v] of m) { if (cond) m.delete(k); }]: the walk visits
    the entries of [m] and deletes from [m] itself. *)
Definition delete_where `{Countable K} {V : Type} (cond : K -> V -> bool)
    (m : gmap K V) : gmap K V :=
  map_fold (fun k v acc => if cond k v then delete k acc else acc) m m.

(** The tracker: the context and the two maps [handleFork] is given. *)
Record Tracker : Type := mkTracker {
  ctx : ProcessingContext;
  syncedBlocks : gmap Z SyncedBlockInfo.t;
  blockCheckpoints : gmap Z string
}.

(** [handleFork(forkHeight, ctx, syncedBlocks, blockCheckpoints)]. *)
Definition handleFork (forkHeight : Z) (t : Tracker) : Tracker :=
  let syncedBlocks' :=
    delete_where (fun height _ => height >=? forkHeight) (syncedBlocks t) in
  let outputs' :=
    delete_where (fun _ output => WalletOutput.blockHeight output >=? forkHeight)
      (outputs (ctx t)) in
  let spends' :=
    delete_where (fun _ spend => WalletSpend.blockHeight spend >=? forkHeight)
      (spends (ctx t)) in
  let blockCheckpoints' :=
    delete_where (fun height _ => height >=? forkHeight) (blockCheckpoints t) in
  mkTracker
    (mkContext (publicKeys (ctx t)) (Z.max 0 (forkHeight - 1)) outputs' spends'
       (stakingTxHashes (ctx t)))
    syncedBlocks' blockCheckpoints'.

(** The [if (matchedOutput) { ... }] block of [processTransactionSpends]:
    the matched output, stored under [key], gets its [spentHeight] and a
    spend record is stored under the same key. *)
Definition recordSpend (key : string) (output : WalletOutput.t)
    (inputAmount blockHeight blockTimestamp : Z) (keyImage : option string)
    (txHash : string) (c : ProcessingContext) : ProcessingContext :=
  let spend :=
    WalletSpend.mk inputAmount (WalletOutput.transactionHash output)
      (WalletOutput.outputIndex output) blockHeight blockTimestamp keyImage
      key (Some txHash) in
  mkContext (publicKeys c) (currentHeight c)
    (<[key := WalletOutput.set_spentHeight output blockHeight]> (outputs c))
    (<[key := spend]> (spends c))
    (stakingTxHashes c).

(** The sum of the amounts of the outputs selected by [P]. *)
Definition total_amount (P : WalletOutput.t -> bool)
    (m : gmap string WalletOutput.t) : Z :=
  map_fold (fun _ o s => if P o then s + WalletOutput.amount o else s) 0 m.

(** The three conditions the loop of [recalculateBalances] tests. *)
Definition unspent (o : WalletOutput.t) : bool :=
  negb (JS.truthy (WalletOutput.spentHeight o)).

Definition spendable_now (now height : Z) (o : WalletOutput.t) : bool :=
  isOutputSpendable now (WalletOutput.blockHeight o) (WalletOutput.unlockTime o)
    0 height.

Definition staking_origin (hashes : gset string) (o : WalletOutput.t) : bool :=
  flag (WalletOutput.isStaking o)
  || bool_decide (WalletOutput.transactionHash o ∈ hashes).

(** "[spentHeight] is unset", read literally. *)
Definition spentHeight_unset (o : WalletOutput.t) : bool :=
  match WalletOutput.spentHeight o with
  | None => true
  | Some _ => false
  end.

End WalletSync.

(** ** Tracker states used in the examples *)
Module Scenario.
Import WalletSync.

(** An owned output of [amount], created at [height] by output [index] of
    transaction [hash], with [unlockTime = 0]. *)
Definition output (hash : string) (index amount height : Z)
    (spent : option Z) : WalletOutput.t :=
  WalletOutput.mk "owner" amount height 0 hash index 0 "" false spent None
    (Some index) None None.

Definition empty_tracker : Tracker :=
  mkTracker (mkContext ∅ 0 ∅ ∅ ∅) ∅ ∅.

(** The output created in block 0 is spent by transaction [cc] of that
    block: [processTransactionSpends] writes the block height, the number
    0, into its [spentHeight]. *)
Definition spent_at_zero : ProcessingContext :=
  recordSpend "aa:0" (output "aa" 0 5000 0 None) 5000 0 0 None "cc"
    (mkContext {["owner"]} 100 {["aa:0" := output "aa" 0 5000 0 None]} ∅ ∅).

(** Blocks 100 to 102 are synced; the output created in block 100 is spent
    by transaction [cc] of block 102. *)
Definition spent_in_block_102 : Tracker :=
  mkTracker
    (recordSpend "aa:0" (output "aa" 0 5000 100 None) 5000 102 0 None "cc"
       (mkContext {["owner"]} 102
          {["aa:0" := output "aa" 0 5000 100 None;
            "bb:0" := output "bb" 0 700 101 None]}
          ∅ ∅))
    {[100 := SyncedBlockInfo.mk 100 "h100" 0 ["aa"];
      101 := SyncedBlockInfo.mk 101 "h101" 0 ["bb"];
      102 := SyncedBlockInfo.mk 102 "h102" 0 ["cc"]]}
    {[100 := "h100"; 101 := "h101"; 102 := "h102"]}.

(** A stake amount and its fee held by outputs of two different
    transactions. *)
Definition pair_from_two_transactions : list WalletOutput.t :=
  [output "aa" 0 5000000000 100 None; output "bb" 0 1000 100 None].

(** Outputs 0 and 1 of one transaction, both of amount 1000. *)
Definition equal_pair_from_one_transaction : list WalletOutput.t :=
  [output "aa" 0 1000 100 None; output "aa" 1 1000 100 None].

(** The three outputs of a confirmed preparation transaction. *)
Definition confirmed_preparation : list WalletOutput.t :=
  [output "aa" 0 5000000000 100 None; output "aa" 1 1000 100 None;
   output "aa" 2 4999998000 100 None].

(** Two unspent outputs, of [2^53] and of 1, created in block 100. *)
Definition large_outputs : ProcessingContext :=
  mkContext {["owner"]} 200
    {["aa:0" := output "aa" 0 (2 ^ 53) 100 None;
      "bb:0" := output "bb" 0 1 100 None]} ∅ ∅.

(** A single UTXO of 10_000_000_000. *)
Definition single_utxo : list WalletOutput.t :=
  [output "aa" 0 10000000000 100 None].

End Scenario.

(** ** crypto.js: Schnorr signatures and key images *)
Module Crypto.

(** *** The two packages the module imports

    [js-sha3] and [@noble/ed25519] are not part of the repository; they are
    taken as parameters.  [keccak256] returns its digest as a hex string.
    Of the curve, [scalar_mul] and [add] are the group operations of
    section 4.1 of the specification; the method [multiply] of the
    package, defined below, computes [scalar_mul] and throws on a scalar
    outside [1 .. CURVE_ORDER - 1]; [fromHex] can fail. *)
Class Keccak : Type := {
  keccak256 : list Z -> string
}.

Class Ed25519 : Type := {
  Point : Type;
  BASE : Point;
  scalar_mul : Point -> Z -> Point;
  add : Point -> Point -> Point;
  toRawBytes : Point -> list Z;
  fromHex : string -> option Point
}.

(** *** Strings and typed arrays *)

Definition hexDigitValue (c : ascii) : option Z :=
  let n := Z.of_N (Ascii.N_of_ascii c) in
  if (48 <=? n) && (n <=? 57) then Some (n - 48)
  else if (97 <=? n) && (n <=? 102) then Some (n - 87)
  else if (65 <=? n) && (n <=? 70) then Some (n - 55)
  else None.

Definition isWhiteSpace (c : ascii) : bool :=
  let n := Z.of_N (Ascii.N_of_ascii c) in
  ((9 <=? n) && (n <=? 13)) || (n =? 32).

Fixpoint trimStart (s : string) : string :=
  match s with
  | String c rest => if isWhiteSpace c then trimStart rest else s
  | EmptyString => s
  end.

(** The longest prefix of hex digits, read as a number; [None] when there
    is no digit. *)
Fixpoint parseDigits (s : string) (acc : option Z) : option Z :=
  match s with
  | String c rest =>
      match hexDigitValue c with
      | Some d =>
          parseDigits rest
            (Some (match acc with Some a => a * 16 + d | None => d end))
      | None => acc
      end
  | EmptyString => acc
  end.

Definition stripPrefix0x (s : string) : string :=
  match s with
  | String "0" (String "x" rest) => rest
  | String "0" (String "X" rest) => rest
  | _ => s
  end.

(** [parseInt(s, 16)] on a string of ASCII characters; [None] is [NaN]. *)
Definition parseInt16 (s : string) : option Z :=
  let s := trimStart s in
  let '(sign, s) :=
    match s with
    | String "-" rest => (-1, rest)
    | String "+" rest => (1, rest)
    | _ => (1, s)
    end in
  match parseDigits (stripPrefix0x s) None with
  | Some n => Some (sign * n)
  | None => None
  end.

(** Storing a number into a [Uint8Array]: [NaN] becomes 0, an integer is
    taken modulo 256. *)
Definition toUint8 (v : option Z) : Z :=
  match v with
  | Some n => n mod 256
  | None => 0
  end.

(** [hexToBytes(hex)] *)
Definition hexToBytes (hex : string) : list Z :=
  map (fun i => toUint8 (parseInt16 (String.substring (i * 2) 2 hex)))
      (seq 0 (String.length hex / 2)).

Definition hexDigit (d : Z) : ascii :=
  match String.get (Z.to_nat d) "0123456789abcdef" with
  | Some c => c
  | None => "0"%char
  end.

(** [b.toString(16).padStart(2, '0')] for an element [b] of a
    [Uint8Array]. *)
Definition byteToHex (b : Z) : string :=
  String (hexDigit (b / 16)) (String (hexDigit (b mod 16)) EmptyString).

(** [bytesToHex(bytes)] *)
Definition bytesToHex (bytes : list Z) : string :=
  fold_right String.append EmptyString (map byteToHex bytes).

(** [target.set(source, offset)] on typed arrays; it throws when the
    source does not fit. *)
Definition typed_set (target source : list Z) (offset : nat)
  : option (list Z) :=
  if (length target <? length source + offset)%nat then None
  else Some (firstn offset target ++ source
             ++ skipn (offset + length source) target).

(** [new Uint8Array(n)] *)
Definition zeros (n : nat) : list Z := repeat 0 n.

(** [array.subarray(from, to)] *)
Definition subarray (array : list Z) (from to : nat) : list Z :=
  firstn (to - from) (skipn from array).

(** *** Scalars *)

Definition CURVE_ORDER : Z :=
  0x1000000000000000000000000000000014def9dea2f79cd65812631a5cf5d3ed.

(** [scReduce32(input)]: only the first 32 bytes of the 64 are read.
    [%] on BigInts truncates, as [Z.rem] does. *)
Definition scReduce32 (input : list Z) : option (list Z) :=
  if negb (length input =? 64)%nat then None
  else
    let num :=
      fold_left
        (fun num i => Z.lor num (Z.shiftl (nth i input 0) (Z.of_nat i * 8)))
        (seq 0 32) 0 in
    let reduced := Z.rem num CURVE_ORDER in
    Some (map (fun i => Z.land (Z.shiftr reduced (Z.of_nat i * 8)) 0xff)
              (seq 0 32)).

(** [scReduce(input)] *)
Definition scReduce (input : list Z) : option (list Z) :=
  if (length input <? 64)%nat then
    match typed_set (zeros 64) input 0 with
    | Some padded => scReduce32 padded
    | None => None
    end
  else scReduce32 (subarray input 0 64).

(** [scalarToBigInt(scalar)]; reading past the end of a shorter array
    would throw in [BigInt(undefined)]. *)
Definition scalarToBigInt (scalar : list Z) : option Z :=
  if (length scalar <? 32)%nat then None
  else
    Some (fold_left
            (fun num i => Z.lor num (Z.shiftl (nth i scalar 0) (Z.of_nat i * 8)))
            (seq 0 32) 0).

(** [bigIntToScalar(num)] *)
Definition bigIntToScalar (num : Z) : list Z :=
  map (fun i => Z.land (Z.shiftr num (Z.of_nat i * 8)) 0xff) (seq 0 32).

Section WithLibraries.
Context {keccak : Keccak} {curve : Ed25519}.

(** [P.multiply(n)] of [@noble/ed25519]: it throws unless
    [0 < n < CURVE_ORDER]. *)
Definition multiply (P : Point) (n : Z) : option Point :=
  if (0 <? n) && (n <? CURVE_ORDER) then Some (scalar_mul P n) else None.

(** [hashToScalar(data)] *)
Definition hashToScalar (data : list Z) : option (list Z) :=
  let hash := keccak256 data in
  let hashBytes := hexToBytes hash in
  let result := zeros 64 in
  match typed_set result hashBytes 0 with
  | None => None
  | Some result =>
      match typed_set result hashBytes 32 with
      | None => None
      | Some result => scReduce32 result
      end
  end.

(** [randomScalar()]; [randomBytes] is what [crypto.getRandomValues] has
    written into the 64-byte array. *)
Definition randomScalar (randomBytes : list Z) : option (list Z) :=
  scReduce randomBytes.

(** [generateSchnorrSignature(prefixHash, publicKey, privateKey)], with
    the random bytes of its call to [randomScalar] as first argument.
    [None] stands for a thrown error. *)
Definition generateSchnorrSignature (randomBytes prefixHash : list Z)
    (publicKey privateKey : string) : option (list Z) :=
  let publicKeyBytes := hexToBytes publicKey in
  let privateKeyBytes := hexToBytes privateKey in
  if negb (length prefixHash =? 32)%nat then None
  else if negb (length publicKeyBytes =? 32)%nat then None
  else if negb (length privateKeyBytes =? 32)%nat then None
  else
    k ← randomScalar randomBytes;
    kBigInt ← scalarToBigInt k;
    pointR ← multiply BASE kBigInt;
    let comm := toRawBytes pointR in
    let sComm := zeros 96 in
    sComm ← typed_set sComm prefixHash 0;
    sComm ← typed_set sComm publicKeyBytes 32;
    sComm ← typed_set sComm comm 64;
    c ← hashToScalar sComm;
    secBigInt ← scalarToBigInt privateKeyBytes;
    cBigInt ← scalarToBigInt c;
    let cTimesSec := Z.rem (cBigInt * secBigInt) CURVE_ORDER in
    let sBigInt := Z.rem (kBigInt - cTimesSec) CURVE_ORDER in
    let sBigInt := if sBigInt <? 0 then sBigInt + CURVE_ORDER else sBigInt in
    let s := bigIntToScalar sBigInt in
    let signature := zeros 64 in
    signature ← typed_set signature c 0;
    signature ← typed_set signature s 32;
    Some signature.

(** [verifySchnorrSignature(prefixHash, publicKey, signature)] *)
Definition verifySchnorrSignature (prefixHash : list Z) (publicKey : string)
    (signature : list Z) : option bool :=
  let publicKeyBytes := hexToBytes publicKey in
  if negb (length signature =? 64)%nat then None
  else
    let c := subarray signature 0 32 in
    let s := subarray signature 32 64 in
    sBigInt ← scalarToBigInt s;
    cBigInt ← scalarToBigInt c;
    pointSG ← multiply BASE sBigInt;
    pointPub ← fromHex publicKey;
    pointCPub ← multiply pointPub cBigInt;
    let pointResult := add pointSG pointCPub in
    let comm := toRawBytes pointResult in
    let sComm := zeros 96 in
    sComm ← typed_set sComm prefixHash 0;
    sComm ← typed_set sComm publicKeyBytes 32;
    sComm ← typed_set sComm comm 64;
    expectedC ← hashToScalar sComm;
    Some (forallb (fun i => nth i c 0 =? nth i expectedC 0) (seq 0 32)).

(** [generateKeyImage(publicKey, privateKey)] *)
Definition generateKeyImage (publicKey privateKey : string) : option string :=
  let publicKeyBytes := hexToBytes publicKey in
  let privateKeyBytes := hexToBytes privateKey in
  if negb (length publicKeyBytes =? 32)%nat then None
  else if negb (length privateKeyBytes =? 32)%nat then None
  else
    let hash := keccak256 publicKeyBytes in
    let hashBytes := hexToBytes hash in
    hashScalar ← hashToScalar hashBytes;
    hashScalarBigInt ← scalarToBigInt hashScalar;
    pointHP ← multiply BASE hashScalarBigInt;
    privateKeyBigInt ← scalarToBigInt privateKeyBytes;
    keyImagePoint ← multiply pointHP privateKeyBigInt;
    Some (bytesToHex (toRawBytes keyImagePoint)).

End WithLibraries.

(** *** What the specification says *)

(** The little-endian interpretation of a byte sequence. *)
Fixpoint le_value (bytes : list Z) : Z :=
  match bytes with
  | [] => 0
  | b :: rest => b + 256 * le_value rest
  end.

(** The [n]-byte little-endian encoding of [x]. *)
Fixpoint le_bytes (n : nat) (x : Z) : list Z :=
  match n with
  | O => []
  | S n => x mod 256 :: le_bytes n (x / 256)
  end.

Section Specification.
Context {keccak : Keccak} {curve : Ed25519}.

(** [hash_to_scalar(buf)] of section 4.1, as a number. *)
Definition hash_to_scalar (data : list Z) : Z :=
  le_value (hexToBytes (keccak256 data)) mod CURVE_ORDER.

(** The response of section 4.2: [k - c * s (mod l)]. *)
Definition response (k c sec : Z) : Z := (k - c * sec) mod CURVE_ORDER.

(** The signature of section 4.2, [c || s], for the nonce that the first
    32 random bytes reduce to. *)
Definition schnorr_signature (randomBytes prefixHash : list Z)
    (publicKey privateKey : string) : list Z :=
  let k := le_value (firstn 32 randomBytes) mod CURVE_ORDER in
  let sec := le_value (hexToBytes privateKey) in
  let c := hash_to_scalar (prefixHash ++ hexToBytes publicKey
                           ++ toRawBytes (scalar_mul BASE k)) in
  le_bytes 32 c ++ le_bytes 32 (response k c sec).

(** The key image of section 4.2: [I = s * (hash_to_scalar(P) * G)],
    [hash_to_scalar] applied to the 32 bytes of [P]. *)
Definition key_image (publicKey privateKey : string) : string :=
  let P := hexToBytes publicKey in
  let s := le_value (hexToBytes privateKey) in
  bytesToHex (toRawBytes (scalar_mul (scalar_mul BASE (hash_to_scalar P)) s)).

End Specification.

(** The elements of a [Uint8Array]. *)
Definition bytes (l : list Z) : Prop := Forall (fun b => 0 <= b < 256) l.

(** What the curve is taken to satisfy: a 32-byte encoding, scalar
    multiplication that is additive and multiplicative in the scalar, and
    a base point of order [CURVE_ORDER]. *)
Class Ed25519Laws (curve : Ed25519) : Prop := {
  toRawBytes_length : forall P, length (toRawBytes P) = 32%nat;
  scalar_mul_add : forall P a b, 0 <= a -> 0 <= b ->
    scalar_mul P (a + b) = add (scalar_mul P a) (scalar_mul P b);
  scalar_mul_mul : forall P a b, 0 <= a -> 0 <= b ->
    scalar_mul (scalar_mul P a) b = scalar_mul P (a * b);
  scalar_mul_order : forall a, 0 <= a ->
    scalar_mul BASE (a mod CURVE_ORDER) = scalar_mul BASE a
}.

(** What the hash is taken to satisfy: the digest has 32 bytes. *)
Class KeccakLaws (keccak : Keccak) : Prop := {
  keccak256_length : forall data, String.length (keccak256 data) = 64%nat
}.

End Crypto.

(** ** Keccak-256 *)
Module Keccak256.

(** Modelled from the spec: the Keccak-256 function of section 3 (the
    package [js-sha3], which computes it, is not part of the repository):
    the sponge over Keccak-f[1600] with rate 136 bytes and padding byte
    [0x01].  The state is the list of its 25 lanes, lane [(x, y)] at index
    [x + 5 * y]. *)
Definition RC : list Z :=
  [ 0x0000000000000001; 0x0000000000008082; 0x800000000000808a;
    0x8000000080008000; 0x000000000000808b; 0x0000000080000001;
    0x8000000080008081; 0x8000000000008009; 0x000000000000008a;
    0x0000000000000088; 0x0000000080008009; 0x000000008000000a;
    0x000000008000808b; 0x800000000000008b; 0x8000000000008089;
    0x8000000000008003; 0x8000000000008002; 0x8000000000000080;
    0x000000000000800a; 0x800000008000000a; 0x8000000080008081;
    0x8000000000008080; 0x0000000080000001; 0x8000000080008008 ].

Definition ROT : list Z :=
  [ 0; 1; 62; 28; 27; 36; 44; 6; 55; 20; 3; 10; 43; 25; 39; 41; 45; 15; 21;
    8; 18; 2; 61; 56; 14 ].

(** For every lane of the state after pi, the lane it comes from. *)
Definition PI_SOURCE : list nat :=
  [ 0; 6; 12; 18; 24; 3; 9; 10; 16; 22; 1; 7; 13; 19; 20; 4; 5; 11; 17; 23;
    2; 8; 14; 15; 21 ]%nat.

Definition rol64 (x n : Z) : Z :=
  Z.land (Z.lor (Z.shiftl x n) (Z.shiftr x (64 - n))) (Z.ones 64).

Definition lane (st : list Z) (i : nat) : Z := nth i st 0.

Definition theta (st : list Z) : list Z :=
  let C := fun x : nat =>
    Z.lxor (lane st x)
      (Z.lxor (lane st (x + 5))
         (Z.lxor (lane st (x + 10))
            (Z.lxor (lane st (x + 15)) (lane st (x + 20))))) in
  let D := fun x : nat =>
    Z.lxor (C ((x + 4) mod 5)%nat) (rol64 (C ((x + 1) mod 5)%nat) 1) in
  map (fun i => Z.lxor (lane st i) (D (i mod 5)%nat)) (seq 0 25).

Definition rho_pi (st : list Z) : list Z :=
  map (fun j => let i := nth j PI_SOURCE 0%nat in rol64 (lane st i) (nth i ROT 0))
      (seq 0 25).

Definition chi (st : list Z) : list Z :=
  map (fun i =>
         let x := (i mod 5)%nat in
         let y := (i / 5)%nat in
         Z.lxor (lane st i)
           (Z.land (Z.lnot (lane st ((x + 1) mod 5 + 5 * y)))
                   (lane st ((x + 2) mod 5 + 5 * y))))
      (seq 0 25).

Definition iota (rc : Z) (st : list Z) : list Z :=
  match st with
  | l0 :: rest => Z.lxor l0 rc :: rest
  | [] => []
  end.

Definition round (st : list Z) (rc : Z) : list Z :=
  iota rc (chi (rho_pi (theta st))).

(** Modelled from the spec: the permutation Keccak-f[1600], 24 rounds. *)
Definition keccak_f (st : list Z) : list Z := fold_left round RC st.

Definition rate : nat := 136.

(** Modelled from the spec: the message followed by the padding
    [0x01 0x00 ... 0x80] of Keccak. *)
Definition pad (message : list Z) : list Z :=
  let n := (rate - length message mod rate)%nat in
  if (n =? 1)%nat then message ++ [0x81]
  else message ++ [0x01] ++ repeat 0 (n - 2) ++ [0x80].

(** Lane [i] of a block of [rate] bytes. *)
Definition block_lane (block : list Z) (i : nat) : Z :=
  fold_right (fun b acc => b + 256 * acc) 0 (firstn 8 (skipn (8 * i) block)).

Definition absorb (st block : list Z) : list Z :=
  keccak_f (map (fun i => Z.lxor (lane st i) (block_lane block i)) (seq 0 25)).

(** Modelled from the spec: the absorbing phase of the sponge. *)
Definition sponge (padded : list Z) : list Z :=
  fold_left
    (fun st k => absorb st (firstn rate (skipn (rate * k) padded)))
    (seq 0 (length padded / rate)) (repeat 0 25).

(** Modelled from the spec: the Keccak-256 digest, the first 32 bytes of
    the state. *)
Definition digest (message : list Z) : list Z :=
  let st := sponge (pad message) in
  map (fun i => (lane st (i / 8) / 2 ^ (8 * Z.of_nat (i mod 8))) mod 256)
      (seq 0 32).

(** Modelled from the spec: [keccak256(message)] of [js-sha3], the digest
    in lowercase hex. *)
#[export] Instance keccak : Crypto.Keccak :=
  {| Crypto.keccak256 := fun message => Crypto.bytesToHex (digest message) |}.

End Keccak256.

(** ** A group that satisfies the laws asked of the curve *)
Module ScalarGroup.

(** The integers modulo [CURVE_ORDER] under addition, with 1 as base
    point: "points" are their own discrete logarithms.  It is used to run
    the signature scheme on concrete inputs. *)
Definition encode (P : Z) : list Z := Crypto.le_bytes 32 (P mod Crypto.CURVE_ORDER).

Definition decode (hex : string) : option Z :=
  let b := Crypto.hexToBytes hex in
  if negb (length b =? 32)%nat then None
  else
    let P := Crypto.le_value b in
    if P <? Crypto.CURVE_ORDER then Some P else None.

#[export] Instance curve : Crypto.Ed25519 :=
  {| Crypto.Point := Z;
     Crypto.BASE := 1;
     Crypto.scalar_mul := fun P n => (P * n) mod Crypto.CURVE_ORDER;
     Crypto.add := fun P Q => (P + Q) mod Crypto.CURVE_ORDER;
     Crypto.toRawBytes := encode;
     Crypto.fromHex := decode |}.

End ScalarGroup.

(** ** Inputs used in the examples of the signature scheme *)
Module CryptoScenario.

(** The 64 bytes 1, 2, ..., 64. *)
Definition random_bytes : list Z := map Z.of_nat (seq 1 64).

(** The 32 bytes 0xa0, 0xa1, ..., 0xbf. *)
Definition prefix_hash : list Z := map Z.of_nat (seq 160 32).

(** The scalar 5 and, in [ScalarGroup], its public key [5 * BASE]. *)
Definition private_key : string :=
  "0500000000000000000000000000000000000000000000000000000000000000".

Definition public_key : string :=
  Crypto.bytesToHex (ScalarGroup.encode (1 * 5)).

(** The encoding of the base point of Ed25519. *)
Definition base_point_key : string :=
  "5866666666666666666666666666666666666666666666666666666666666666".

Definition one_key : string :=
  "0100000000000000000000000000000000000000000000000000000000000000".

(** The signature the scheme makes of these inputs in [ScalarGroup]. *)
Definition signature : list Z :=
  Eval vm_compute in
    match @Crypto.generateSchnorrSignature Keccak256.keccak ScalarGroup.curve
            random_bytes prefix_hash public_key private_key with
    | Some signature => signature
    | None => []
    end.

End CryptoScenario.

(** ** index.ts: addresses *)
Module Wallet.

(** The [while (num >= 0x80)] loop of [encodeVarint]; [num] is a Number,
    so [&], [|] and [>>>=] are the 32-bit operations. *)
Equations? encodeVarint_loop (num : Z) (bytes : list Z) : Z * list Z
  by wf (Z.to_nat (Z.log2 num)) lt :=
  encodeVarint_loop num bytes with Z_le_gt_dec 0x80 num => {
    | left _ :=
        encodeVarint_loop (JS.ushr32 num 7)
          (bytes ++ [JS.or32 (JS.and32 num 0x7f) 0x80]);
    | right _ := (num, bytes) }.
Proof.
  unfold JS.ushr32. change (7 mod 32) with 7.
  assert (0 <= num mod 2 ^ 32 <= num).
  { pose proof (Z.mod_pos_bound num (2 ^ 32) ltac:(lia)).
    pose proof (Z.mod_le num (2 ^ 32) ltac:(lia) ltac:(lia)). lia. }
  assert (Z.log2 (Z.shiftr (num mod 2 ^ 32) 7) <= Z.log2 (Z.shiftr num 7)).
  { apply Z.log2_le_mono. rewrite !Z.shiftr_div_pow2 by lia.
    apply Z.div_le_mono; lia. }
  rewrite (Z.log2_shiftr num 7) in H0 by lia.
  assert (7 <= Z.log2 num) by (apply Z.log2_le_pow2; lia). lia.
Qed.

(** [encodeVarint(num)]; the bytes go into a [Uint8Array]. *)
Definition encodeVarint (num : Z) : list Z :=
  let '(num, bytes) := encodeVarint_loop num [] in
  map (fun b => b mod 256) (bytes ++ [JS.and32 num 0xff]).

End Wallet.

(** ** staking.js: the other varint codecs of the module *)
Module StakingCodec.

(** The [do { ... } while (remaining > 0n)] loop of [writeVarintLocal]. *)
Equations? writeVarintLocal_loop (remaining : Z) (bytes : list Z) : list Z
  by wf (Z.to_nat (Z.log2 remaining)) lt :=
  writeVarintLocal_loop remaining bytes
    with Z_lt_le_dec 0 (Z.shiftr remaining 7) => {
    | left _ :=
        writeVarintLocal_loop (Z.shiftr remaining 7)
          (bytes ++ [Z.lor (Z.land remaining 0x7f) 0x80]);
    | right _ := bytes ++ [Z.lor (Z.land remaining 0x7f) 0x80] }.
Proof.
  assert (0 < remaining).
  { destruct (Z_lt_le_dec 0 remaining) as [|Hle]; [assumption|].
    exfalso. destruct (Z.eq_dec remaining 0) as [->|].
    - rewrite Z.shiftr_0_l in l. lia.
    - assert (Z.shiftr remaining 7 < 0) by (apply Z.shiftr_neg; lia). lia. }
  rewrite Z.log2_shiftr by lia.
  assert (7 <= Z.log2 remaining).
  { apply Z.log2_le_pow2; [lia|].
    rewrite Z.shiftr_div_pow2 in l by lia.
    destruct (Z_lt_le_dec remaining (2 ^ 7)) as [Hlt|]; [|assumption].
    rewrite Z.div_small in l by lia. lia. }
  lia.
Qed.

(** [writeVarintLocal(value)]: the loop, then
    [bytes[bytes.length - 1] &= 0x7f]. *)
Definition writeVarintLocal (value : Z) : list Z :=
  let bytes := writeVarintLocal_loop value [] in
  alter (fun b => JS.and32 b 0x7f) (length bytes - 1)%nat bytes.

(** The [while (true)] loop of the [writeVarint] closure made by
    [createSerializationHelpers]; it has no exit for a negative [n], so the
    walk is bounded by [fuel] and [None] stands for a loop still running. *)
Fixpoint writeVarint_loop (fuel : nat) (n : Z) (bytes : list Z)
  : option (list Z) :=
  match fuel with
  | O => None
  | S fuel =>
      let lowest7Bits := Z.land n 0x7f in
      let isLastByte := Z.shiftr n 7 =? 0 in
      if isLastByte then Some (bytes ++ [lowest7Bits])
      else
        let byteWithContinuation := Z.lor lowest7Bits 0x80 in
        writeVarint_loop fuel (Z.shiftr n 7) (bytes ++ [byteWithContinuation])
  end.

(** [createSerializationHelpers().writeVarint(value)] *)
Definition writeVarint (fuel : nat) (value : Z) : option (list Z) :=
  writeVarint_loop fuel value [].

(** The [for (let i = offset; i < bytes.length; i++)] loop of [readVarint],
    on the bytes from [offset] on; [value] and [shift] are BigInts. *)
Fixpoint readVarint_loop (bytes : list Z) (value shift : Z) (bytesRead : Z)
  : Z * Z :=
  match bytes with
  | [] => (value, bytesRead)
  | byte :: rest =>
      let value := Z.lor value (Z.shiftl (Z.land byte 0x7f) shift) in
      let bytesRead := bytesRead + 1 in
      if Z.land byte 0x80 =? 0 then (value, bytesRead)
      else readVarint_loop rest value (shift + 7) bytesRead
  end.

(** [readVarint(bytes, offset)] returns [{ value: Number(value), bytesRead }];
    the module-level function and the closure of
    [createSerializationHelpers] have the same body. *)
Definition readVarint (bytes : list Z) (offset : nat) : option Z * Z :=
  let '(value, bytesRead) := readVarint_loop (skipn offset bytes) 0 0 0 in
  (JS.number_of_bigint value, bytesRead).

End StakingCodec.

(** ** walletSync-balance.js and walletSync.js: the other balance figures *)
Module Balance.
Import WalletSync.

(** One turn of the loop of [getStakingLockedBalance]. *)
Definition getStakingLockedBalance_step (now : Z)
    (stakingTxHashes : gset string) (currentHeight : Z)
    (output : WalletOutput.t) (stakingLocked : Z) : Z :=
  if JS.truthy (WalletOutput.spentHeight output) then stakingLocked
  else
    let isStakingOutput :=
      flag (WalletOutput.isStaking output)
      || bool_decide (WalletOutput.transactionHash output ∈ stakingTxHashes) in
    if isStakingOutput then
      let unlockMet :=
        isOutputSpendable now (WalletOutput.blockHeight output)
          (WalletOutput.unlockTime output) 0 currentHeight in
      if negb unlockMet then stakingLocked + WalletOutput.amount output
      else stakingLocked
    else stakingLocked.

(** [getStakingLockedBalance(ctx)] *)
Definition getStakingLockedBalance (now : Z) (ctx : ProcessingContext) : Z :=
  map_fold
    (fun _ output acc =>
       getStakingLockedBalance_step now (stakingTxHashes ctx)
         (currentHeight ctx) output acc)
    0 (outputs ctx).

(** [getUnspentOutputs(allOutputs)] *)
Definition getUnspentOutputs (allOutputs : list WalletOutput.t)
  : list WalletOutput.t :=
  List.filter (fun o => negb (JS.truthy (WalletOutput.spentHeight o)))
    allOutputs.

(** [getAvailableOutputs(allOutputs, stakingTxHashes, currentHeight)] *)
Definition getAvailableOutputs (now : Z) (allOutputs : list WalletOutput.t)
    (stakingTxHashes : gset string) (currentHeight : Z)
  : list WalletOutput.t :=
  List.filter
    (fun o =>
       let isStakingOutput :=
         flag (WalletOutput.isStaking o)
         || bool_decide (WalletOutput.transactionHash o ∈ stakingTxHashes) in
       if isStakingOutput then false
       else isOutputSpendable now (WalletOutput.blockHeight o)
              (WalletOutput.unlockTime o) 0 currentHeight)
    (getUnspentOutputs allOutputs).

(** [getLockedOutputs(allOutputs, stakingTxHashes, currentHeight)] *)
Definition getLockedOutputs (now : Z) (allOutputs : list WalletOutput.t)
    (stakingTxHashes : gset string) (currentHeight : Z)
  : list WalletOutput.t :=
  List.filter
    (fun o =>
       let isStakingOutput :=
         flag (WalletOutput.isStaking o)
         || bool_decide (WalletOutput.transactionHash o ∈ stakingTxHashes) in
       if isStakingOutput then false
       else
         let spendable :=
           isOutputSpendable now (WalletOutput.blockHeight o)
             (WalletOutput.unlockTime o) 0 currentHeight in
         negb spendable)
    (getUnspentOutputs allOutputs).

(** The integer sum of the amounts of a list of outputs. *)
Definition sum_amounts (outputs : list WalletOutput.t) : Z :=
  fold_left (fun sum output => sum + WalletOutput.amount output) outputs 0.

(** [outputs.reduce((sum, output) => sum + output.amount, 0)]: the sum the
    program makes, of Numbers, from the left. *)
Definition reduce_amounts (outputs : list WalletOutput.t) : Z :=
  fold_left (fun sum output => JS.number_add sum (WalletOutput.amount output))
    outputs 0.

(** The getters of the [WalletSync] class, on the context it keeps.
    [getOutputs()] is [Array.from(this.outputs.values())], taken here in
    the order of the map of the model. *)
Definition getOutputs (ctx : ProcessingContext) : list WalletOutput.t :=
  (map_to_list (outputs ctx)).*2.

Definition getBalance (ctx : ProcessingContext) : Z :=
  reduce_amounts (getUnspentOutputs (getOutputs ctx)).

Definition getAvailableBalance (now : Z) (ctx : ProcessingContext) : Z :=
  reduce_amounts
    (getAvailableOutputs now (getOutputs ctx) (stakingTxHashes ctx)
       (currentHeight ctx)).

Definition getLockedBalance (now : Z) (ctx : ProcessingContext) : Z :=
  reduce_amounts
    (getLockedOutputs now (getOutputs ctx) (stakingTxHashes ctx)
       (currentHeight ctx)).

End Balance.

(** ** walletSync-balance.js: the balances as sums of Numbers *)
Module NumberBalances.
Import WalletSync.

(** One turn of the loop of [recalculateBalances], its [+=] on Numbers. *)
Definition recalculateBalances_step (now : Z) (stakingTxHashes : gset string)
    (currentHeight : Z) (output : WalletOutput.t) (acc : Balances)
  : Balances :=
  if JS.truthy (WalletOutput.spentHeight output) then acc
  else
    let unlockMet :=
      isOutputSpendable now (WalletOutput.blockHeight output)
        (WalletOutput.unlockTime output) 0 currentHeight in
    if unlockMet then
      mkBalances (JS.number_add (available acc) (WalletOutput.amount output))
                 (locked acc) (stakingLocked acc)
    else
      let isStakingOutput :=
        flag (WalletOutput.isStaking output)
        || bool_decide (WalletOutput.transactionHash output ∈ stakingTxHashes) in
      if isStakingOutput then
        mkBalances (available acc) (locked acc)
                   (JS.number_add (stakingLocked acc)
                      (WalletOutput.amount output))
      else
        mkBalances (available acc)
                   (JS.number_add (locked acc) (WalletOutput.amount output))
                   (stakingLocked acc).

(** [recalculateBalances(ctx)] with the sums the program makes, sums of
    Numbers; the outputs are taken in the order of the map of the model.
    [WalletSync.recalculateBalances] adds integers: the two give the same
    figures in a tracker whose amounts are not negative and add up to at
    most [2^53]. *)
Definition recalculateBalances (now : Z) (ctx : ProcessingContext) : Balances :=
  map_fold
    (fun _ output acc =>
       recalculateBalances_step now (stakingTxHashes ctx) (currentHeight ctx)
         output acc)
    (mkBalances 0 0 0) (outputs ctx).

End NumberBalances.

(** ** walletSync-processing.js: pruning *)
Module Processing.
Import WalletSync.

Definition PRUNE_INTERVAL : Z := 2880.
Definition LAST_KNOWN_BLOCK_HASHES_SIZE : nat := 50.

(** [pruneSpentInputs(currentHeight, outputs)] *)
Definition pruneSpentInputs (currentHeight : Z)
    (outputs : gmap string WalletOutput.t) : gmap string WalletOutput.t :=
  let cutoffHeight := currentHeight - PRUNE_INTERVAL in
  delete_where
    (fun _ output =>
       match WalletOutput.spentHeight output with
       | Some spentHeight =>
           negb (spentHeight =? 0) && (spentHeight <? cutoffHeight)
       | None => false
       end)
    outputs.

(** [addCheckpoint(height, hash, blockCheckpoints)] *)
Definition addCheckpoint (height : Z) (hash : string)
    (blockCheckpoints : gmap Z string) : gmap Z string :=
  <[height := hash]> blockCheckpoints.

(** [heights.sort((a, b) => b - a)], largest first.  The heights are the
    keys of a map, so no two are equal and the order they come in does not
    change the result. *)
Fixpoint insert_height (h : Z) (sorted : list Z) : list Z :=
  match sorted with
  | [] => [h]
  | x :: rest => if x <? h then h :: x :: rest else x :: insert_height h rest
  end.

Definition sort_heights (l : list Z) : list Z :=
  fold_left (fun sorted h => insert_height h sorted) l [].

(** Heights in strictly decreasing order. *)
Fixpoint decreasing (l : list Z) : Prop :=
  match l with
  | [] => True
  | a :: rest => (forall x, In x rest -> x < a) /\ decreasing rest
  end.

(** The number of heights of [l] above [k]. *)
Definition above (k : Z) (l : list Z) : nat :=
  length (List.filter (fun j => k <? j) l).

(** The number of keys of [m] above [k]. *)
Definition heights_above {V : Type} (k : Z) (m : gmap Z V) : nat :=
  above k (map_to_list m).*1.

(** [pruneCheckpoints(blockCheckpoints)]; [%] is the remainder of the
    truncated division. *)
Definition pruneCheckpoints (blockCheckpoints : gmap Z string)
  : gmap Z string :=
  let sortedHeights := sort_heights (map_to_list blockCheckpoints).*1 in
  fold_left
    (fun checkpoints height =>
       if negb (Z.rem height 5000 =? 0) then delete height checkpoints
       else checkpoints)
    (skipn LAST_KNOWN_BLOCK_HASHES_SIZE sortedHeights) blockCheckpoints.

(** [pruneSyncedBlocks(syncedBlocks)] *)
Definition pruneSyncedBlocks (syncedBlocks : gmap Z SyncedBlockInfo.t)
  : gmap Z SyncedBlockInfo.t :=
  let sortedHeights := sort_heights (map_to_list syncedBlocks).*1 in
  fold_left (fun blocks height => delete height blocks)
    (skipn 1000 sortedHeights) syncedBlocks.

End Processing.

(** ** Hex strings as [bytesToHex] writes them *)
Module Hex.

(** One of the characters [0-9a-f]. *)
Definition lower_digit (c : ascii) : bool :=
  existsb (Ascii.eqb c) (String.list_ascii_of_string "0123456789abcdef").

(** An even number of characters, all of them in [0-9a-f]. *)
Definition lower (s : string) : Prop :=
  Nat.even (String.length s) = true /\
  forallb lower_digit (String.list_ascii_of_string s) = true.

End Hex.

(** ** staking.js: the selectors of staking inputs *)
Module StakingInputs.
Import Staking.

(** [a !== b] on two [outputIndex?: number] fields, negated. *)
Definition same_index (a b : option Z) : bool :=
  match a, b with
  | Some x, Some y => x =? y
  | None, None => true
  | _, _ => false
  end.

(** Truthiness of an optional string: [undefined] and [''] are falsy. *)
Definition truthy_string (s : option string) : bool :=
  match s with
  | Some s => negb (String.eqb s "")
  | None => false
  end.

(** [output.outputIndex ?? 0] *)
Definition index_or_0 (o : WalletOutput.t) : Z :=
  match WalletOutput.outputIndex o with
  | Some i => i
  | None => 0
  end.

(** [findPreciseStakingOutputsTxHash(amount, outputs, currentHeight,
    currentFee, maturityBlocks)]; [None] is [null]. *)
Definition findPreciseStakingOutputsTxHash (amount : Z)
    (outputs : list WalletOutput.t)
    (currentHeight currentFee maturityBlocks : Z) : option string :=
  let matureHeight := currentHeight - maturityBlocks in
  let spendable := List.filter (spendable_filter matureHeight) outputs in
  match List.find (fun o => WalletOutput.amount o =? amount) spendable with
  | None => None
  | Some amountOutput =>
      let feeOutput :=
        List.find
          (fun o =>
             (WalletOutput.amount o =? currentFee)
             && String.eqb (WalletOutput.transactionHash o)
                  (WalletOutput.transactionHash amountOutput)
             && (WalletOutput.transactionIndex o
                 =? WalletOutput.transactionIndex amountOutput)
             && negb (same_index (WalletOutput.outputIndex o)
                        (WalletOutput.outputIndex amountOutput)))
          spendable in
      match feeOutput with
      | None => None
      | Some _ => Some (WalletOutput.transactionHash amountOutput)
      end
  end.

(** [pickStakingInputs(amount, outputs, currentHeight, publicKey,
    privateKey, currentFee, maturityBlocks, preparationTxHash)]; the
    result is [{ inputs, totalInput }], and [None] is [null]. *)
Definition pickStakingInputs (amount : Z) (outputs : list WalletOutput.t)
    (currentHeight : Z) (publicKey privateKey : string)
    (currentFee maturityBlocks : Z) (preparationTxHash : option string)
  : option (list SelectedInput * Z) :=
  let matureHeight := currentHeight - maturityBlocks in
  let spendable := List.filter (spendable_filter matureHeight) outputs in
  let filteredOutputs :=
    if truthy_string preparationTxHash then
      List.filter
        (fun o =>
           match preparationTxHash with
           | Some h => String.eqb (WalletOutput.transactionHash o) h
           | None => false
           end)
        spendable
    else spendable in
  match List.find (fun output => WalletOutput.amount output =? amount)
          filteredOutputs with
  | None => None
  | Some amountInput =>
      let feeInput :=
        List.find
          (fun output =>
             let amountMatch := WalletOutput.amount output =? currentFee in
             let notAmountMatch := negb (WalletOutput.amount output =? amount) in
             let hashDifferent :=
               negb (String.eqb (WalletOutput.transactionHash output)
                       (WalletOutput.transactionHash amountInput)) in
             let indexDifferent :=
               negb (WalletOutput.transactionIndex output
                     =? WalletOutput.transactionIndex amountInput) in
             amountMatch && notAmountMatch && (hashDifferent || indexDifferent))
          filteredOutputs in
      match feeInput with
      | None => None
      | Some feeInput =>
          let amountOutputIndex := index_or_0 amountInput in
          let feeOutputIndex := index_or_0 feeInput in
          let inputs :=
            [ mkSelectedInput amountInput
                (WalletOutput.transactionHash amountInput) amountOutputIndex
                publicKey privateKey;
              mkSelectedInput feeInput
                (WalletOutput.transactionHash feeInput) feeOutputIndex
                publicKey privateKey ] in
          Some (inputs, amount + currentFee)
      end
  end.

End StakingInputs.

(** ** transaction.ts: the transaction picker *)
Module TransactionPicker.
Import Staking.

Definition DEFAULT_FEE : Z := 1000.

Record TransactionDestination : Type := mkDestination {
  address : string;
  dest_amount : Z
}.

Record TransactionPickResult : Type := mkPickResult {
  inputs : list SelectedInput;
  totalInput : Z;
  fee : Z;
  change : Z;
  destinations : list TransactionDestination
}.

(** The fields of a [TransactionPicker] the selection reads. *)
Record t : Type := mk {
  outputs : list WalletOutput.t;
  currentHeight : Z;
  maturityBlocks : Z;
  walletPublicKey : string;
  walletPrivateKey : string
}.

(** [isUnlockTimeMet(unlockTime)]; [now] is what
    [Math.floor(Date.now() / 1000)] reads. *)
Definition isUnlockTimeMet (now : Z) (picker : t) (unlockTime : Z) : bool :=
  if unlockTime =? 0 then true
  else if unlockTime <? Config.UNLOCK_TIME_TIMESTAMP_THRESHOLD then
    currentHeight picker >=? unlockTime
  else
    let currentTimestamp := now in
    currentTimestamp >=? unlockTime.

(** The filter of [getSpendableOutputs()]. *)
Definition spendable (now : Z) (picker : t) (o : WalletOutput.t) : bool :=
  let matureHeight :=
    JS.number_sub (currentHeight picker) (maturityBlocks picker) in
  let isUnspent := negb (JS.truthy (WalletOutput.spentHeight o)) in
  let isMature := WalletOutput.blockHeight o <=? matureHeight in
  let unlockTimeMet := isUnlockTimeMet now picker (WalletOutput.unlockTime o) in
  isUnspent && isMature && unlockTimeMet.

Definition getSpendableOutputs (now : Z) (picker : t) : list WalletOutput.t :=
  List.filter (spendable now picker) (outputs picker).

(** The selection loop of [pickInputs]:
    [for (const output of sorted) { selected.push(...);
    totalInput += output.amount;
    if (totalInput >= targetAmount + fee) break; }]; the sums are sums
    of Numbers. *)
Fixpoint pickInputs_loop (picker : t) (sorted : list WalletOutput.t)
    (selected : list SelectedInput) (totalInput targetAmount fee : Z)
  : list SelectedInput * Z :=
  match sorted with
  | [] => (selected, totalInput)
  | output :: rest =>
      let outputIndex :=
        match WalletOutput.outputIndex output with
        | Some i => i
        | None => 0
        end in
      let selected :=
        selected ++
        [mkSelectedInput output (WalletOutput.transactionHash output)
           outputIndex (walletPublicKey picker) (walletPrivateKey picker)] in
      let totalInput := JS.number_add totalInput (WalletOutput.amount output) in
      if totalInput >=? JS.number_add targetAmount fee then
        (selected, totalInput)
      else pickInputs_loop picker rest selected totalInput targetAmount fee
  end.

(** [pickInputs(targetAmount, fee)]; [None] is [null]. *)
Definition pickInputs (now : Z) (picker : t) (targetAmount fee : Z)
  : option TransactionPickResult :=
  let spendable := getSpendableOutputs now picker in
  if (length spendable =? 0)%nat then None
  else
    let sorted := sort_desc spendable in
    let '(selected, totalInput) :=
      pickInputs_loop picker sorted [] 0 targetAmount fee in
    let needed := JS.number_add targetAmount fee in
    if totalInput <? needed then None
    else
      let change :=
        JS.number_sub (JS.number_sub totalInput targetAmount) fee in
      Some (mkPickResult selected totalInput fee change []).

(** [pickInputsForDestinations(destinations, fee)] *)
Definition pickInputsForDestinations (now : Z) (picker : t)
    (destinations : list TransactionDestination) (fee : Z)
  : option TransactionPickResult :=
  let totalOutput :=
    fold_left (fun sum d => JS.number_add sum (dest_amount d))
      destinations 0 in
  match pickInputs now picker totalOutput fee with
  | Some (mkPickResult inputs totalInput resultFee change _) =>
      Some (mkPickResult inputs totalInput resultFee change destinations)
  | None => None
  end.

End TransactionPicker.

(** ** Notions used to state what the selections achieve *)
Module Selection.

(** Amounts in decreasing order, equal amounts allowed. *)
Fixpoint descending (l : list WalletOutput.t) : Prop :=
  match l with
  | [] => True
  | o :: rest =>
      (forall x, In x rest -> WalletOutput.amount x <= WalletOutput.amount o)
      /\ descending rest
  end.

(** Amounts that are not negative and add up to at most [2^53]: the
    Number sums of any of them are exact. *)
Definition exact_amounts (l : list WalletOutput.t) : Prop :=
  Forall (fun o => 0 <= WalletOutput.amount o) l
  /\ Balance.sum_amounts l <= 2 ^ 53.

(** The input a selection loop makes of an output. *)
Definition selected (publicKey privateKey : string) (o : WalletOutput.t)
  : Staking.SelectedInput :=
  Staking.mkSelectedInput o (WalletOutput.transactionHash o)
    (match WalletOutput.outputIndex o with Some i => i | None => 0 end)
    publicKey privateKey.

End Selection.

(** ** index.ts, transaction.ts: Base58 in blocks *)
Module Base58.

Definition BASE58_ALPHABET : string :=
  "123456789ABCDEFGHJKLMNPQRSTUVWXYZabcdefghijkmnopqrstuvwxyz".

(** [BASE58_ALPHABET[i]]: a string of one character, or [undefined], which
    [join] writes as the empty string. *)
Definition alphabet_at (i : Z) : string :=
  if i <? 0 then EmptyString
  else
    match String.get (Z.to_nat i) BASE58_ALPHABET with
    | Some c => String c EmptyString
    | None => EmptyString
    end.

(** [BASE58_MAP], filled by
    [for (i ...) BASE58_MAP[BASE58_ALPHABET[i]] = i]. *)
Definition BASE58_MAP : gmap ascii Z :=
  fold_left
    (fun m i =>
       match String.get i BASE58_ALPHABET with
       | Some c => <[c := Z.of_nat i]> m
       | None => m
       end)
    (seq 0 (String.length BASE58_ALPHABET)) ∅.

Definition ENCODED_BLOCK_SIZES : list nat := [0; 2; 3; 5; 6; 7; 9; 10; 11]%nat.
Definition FULL_BLOCK_SIZE : nat := 8.
Definition FULL_ENCODED_BLOCK_SIZE : nat := 11.

(** [ENCODED_BLOCK_SIZES[i]]; the code reads it at [i <= 8] only. *)
Definition encoded_size (i : nat) : nat := nth i ENCODED_BLOCK_SIZES 0%nat.

(** [DECODED_BLOCK_SIZES], filled by
    [for (i = 0; i <= FULL_BLOCK_SIZE; i++)
       DECODED_BLOCK_SIZES[ENCODED_BLOCK_SIZES[i]] = i]. *)
Definition DECODED_BLOCK_SIZES : gmap nat nat :=
  fold_left (fun m i => <[encoded_size i := i]> m)
    (seq 0 (FULL_BLOCK_SIZE + 1)) ∅.

(** [uint8BeToBigInt(buffer, offset, size)]; [BigInt(undefined)] throws. *)
Definition uint8BeToBigInt (buffer : list Z) (offset size : nat) : option Z :=
  if (size <? 1)%nat || (8 <? size)%nat then None
  else
    fold_left
      (fun num i =>
         num ← num;
         let num := Z.shiftl num 8 in
         byte ← buffer !! (offset + i)%nat;
         Some (Z.lor num byte))
      (seq 0 size) (Some 0).

(** [a[i] = v] on a JS array of strings: a negative index names a
    property and leaves the elements alone; an index past the end extends
    the array with holes, which [join] writes as empty strings. *)
Definition array_set (a : list string) (i : Z) (v : string) : list string :=
  if i <? 0 then a
  else if i <? Z.of_nat (length a) then <[Z.to_nat i := v]> a
  else a ++ repeat EmptyString (Z.to_nat i - length a) ++ [v].

(** The loop [while (num > 0n) { remainder = num % 58n; num = num / 58n;
    result[resultStart + j] = BASE58_ALPHABET[Number(remainder)]; j--; }]. *)
Equations? encode_loop (num j resultStart : Z) (result : list string)
  : list string by wf (Z.to_nat (Z.log2 (2 * num))) lt :=
  encode_loop num j resultStart result with Z_lt_le_dec 0 num => {
    | left _ :=
        let remainder := Z.rem num 58 in
        encode_loop (Z.quot num 58) (j - 1) resultStart
          (array_set result (resultStart + j) (alphabet_at remainder));
    | right _ := result }.
Proof.
  rewrite Z.quot_div_nonneg by lia.
  assert (Hq : 0 <= num / 58) by (apply Z.div_pos; lia).
  assert (Hle : 2 * (num / 58) <= num).
  { pose proof (Z.mul_div_le num 58 ltac:(lia)). lia. }
  pose proof (Z.log2_nonneg (2 * (num / 58))).
  assert (Z.log2 (2 * (num / 58)) < Z.log2 (2 * num)); [|lia].
  rewrite (Z.log2_double num) by lia.
  pose proof (Z.log2_le_mono _ _ Hle). lia.
Qed.

(** One block of [base58Encode]: the number of [size] bytes at
    [blockStart], written from place [ENCODED_BLOCK_SIZES[size] - 1] of
    the block at [resultStart] down. *)
Definition encode_block (buffer : list Z) (blockStart resultStart size : nat)
    (result : list string) : option (list string) :=
  num ← uint8BeToBigInt buffer blockStart size;
  let j := Z.of_nat (encoded_size size) - 1 in
  Some (encode_loop num j (Z.of_nat resultStart) result).

(** [result.join('')] *)
Definition join (a : list string) : string :=
  fold_right String.append EmptyString a.

(** [base58Encode(buffer)] *)
Definition base58Encode (buffer : list Z) : option string :=
  if (length buffer =? 0)%nat then Some EmptyString
  else
    let fullBlockCount := Nat.div (length buffer) FULL_BLOCK_SIZE in
    let lastBlockSize := Nat.modulo (length buffer) FULL_BLOCK_SIZE in
    let resultSize :=
      (fullBlockCount * FULL_ENCODED_BLOCK_SIZE
       + encoded_size lastBlockSize)%nat in
    let result := repeat (alphabet_at 0) resultSize in
    result ←
      fold_left
        (fun result i =>
           result ← result;
           let blockStart := (i * FULL_BLOCK_SIZE)%nat in
           let resultStart := (i * FULL_ENCODED_BLOCK_SIZE)%nat in
           encode_block buffer blockStart resultStart FULL_BLOCK_SIZE result)
        (seq 0 fullBlockCount) (Some result);
    result ←
      (if (0 <? lastBlockSize)%nat then
         let blockStart := (fullBlockCount * FULL_BLOCK_SIZE)%nat in
         let resultStart := (fullBlockCount * FULL_ENCODED_BLOCK_SIZE)%nat in
         encode_block buffer blockStart resultStart lastBlockSize result
       else Some result);
    Some (join result).

(** The loop [for (j = block.length - 1; j >= 0; j--) { digit =
    BigInt(BASE58_MAP[block[j]]); num = num + order * digit;
    order = order * 58n; }]; a character outside the alphabet makes
    [BigInt(undefined)], which throws. *)
Definition block_number (block : list ascii) : option Z :=
  state ←
    fold_left
      (fun state j =>
         state ← state;
         let '(num, order) := state in
         c ← block !! j;
         digit ← BASE58_MAP !! c;
         Some (num + order * digit, order * 58))
      (rev (seq 0 (length block))) (Some (0, 1));
  Some (fst state).

(** The loop [for (j = size - 1; j >= 0; j--) { result[offset + j] =
    Number(num & 0xffn); num = num >> 8n; }] on the [Uint8Array]. *)
Definition write_block (result : list Z) (offset size : nat) (num : Z)
  : list Z :=
  fst (fold_left
         (fun state j =>
            let '(result, num) := state in
            (<[(offset + j)%nat := Z.land num 0xff]> result, Z.shiftr num 8))
         (rev (seq 0 size)) (result, num)).

(** [base58Decode(input)] *)
Definition base58Decode (input : string) : option (list Z) :=
  let input := String.list_ascii_of_string input in
  if (length input =? 0)%nat then Some []
  else
    let fullBlockCount := Nat.div (length input) FULL_ENCODED_BLOCK_SIZE in
    let lastBlockSize := Nat.modulo (length input) FULL_ENCODED_BLOCK_SIZE in
    totalDecodedSize ←
      (if (0 <? lastBlockSize)%nat then
         lastDecodedSize ← DECODED_BLOCK_SIZES !! lastBlockSize;
         Some (fullBlockCount * FULL_BLOCK_SIZE + lastDecodedSize)%nat
       else Some (fullBlockCount * FULL_BLOCK_SIZE)%nat);
    let result := Crypto.zeros totalDecodedSize in
    state ←
      fold_left
        (fun state i =>
           state ← state;
           let '(result, offset) := state in
           let blockStart := (i * FULL_ENCODED_BLOCK_SIZE)%nat in
           let block := take FULL_ENCODED_BLOCK_SIZE (drop blockStart input) in
           num ← block_number block;
           Some (write_block result offset FULL_BLOCK_SIZE num,
                 (offset + FULL_BLOCK_SIZE)%nat))
        (seq 0 fullBlockCount) (Some (result, 0%nat));
    let '(result, offset) := state in
    if (0 <? lastBlockSize)%nat then
      let blockStart := (fullBlockCount * FULL_ENCODED_BLOCK_SIZE)%nat in
      let block := drop blockStart input in
      decodedSize ← DECODED_BLOCK_SIZES !! lastBlockSize;
      num ← block_number block;
      Some (write_block result offset decodedSize num)
    else Some result.

(** The [width] base-58 digits of [num], the most significant first. *)
Fixpoint digits (width : nat) (num : Z) : list string :=
  match width with
  | O => []
  | S width => digits width (num / 58) ++ [alphabet_at (num mod 58)]
  end.

(** The [size] low bytes of [num], the most significant first. *)
Fixpoint be_bytes (size : nat) (num : Z) : list Z :=
  match size with
  | O => []
  | S size => be_bytes size (num / 256) ++ [num mod 256]
  end.

(** The number that bytes write, the most significant first. *)
Definition be_value (bytes : list Z) : Z :=
  fold_left (fun num byte => num * 256 + byte) bytes 0.

(** The string of one character. *)
Definition single (c : ascii) : string := String c EmptyString.

(** The digits of the [i]-th full block of a buffer. *)
Definition full_block (buffer : list Z) (i : nat) : list string :=
  digits FULL_ENCODED_BLOCK_SIZE
    (be_value (take FULL_BLOCK_SIZE (drop (i * FULL_BLOCK_SIZE) buffer))).

(** The digits of a buffer block by block: eleven for each eight bytes,
    and [ENCODED_BLOCK_SIZES[k]] for the [k] bytes left. *)
Definition encoded_blocks (buffer : list Z) : list string :=
  let fullBlockCount := Nat.div (length buffer) FULL_BLOCK_SIZE in
  let lastBlockSize := Nat.modulo (length buffer) FULL_BLOCK_SIZE in
  concat (map (full_block buffer) (seq 0 fullBlockCount))
  ++ digits (encoded_size lastBlockSize)
       (be_value (take lastBlockSize
                    (drop (fullBlockCount * FULL_BLOCK_SIZE) buffer))).

End Base58.

(** ** index.ts, transaction.ts: addresses *)
Module Address.

(** [config.ts] *)
Definition WALLET_ADDRESS_PREFIX : Z := 0x198004.
Definition WALLET_ADDRESS_PREFIX_STRING : string := "PAS".

Section Hash.
Context {keccak : Crypto.Keccak}.

(** [publicKeyToAddress(publicKeyBytes)] *)
Definition publicKeyToAddress (publicKeyBytes : list Z) : option string :=
  let prefixBytes := Wallet.encodeVarint WALLET_ADDRESS_PREFIX in
  let buffer := Crypto.zeros (length prefixBytes + length publicKeyBytes) in
  buffer ← Crypto.typed_set buffer prefixBytes 0;
  buffer ← Crypto.typed_set buffer publicKeyBytes (length prefixBytes);
  let hashHex := Crypto.keccak256 buffer in
  let hashBytes := Crypto.hexToBytes hashHex in
  let checksum := take 4 hashBytes in
  let finalBuffer := Crypto.zeros (length buffer + 4) in
  finalBuffer ← Crypto.typed_set finalBuffer buffer 0;
  finalBuffer ← Crypto.typed_set finalBuffer checksum (length buffer);
  Base58.base58Encode finalBuffer.

(** [publicKeyHexToAddress(publicKeyHex)] *)
Definition publicKeyHexToAddress (publicKeyHex : string) : option string :=
  let publicKeyBytes := Crypto.hexToBytes publicKeyHex in
  publicKeyToAddress publicKeyBytes.

End Hash.

(** [addressToPublicKey(address)] *)
Definition addressToPublicKey (address : string) : option string :=
  decoded ← Base58.base58Decode address;
  let '(prefixValue, prefixLength) := Transaction.decodeVarint decoded 0 in
  let publicKeyBytes :=
    take 32 (drop (Z.to_nat prefixLength) decoded) in
  let publicKeyHex := Crypto.bytesToHex publicKeyBytes in
  Some publicKeyHex.

End Address.

(** ** What a call comes to *)
Module Outcome.

(** A value, a thrown error, or a loop that the fuel given to it did not
    see end. *)
Inductive outcome (A : Type) : Type :=
| Value (a : A)
| Thrown
| Unfinished.
Arguments Value {A} a.
Arguments Thrown {A}.
Arguments Unfinished {A}.

#[export] Instance outcome_bind : MBind outcome := fun A B f m =>
  match m with
  | Value a => f a
  | Thrown => Thrown
  | Unfinished => Unfinished
  end.

(** A call that can throw. *)
Definition throws {A} (r : option A) : outcome A :=
  match r with
  | Some a => Value a
  | None => Thrown
  end.

(** A loop walked with fuel. *)
Definition loops {A} (r : option A) : outcome A :=
  match r with
  | Some a => Value a
  | None => Unfinished
  end.

(** [for (const a of l) parts.push(f(a))] *)
Fixpoint for_each {A B} (f : A -> outcome B) (l : list A) : outcome (list B) :=
  match l with
  | [] => Value []
  | a :: rest =>
      b ← f a;
      bs ← for_each f rest;
      Value (b :: bs)
  end.

(** What holds of a walk once it is given enough fuel. *)
Definition eventually (P : nat -> Prop) : Prop :=
  exists fuel0 : nat, forall fuel : nat, (fuel0 <= fuel)%nat -> P fuel.

End Outcome.

(** ** staking.js: the preparation transaction *)
Module StakingTransaction.
Import Staking Outcome.

(** [concatBytes(...arrays)] *)
Definition concatBytes (arrays : list (list Z)) : list Z := concat arrays.

(** The [writeVarint] closure of [createSerializationHelpers]; its loop is
    walked with [fuel]. *)
Definition writeVarint (fuel : nat) (value : Z) : outcome (list Z) :=
  loops (StakingCodec.writeVarint fuel value).

(** [serializeKeyInput(input)]; [hexToBytes] and [bytesToHex] of
    [staking.js] have the bodies of those of [crypto.js]. *)
Definition serializeKeyInput (fuel : nat) (input : SerializedKeyInput)
  : outcome (list Z) :=
  amount ← writeVarint fuel (in_amount input);
  count ← writeVarint fuel (Z.of_nat (length (in_outputIndexes input)));
  indexes ← for_each (writeVarint fuel) (in_outputIndexes input);
  let hashBytes := Crypto.hexToBytes (in_transactionHash input) in
  if negb (length hashBytes =? 32)%nat then Thrown
  else
    outputIndex ← writeVarint fuel (in_outputIndex input);
    Value (concatBytes ([amount; count] ++ indexes ++ [hashBytes; outputIndex])).

(** [serializeTransactionOutput(output)] *)
Definition serializeTransactionOutput (fuel : nat) (output : SerializedOutput)
  : outcome (list Z) :=
  amount ← writeVarint fuel (amount output);
  let keyBytes := Crypto.hexToBytes (key output) in
  if negb (length keyBytes =? 32)%nat then Thrown
  else Value (concatBytes [amount; [0x02]; keyBytes]).

(** [serializeTransactionPrefixWithCustomExtra(inputs, outputs, extraData,
    unlockTime, version)] *)
Definition serializeTransactionPrefixWithCustomExtra (fuel : nat)
    (inputs : list SerializedKeyInput) (outputs : list SerializedOutput)
    (extraData : list Z) (unlockTime version : Z) : outcome (list Z) :=
  version ← writeVarint fuel version;
  unlockTime ← writeVarint fuel unlockTime;
  inputCount ← writeVarint fuel (Z.of_nat (length inputs));
  inputParts ←
    for_each (fun input =>
                serialized ← serializeKeyInput fuel input;
                Value ([0x02] ++ serialized)) inputs;
  outputCount ← writeVarint fuel (Z.of_nat (length outputs));
  outputParts ← for_each (serializeTransactionOutput fuel) outputs;
  extraLength ← writeVarint fuel (Z.of_nat (length extraData));
  Value (concatBytes
           ([version; unlockTime; inputCount] ++ inputParts ++ [outputCount]
            ++ outputParts ++ [extraLength; extraData])).

(** [buildNormalExtra(publicKey)] *)
Definition buildNormalExtra (publicKey : string) : list Z :=
  0x01 :: Crypto.hexToBytes publicKey.

Section WithLibraries.
Context {keccak : Crypto.Keccak} {curve : Crypto.Ed25519}.

(** The loop [for (const input of inputs) signatures.push(
    generateSchnorrSignature(prefixHashBytes, input.publicKey,
    input.privateKey))]; [random i] is what [crypto.getRandomValues] writes
    at the call of number [i] of [randomScalar]. *)
Fixpoint sign_inputs (random : nat -> list Z) (prefixHashBytes : list Z)
    (inputs : list SelectedInput) (calls : nat) : outcome (list (list Z)) :=
  match inputs with
  | [] => Value []
  | input :: rest =>
      sig ← throws (Crypto.generateSchnorrSignature (random calls)
                      prefixHashBytes (publicKey input) (privateKey input));
      signatures ← sign_inputs random prefixHashBytes rest (S calls);
      Value (sig :: signatures)
  end.

(** [buildPreparationTransactionHex(amount, currentFee, inputs, outputKey,
    publicKey, privateKey)]; the sums are sums of Numbers, and [Value ""]
    is [return '']. *)
Definition buildPreparationTransactionHex (fuel : nat)
    (random : nat -> list Z) (amount currentFee : Z)
    (inputs : list SelectedInput) (outputKey publicKey privateKey : string)
  : outcome string :=
  let serializedInputs :=
    map (fun input =>
           mkSerializedKeyInput (WalletOutput.amount (output input))
             [outputIndex input] (transactionHash input) (outputIndex input)
             (Staking.publicKey input) (Staking.privateKey input)) inputs in
  let totalInput :=
    fold_left
      (fun sum input => JS.number_add sum (WalletOutput.amount (output input)))
      inputs 0 in
  let outputAmount1 := amount in
  let outputAmount2 := currentFee in
  let preparationTxFee := Config.MIN_FEE in
  let change :=
    JS.number_sub
      (JS.number_sub (JS.number_sub totalInput outputAmount1) outputAmount2)
      preparationTxFee in
  if change <? 0 then Value ""%string
  else
    let serializedOutputs :=
      [ mkSerializedOutput outputKey outputAmount1;
        mkSerializedOutput outputKey outputAmount2;
        mkSerializedOutput outputKey change ] in
    let extraData := buildNormalExtra publicKey in
    prefixBytes ←
      serializeTransactionPrefixWithCustomExtra fuel serializedInputs
        serializedOutputs extraData 0 1;
    let prefixHash := Crypto.keccak256 prefixBytes in
    let prefixHashBytes := Crypto.hexToBytes prefixHash in
    signatures ← sign_inputs random prefixHashBytes inputs 0;
    let txBytes := concatBytes (prefixBytes :: signatures) in
    Value (Crypto.bytesToHex txBytes).

(** [/^[0-9a-fA-F]$/] on one character. *)
Definition isHexDigit (c : ascii) : bool :=
  let n := Z.of_N (Ascii.N_of_ascii c) in
  ((48 <=? n) && (n <=? 57)) || ((97 <=? n) && (n <=? 102))
  || ((65 <=? n) && (n <=? 70)).

(** The output key of [prepareStakingOutputs]: the address itself when
    [address.length === 64 && /^[0-9a-fA-F]{64}$/.test(address)], and
    [addressToPublicKey(address)] otherwise. *)
Definition outputKey_of (address : string) : outcome string :=
  if (String.length address =? 64)%nat
     && forallb isHexDigit (String.list_ascii_of_string address)
  then Value address
  else throws (Address.addressToPublicKey address).

(** The three answers with [success: false]. *)
Inductive PrepareError : Type :=
| Insufficient_funds (totalNeeded totalInput : Z)
| Failed_to_build
| Caught.

(** What [prepareStakingOutputs] comes to before the network is asked:
    an answer with [success: false], or the call [sendTx(txHex, node)],
    whose answer makes the result. *)
Inductive PrepareResult : Type :=
| Failure (error : PrepareError)
| SendTx (txHex : string).

(** [prepareStakingOutputs(amount, address, outputs, publicKey, privateKey,
    currentHeight, node, maturityBlocks)] up to its call of [sendTx].  The
    body is inside [try { ... } catch], so a thrown error is the answer
    [Failure Caught]; [None] stands for a call that has not returned when
    the fuel is used up. *)
Definition prepareStakingOutputs (fuel : nat) (random : nat -> list Z)
    (amount : Z) (address : string) (outputs : list WalletOutput.t)
    (publicKey privateKey : string) (currentHeight maturityBlocks : Z)
  : option PrepareResult :=
  let currentFee := Config.MIN_FEE in
  let matureHeight := JS.number_sub currentHeight maturityBlocks in
  let spendable := List.filter (spendable_filter matureHeight) outputs in
  let txFee := currentFee in
  let totalNeeded := JS.number_add (JS.number_add amount currentFee) txFee in
  let sorted := sort_desc spendable in
  let '(selectedInputs, totalInput) :=
    select_inputs sorted [] 0 totalNeeded in
  if totalInput <? totalNeeded then
    Some (Failure (Insufficient_funds totalNeeded totalInput))
  else
    let inputs :=
      map (fun output =>
             mkSelectedInput output (WalletOutput.transactionHash output)
               (match WalletOutput.outputIndex output with
                | Some i => i
                | None => 0
                end) publicKey privateKey) selectedInputs in
    let result :=
      outputKey ← outputKey_of address;
      txHex ←
        buildPreparationTransactionHex fuel random amount currentFee inputs
          outputKey publicKey privateKey;
      if String.eqb txHex "" then Value (Failure Failed_to_build)
      else Value (SendTx txHex) in
    match result with
    | Value r => Some r
    | Thrown => Some (Failure Caught)
    | Unfinished => None
    end.

End WithLibraries.

End StakingTransaction.

(** ** The layout of a transaction *)
Module Layout.
Import Staking.

(** The bytes of a key input: amount, the count of output indexes and the
    indexes, the transaction hash and the output index. *)
Definition key_input (input : SerializedKeyInput) : list Z :=
  Transaction.writeVarint (in_amount input)
  ++ Transaction.writeVarint (Z.of_nat (length (in_outputIndexes input)))
  ++ flat_map Transaction.writeVarint (in_outputIndexes input)
  ++ Crypto.hexToBytes (in_transactionHash input)
  ++ Transaction.writeVarint (in_outputIndex input).

(** The bytes of an output: amount, the tag of a key output and the key. *)
Definition key_output (output : SerializedOutput) : list Z :=
  Transaction.writeVarint (amount output) ++ [0x02]
  ++ Crypto.hexToBytes (key output).

(** The bytes of a transaction prefix: version, unlock time, the inputs,
    each after the tag of a key input, the outputs and the extra field,
    the three of them after their count. *)
Definition prefix (inputs : list SerializedKeyInput)
    (outputs : list SerializedOutput) (extra : list Z)
    (unlockTime version : Z) : list Z :=
  Transaction.writeVarint version ++ Transaction.writeVarint unlockTime
  ++ Transaction.writeVarint (Z.of_nat (length inputs))
  ++ flat_map (fun input => [0x02] ++ key_input input) inputs
  ++ Transaction.writeVarint (Z.of_nat (length outputs))
  ++ flat_map key_output outputs
  ++ Transaction.writeVarint (Z.of_nat (length extra)) ++ extra.

(** The key input that spends an output with the keys of the wallet. *)
Definition spend (publicKey privateKey : string) (o : WalletOutput.t)
  : SerializedKeyInput :=
  let index :=
    match WalletOutput.outputIndex o with Some i => i | None => 0 end in
  mkSerializedKeyInput (WalletOutput.amount o) [index]
    (WalletOutput.transactionHash o) index publicKey privateKey.

(** The extra field that holds the transaction public key. *)
Definition extra (publicKey : string) : list Z :=
  0x01 :: Crypto.hexToBytes publicKey.

(** An output that the serializers accept as input: an output index
    that is not negative and a transaction hash of 64 characters. *)
Definition well_formed (o : WalletOutput.t) : Prop :=
  0 <= match WalletOutput.outputIndex o with Some i => i | None => 0 end
  /\ String.length (WalletOutput.transactionHash o) = 64%nat.

(** Random bytes that make a nonce the curve accepts: 64 bytes whose first
    half is not a multiple of [CURVE_ORDER]. *)
Definition nonce_bytes (randomBytes : list Z) : Prop :=
  Crypto.bytes randomBytes /\ length randomBytes = 64%nat
  /\ Crypto.le_value (firstn 32 randomBytes) mod Crypto.CURVE_ORDER <> 0.

Section WithLibraries.
Context {keccak : Crypto.Keccak} {curve : Crypto.Ed25519}.

(** A transaction: the prefix, then one signature of the hash of the
    prefix for each of its [n] inputs, the signature of input [i] made
    with the random bytes [random i]. *)
Definition signed (random : nat -> list Z) (prefix : list Z)
    (publicKey privateKey : string) (n : nat) : list Z :=
  prefix
  ++ concat
       (map (fun i =>
               Crypto.schnorr_signature (random i)
                 (Crypto.hexToBytes (Crypto.keccak256 prefix))
                 publicKey privateKey)
          (seq 0 n)).

End WithLibraries.

End Layout.

(** ** Inputs used in the examples of the preparation transaction *)
Module PreparationScenario.

Definition transaction_hash : string :=
  "aaaaaaaaaaaaaaaaaaaaaaaaaaaaaaaaaaaaaaaaaaaaaaaaaaaaaaaaaaaaaaaa".

(** A single UTXO of 10_000_000_000, output 0 of [transaction_hash],
    created at height 100. *)
Definition utxo : WalletOutput.t :=
  Scenario.output transaction_hash 0 10000000000 100 None.

(** Every call of [randomScalar] draws the bytes 1, 2, ..., 64. *)
Definition random (call : nat) : list Z := CryptoScenario.random_bytes.

(** The address of [CryptoScenario.public_key]. *)
Definition address : string :=
  "PAS19WwQtWj11111111111111111111111111111111111111Bo74H".

End PreparationScenario.

(** ** transaction.ts: the serializer *)
Module TransactionSerializer.
Import Staking.

Definition TAG_KEY_INPUT : Z := 0x02.
Definition TAG_KEY_OUTPUT : Z := 0x02.

(** [writeByte(value)] *)
Definition writeByte (value : Z) : list Z := [JS.and32 value 0xff].

(** [writeBytes(data)] on a string: the loop
    [bytes[i / 2] = parseInt(data.substr(i, 2), 16)] fills the
    [data.length / 2] bytes that [hexToBytes] fills. *)
Definition writeBytes (data : string) : list Z := Crypto.hexToBytes data.

(** [concatBytes(...arrays)] *)
Definition concatBytes (arrays : list (list Z)) : list Z := concat arrays.

(** [serializeKeyInput(input)]; [None] stands for a thrown error. *)
Definition serializeKeyInput (input : SerializedKeyInput) : option (list Z) :=
  let amountVarint := Transaction.writeVarint (in_amount input) in
  let countVarint :=
    Transaction.writeVarint (Z.of_nat (length (in_outputIndexes input))) in
  let indexVarints := map Transaction.writeVarint (in_outputIndexes input) in
  let hashBytes := writeBytes (in_transactionHash input) in
  if negb (length hashBytes =? 32)%nat then None
  else
    let outputIndexVarint := Transaction.writeVarint (in_outputIndex input) in
    Some (concatBytes
            ([amountVarint; countVarint] ++ indexVarints
             ++ [hashBytes; outputIndexVarint])).

(** [serializeKeyOutput(output)] *)
Definition serializeKeyOutput (output : SerializedOutput) : option (list Z) :=
  let keyBytes := writeBytes (key output) in
  if negb (length keyBytes =? 32)%nat then None
  else Some (concatBytes [keyBytes]).

(** [serializeTransactionOutput(output)] *)
Definition serializeTransactionOutput (output : SerializedOutput)
  : option (list Z) :=
  let amountVarint := Transaction.writeVarint (amount output) in
  keyOutput ← serializeKeyOutput output;
  Some (concatBytes [amountVarint; writeByte TAG_KEY_OUTPUT; keyOutput]).

(** [serializeExtra(publicKey)] *)
Definition serializeExtra (publicKey : string) : option (list Z) :=
  let keyBytes := writeBytes publicKey in
  if negb (length keyBytes =? 32)%nat then None
  else Some (concatBytes [writeByte 0x01; keyBytes]).

(** The loop over the inputs in [serializeTransactionPrefix]. *)
Fixpoint input_parts (inputs : list SerializedKeyInput)
  : option (list (list Z)) :=
  match inputs with
  | [] => Some []
  | input :: rest =>
      serialized ← serializeKeyInput input;
      parts ← input_parts rest;
      Some (writeByte TAG_KEY_INPUT :: serialized :: parts)
  end.

(** The loop over the outputs in [serializeTransactionPrefix]. *)
Fixpoint output_parts (outputs : list SerializedOutput)
  : option (list (list Z)) :=
  match outputs with
  | [] => Some []
  | output :: rest =>
      serialized ← serializeTransactionOutput output;
      parts ← output_parts rest;
      Some (serialized :: parts)
  end.

(** [serializeTransactionPrefix(inputs, outputs, publicKey, unlockTime,
    version)] *)
Definition serializeTransactionPrefix (inputs : list SerializedKeyInput)
    (outputs : list SerializedOutput) (publicKey : string)
    (unlockTime version : Z) : option (list Z) :=
  let versionVarint := Transaction.writeVarint version in
  let unlockVarint := Transaction.writeVarint unlockTime in
  let inputCountVarint := Transaction.writeVarint (Z.of_nat (length inputs)) in
  inputParts ← input_parts inputs;
  let outputCountVarint :=
    Transaction.writeVarint (Z.of_nat (length outputs)) in
  outputParts ← output_parts outputs;
  extraData ← serializeExtra publicKey;
  let extraLenVarint := Transaction.writeVarint (Z.of_nat (length extraData)) in
  Some (concatBytes
          ([versionVarint; unlockVarint; inputCountVarint] ++ inputParts
           ++ [outputCountVarint] ++ outputParts
           ++ [extraLenVarint; extraData])).

Section WithLibraries.
Context {keccak : Crypto.Keccak} {curve : Crypto.Ed25519}.

(** [computeHash(data)] *)
Definition computeHash (data : list Z) : option (list Z) :=
  let hash := Crypto.keccak256 data in
  let result := writeBytes hash in
  if negb (length result =? 32)%nat then None else Some result.

(** [generateSignature(prefixHash, publicKey, privateKey)], with the
    random bytes of the call of [randomScalar] it leads to. *)
Definition generateSignature (randomBytes prefixHash : list Z)
    (publicKey privateKey : string) : option (list Z) :=
  Crypto.generateSchnorrSignature randomBytes prefixHash publicKey privateKey.

(** The loop over the inputs in [serializeTransaction]; [random i] is
    what [crypto.getRandomValues] writes at the call of number [i] of
    [randomScalar]. *)
Fixpoint signature_parts (random : nat -> list Z) (prefixHash : list Z)
    (inputs : list SerializedKeyInput) (calls : nat)
  : option (list (list Z)) :=
  match inputs with
  | [] => Some []
  | input :: rest =>
      signature ←
        generateSignature (random calls) prefixHash (in_publicKey input)
          (in_privateKey input);
      parts ← signature_parts random prefixHash rest (S calls);
      Some (signature :: parts)
  end.

(** [serializeTransaction(inputs, outputs, publicKey, unlockTime,
    version)] *)
Definition serializeTransaction (random : nat -> list Z)
    (inputs : list SerializedKeyInput) (outputs : list SerializedOutput)
    (publicKey : string) (unlockTime version : Z) : option (list Z) :=
  prefixBytes ←
    serializeTransactionPrefix inputs outputs publicKey unlockTime version;
  prefixHash ← computeHash prefixBytes;
  signatures ← signature_parts random prefixHash inputs 0;
  Some (concatBytes (prefixBytes :: signatures)).

End WithLibraries.

End TransactionSerializer.

(** ** transaction.ts: building a transaction *)
Module TransactionBuilder.
Import Staking TransactionPicker.

Record BuiltTransaction : Type := mkBuilt {
  built_txHex : string;
  built_hash : string;
  built_inputs : list SerializedKeyInput;
  built_outputs : list SerializedOutput;
  built_fee : Z
}.

(** The key of a destination in [buildTransaction]:
    [addressToPublicKey(dest.address)] when the address starts with
    [WALLET_ADDRESS_PREFIX_STRING], and the address itself otherwise. *)
Definition destination_key (address : string) : option string :=
  if String.prefix Address.WALLET_ADDRESS_PREFIX_STRING address
  then Address.addressToPublicKey address
  else Some address.

(** The loop over [pickResult.destinations] in [buildTransaction]. *)
Fixpoint destination_outputs (destinations : list TransactionDestination)
    (outputs : list SerializedOutput) : option (list SerializedOutput) :=
  match destinations with
  | [] => Some outputs
  | dest :: rest =>
      key ← destination_key (address dest);
      destination_outputs rest
        (outputs ++ [mkSerializedOutput key (dest_amount dest)])
  end.

(** The 64 hex digits of a number below [16^64], leading zeros included. *)
Fixpoint hex_digits (width : nat) (value : Z) : string :=
  match width with
  | O => EmptyString
  | S width =>
      String.append (hex_digits width (value / 16))
        (String (Crypto.hexDigit (value mod 16)) EmptyString)
  end.

(** [calculateHash(data)]: the loop
    [hash = ((hash << 5) - hash) + char; hash = hash & hash] over the
    characters, then [Math.abs(hash).toString(16).padStart(64, '0')];
    the number has at most 8 hex digits. *)
Definition calculateHash (data : string) : string :=
  let hash :=
    fold_left
      (fun hash c =>
         let char := Z.of_N (Ascii.N_of_ascii c) in
         let hash :=
           JS.number_add (JS.number_sub (JS.shl32 hash 5) hash) char in
         JS.and32 hash hash)
      (String.list_ascii_of_string data) 0 in
  hex_digits 64 (Z.abs hash).

Section WithLibraries.
Context {keccak : Crypto.Keccak} {curve : Crypto.Ed25519}.

(** [buildTransaction(pickResult, publicKey)]; [None] stands for a thrown
    error. *)
Definition buildTransaction (random : nat -> list Z)
    (pickResult : TransactionPickResult) (publicKey : string)
  : option BuiltTransaction :=
  let inputs :=
    map (fun selected =>
           mkSerializedKeyInput (WalletOutput.amount (output selected))
             [outputIndex selected] (transactionHash selected)
             (outputIndex selected) (Staking.publicKey selected)
             (privateKey selected))
      (TransactionPicker.inputs pickResult) in
  outputs ← destination_outputs (destinations pickResult) [];
  let outputs :=
    if 0 <? change pickResult then
      outputs ++ [mkSerializedOutput publicKey (change pickResult)]
    else outputs in
  txBytes ←
    TransactionSerializer.serializeTransaction random inputs outputs
      publicKey 0 1;
  let txHex := Crypto.bytesToHex txBytes in
  let hash := calculateHash txHex in
  Some (mkBuilt txHex hash inputs outputs (fee pickResult)).

(** [createTransaction(outputs, destinations, publicKey, privateKey,
    currentHeight, node, maturityBlocks, fee)]; [Some None] is [null] and
    [None] a thrown error. *)
Definition createTransaction (now : Z) (random : nat -> list Z)
    (outputs : list WalletOutput.t)
    (destinations : list TransactionDestination)
    (publicKey privateKey : string) (currentHeight maturityBlocks fee : Z)
  : option (option BuiltTransaction) :=
  let picker :=
    TransactionPicker.mk outputs currentHeight maturityBlocks
      publicKey privateKey in
  match pickInputsForDestinations now picker destinations fee with
  | None => Some None
  | Some pickResult =>
      builtTx ← buildTransaction random pickResult publicKey;
      Some (Some builtTx)
  end.

End WithLibraries.

(** The amounts a transaction spends and the amounts it pays, as
    integers. *)
Definition input_total (inputs : list SerializedKeyInput) : Z :=
  fold_right (fun input sum => in_amount input + sum) 0 inputs.

Definition output_total (outputs : list SerializedOutput) : Z :=
  fold_right (fun output sum => amount output + sum) 0 outputs.


End TransactionBuilder.

(** ** Inputs used in the examples of the builder *)
Module BuilderScenario.
Import TransactionBuilder.

(** The transaction built to pay 5_000_000_000 to
    [PreparationScenario.address] from [PreparationScenario.utxo] with a
    fee of 1000, with Keccak-256 and the group [ScalarGroup]. *)
Definition built : BuiltTransaction :=
  Eval vm_compute in
    match
      @createTransaction Keccak256.keccak ScalarGroup.curve 0
        PreparationScenario.random [PreparationScenario.utxo]
        [TransactionPicker.mkDestination PreparationScenario.address
           5000000000]
        CryptoScenario.public_key CryptoScenario.private_key 200 10 1000
    with
    | Some (Some built) => built
    | _ => mkBuilt "" "" [] [] 0
    end.

End BuilderScenario.
(* ===================================================================== *)
(** * Part II: properties                                                 *)
(* ===================================================================== *)

(** ** The varint writers and the decoder *)
Module VarintFacts.
Import Transaction.

(** Induction on a non-negative integer [n] with the hypothesis [IH] for
    all smaller ones; [Hn] bounds [n] from below. *)
Ltac induction_below n Hn IH :=
  generalize Hn; pattern n; apply Z_lt_induction; [|lia];
  clear n Hn; intros n IH Hn.

Lemma land_mask (r : Z) : 0 <= r -> Z.land r 0x7f = r mod 128.
Proof. intros. change 0x7f with (Z.ones 7). rewrite Z.land_ones by lia. reflexivity. Qed.

Lemma lor_continuation (x : Z) : 0 <= x < 128 -> Z.lor x 0x80 = x + 128.
Proof.
  intros Hx. rewrite <- Z.lxor_lor, <- Z.add_nocarry_lxor; try reflexivity.
  all: rewrite <- (Z.mod_small x 128) by lia; change 128 with (2 ^ 7) at 1;
    rewrite <- Z.land_ones by lia; rewrite <- Z.land_assoc; apply Z.land_0_r.
Qed.

Lemma writeVarint_loop_ge (r : Z) (bs : list Z) :
  128 <= r ->
  writeVarint_loop r bs =
  writeVarint_loop (Z.shiftr r 7) (bs ++ [Z.lor (Z.land r mask) continuation]).
Proof.
  intros Hr. rewrite writeVarint_loop_equation_1 at 1.
  destruct (Z_le_gt_dec threshold r) as [Hle|Hgt]; [|unfold threshold in Hgt; lia].
  reflexivity.
Qed.

Lemma writeVarint_loop_lt (r : Z) (bs : list Z) :
  r < 128 -> writeVarint_loop r bs = (r, bs).
Proof.
  intros Hr. rewrite writeVarint_loop_equation_1.
  destruct (Z_le_gt_dec threshold r) as [Hle|Hgt]; [unfold threshold in Hle; lia|].
  reflexivity.
Qed.

Lemma shiftr7_lt (r : Z) : 128 <= r -> 0 <= Z.shiftr r 7 < r.
Proof.
  intros Hr. rewrite Z.shiftr_div_pow2 by lia. split.
  - apply Z.div_pos; lia.
  - apply Z.div_lt; lia.
Qed.

Lemma writeVarint_loop_acc (r : Z) (bs pre : list Z) :
  writeVarint_loop r (pre ++ bs) =
  (fst (writeVarint_loop r bs), pre ++ snd (writeVarint_loop r bs)).
Proof.
  destruct (Z_lt_le_dec r 128) as [Hlt|Hge].
  { rewrite !writeVarint_loop_lt by lia. reflexivity. }
  assert (H0 : 0 <= r) by lia. clear Hge. revert bs pre.
  pattern r. apply Z_lt_induction; [|assumption]. clear r H0.
  intros r IH bs pre.
  destruct (Z_lt_le_dec r 128) as [Hlt|Hge].
  - rewrite !writeVarint_loop_lt by lia. reflexivity.
  - rewrite (writeVarint_loop_ge r bs), (writeVarint_loop_ge r (pre ++ bs)) by lia.
    rewrite <- app_assoc.
    apply (IH (Z.shiftr r 7) (shiftr7_lt r Hge) (bs ++ [_]) pre).
Qed.

Lemma writeVarint_small (r : Z) :
  r < 128 -> writeVarint r = [Z.land r mask].
Proof.
  intros Hr. unfold writeVarint. rewrite writeVarint_loop_lt by lia. reflexivity.
Qed.

Lemma writeVarint_large (r : Z) :
  128 <= r ->
  writeVarint r = Z.lor (Z.land r mask) continuation :: writeVarint (Z.shiftr r 7).
Proof.
  intros Hr. unfold writeVarint at 1. rewrite writeVarint_loop_ge by lia.
  change ([] ++ [?x]) with ([x] ++ @nil Z).
  rewrite (writeVarint_loop_acc (Z.shiftr r 7) [] [_]).
  unfold writeVarint. destruct (writeVarint_loop (Z.shiftr r 7) []) as [r' bs'].
  reflexivity.
Qed.

Lemma writeVarint_head (r : Z) :
  128 <= r -> Z.lor (Z.land r mask) continuation = r mod 128 + 128.
Proof.
  intros Hr. unfold mask, continuation. rewrite land_mask by lia.
  apply lor_continuation. apply Z.mod_pos_bound. lia.
Qed.

Lemma writeVarint_nonempty (n : Z) : writeVarint n <> [].
Proof.
  destruct (Z_lt_le_dec n 128).
  - rewrite writeVarint_small by lia. discriminate.
  - rewrite writeVarint_large by lia. discriminate.
Qed.

Lemma framed_cons (b : Z) (rest : list Z) :
  rest <> [] ->
  Varint.framed (b :: rest) = (128 <=? b) && (b <? 256) && Varint.framed rest.
Proof. destruct rest; [congruence|reflexivity]. Qed.

Lemma writeVarint_framed (n : Z) : 0 <= n -> Varint.framed (writeVarint n) = true.
Proof.
  intros Hn. pattern n. apply Z_lt_induction; [|assumption]. clear n Hn.
  intros n IH. destruct (Z_lt_le_dec n 128) as [Hlt|Hge].
  - destruct (Z_lt_le_dec n 0) as [Hneg|Hpos].
    + rewrite writeVarint_small by lia. unfold mask. simpl.
      pose proof (Z.land_nonneg n 0x7f) as [_ Hl].
      assert (0 <= Z.land n 127) by (apply Hl; right; lia).
      assert (Z.land n 127 <= 127).
      { change 127 with (Z.ones 7) at 1. rewrite Z.land_ones by lia.
        pose proof (Z.mod_pos_bound n (2 ^ 7)). lia. }
      lia.
    + rewrite writeVarint_small by lia. unfold mask. rewrite land_mask by lia.
      rewrite Z.mod_small by lia. simpl. lia.
  - rewrite writeVarint_large by lia. rewrite writeVarint_head by lia.
    rewrite framed_cons by apply writeVarint_nonempty.
    rewrite (IH (Z.shiftr n 7)) by (apply shiftr7_lt; lia).
    pose proof (Z.mod_pos_bound n 128). lia.
Qed.

Lemma writeVarint_value (n : Z) : 0 <= n -> Varint.value (writeVarint n) = n.
Proof.
  intros Hn. induction_below n Hn IH. destruct (Z_lt_le_dec n 128) as [Hlt|Hge].
  - rewrite writeVarint_small by lia. unfold mask.
    rewrite land_mask, Z.mod_small by lia. cbn [Varint.value].
    rewrite land_mask, Z.mod_small by lia. lia.
  - rewrite writeVarint_large by lia. rewrite writeVarint_head by lia.
    cbn [Varint.value]. pose proof (shiftr7_lt n Hge) as Hs.
    rewrite (IH (Z.shiftr n 7)) by lia.
    pose proof (Z.mod_pos_bound n 128).
    rewrite land_mask by lia.
    replace ((n mod 128 + 128) mod 128) with (n mod 128).
    + rewrite Z.shiftr_div_pow2 by lia. change (2 ^ 7) with 128.
      pose proof (Z.div_mod n 128). lia.
    + replace (n mod 128 + 128) with (n mod 128 + 1 * 128) by lia.
      rewrite Z_mod_plus_full. rewrite Z.mod_mod by lia. reflexivity.
Qed.

Lemma writeVarint_last (n : Z) : 1 <= n -> List.last (writeVarint n) 0 <> 0.
Proof.
  intros Hn. induction_below n Hn IH. destruct (Z_lt_le_dec n 128) as [Hlt|Hge].
  - rewrite writeVarint_small by lia. unfold mask. rewrite land_mask by lia.
    rewrite Z.mod_small by lia. simpl. lia.
  - rewrite writeVarint_large by lia.
    pose proof (writeVarint_nonempty (Z.shiftr n 7)) as Hne.
    pose proof (shiftr7_lt n Hge) as Hs.
    assert (1 <= Z.shiftr n 7).
    { rewrite Z.shiftr_div_pow2 by lia. change (2 ^ 7) with 128.
      apply Z.div_le_lower_bound; lia. }
    specialize (IH (Z.shiftr n 7) ltac:(lia) ltac:(lia)).
    destruct (writeVarint (Z.shiftr n 7)) as [|b rest]; [congruence|].
    exact IH.
Qed.

Lemma writeVarint_no_trailing_zero (n : Z) :
  0 <= n -> Varint.no_trailing_zero (writeVarint n).
Proof.
  intros Hn. destruct (Z.eq_dec n 0) as [->|Hnz].
  - left. reflexivity.
  - right. apply writeVarint_last. lia.
Qed.

Lemma framed_value_nonneg (bs : list Z) : 0 <= Varint.value bs.
Proof.
  induction bs as [|b rest IH]; simpl; [lia|].
  assert (0 <= Z.land b 127) by (apply Z.land_nonneg; right; lia). lia.
Qed.

Lemma land_mask_bound (b : Z) : 0 <= Z.land b 0x7f < 128.
Proof.
  change 0x7f with (Z.ones 7). rewrite Z.land_ones by lia.
  apply Z.mod_pos_bound. lia.
Qed.

(** Any framed byte sequence standing for [n] is at least as long as
    [writeVarint n]. *)
Lemma writeVarint_shortest (bs : list Z) :
  Varint.framed bs = true ->
  (length (writeVarint (Varint.value bs)) <= length bs)%nat.
Proof.
  induction bs as [|b rest IH]; [discriminate|]. intros Hf.
  destruct rest as [|b' rest'].
  - simpl in Hf. simpl Varint.value.
    pose proof (land_mask_bound b).
    rewrite writeVarint_small by lia. simpl. lia.
  - rewrite framed_cons in Hf by discriminate.
    apply andb_true_iff in Hf as [_ Hf]. specialize (IH Hf).
    remember (b' :: rest') as rest eqn:Hrest.
    simpl Varint.value. pose proof (land_mask_bound b) as Hb.
    pose proof (framed_value_nonneg rest) as Hv.
    destruct (Z_lt_le_dec (Z.land b 127 + 128 * Varint.value rest) 128) as [Hlt|Hge].
    + rewrite writeVarint_small by lia. simpl. lia.
    + rewrite writeVarint_large by lia. simpl.
      replace (Z.shiftr (Z.land b 127 + 128 * Varint.value rest) 7)
        with (Varint.value rest); [lia|].
      rewrite Z.shiftr_div_pow2 by lia. change (2 ^ 7) with 128.
      apply Z.div_unique with (r := Z.land b 127); lia.
Qed.

(** A canonical encoding is unique: it is the one [writeVarint] produces. *)
Lemma canonical_unique (bs : list Z) (n : Z) :
  Varint.canonical n bs -> bs = writeVarint n.
Proof.
  intros (Hf & Hv & Hz). subst n. revert Hf Hz.
  induction bs as [|b rest IH]; [discriminate|]. intros Hf Hz.
  destruct rest as [|b' rest'].
  - simpl in Hf. simpl Varint.value.
    apply andb_true_iff in Hf as [H1 H2].
    rewrite land_mask by lia. rewrite Z.mod_small by lia.
    rewrite writeVarint_small by lia. unfold mask.
    rewrite land_mask by lia. rewrite Z.mod_small by lia. f_equal. lia.
  - rewrite framed_cons in Hf by discriminate.
    apply andb_true_iff in Hf as [Hb Hf].
    apply andb_true_iff in Hb as [Hb1 Hb2].
    assert (Hz' : Varint.no_trailing_zero (b' :: rest')).
    { destruct Hz as [Hz|Hz]; [simpl in Hz; lia|]. right. exact Hz. }
    specialize (IH Hf Hz').
    remember (b' :: rest') as rest eqn:Hrest.
    simpl Varint.value. pose proof (land_mask_bound b) as Hb.
    pose proof (framed_value_nonneg rest) as Hv.
    assert (Hpos : 1 <= Varint.value rest).
    { destruct (Z.eq_dec (Varint.value rest) 0) as [H0|]; [|lia].
      (* then [rest] is the single byte 0, a trailing zero group *)
      exfalso. rewrite H0, writeVarint_small in IH by lia.
      rewrite IH in Hz. destruct Hz as [Hz|Hz]; [simpl in Hz; lia|].
      apply Hz. reflexivity. }
    rewrite writeVarint_large by lia.
    replace (Z.shiftr (Z.land b 127 + 128 * Varint.value rest) 7)
      with (Varint.value rest).
    + rewrite <- IH. f_equal. rewrite writeVarint_head by lia.
      rewrite land_mask by lia.
      replace ((b mod 128 + 128 * Varint.value rest) mod 128) with (b mod 128).
      * pose proof (Z.div_mod b 128). assert (b / 128 = 1); [|lia].
        symmetry. apply Z.div_unique with (r := b - 128); lia.
      * replace (b mod 128 + 128 * Varint.value rest)
          with (b mod 128 + Varint.value rest * 128) by lia.
        rewrite Z_mod_plus_full, Z.mod_mod by lia. reflexivity.
    + rewrite Z.shiftr_div_pow2 by lia. change (2 ^ 7) with 128.
      apply Z.div_unique with (r := Z.land b 127); lia.
Qed.

(** *** Decoding with 32-bit operations *)

Lemma to_int32_small (z : Z) : - 2 ^ 31 <= z < 2 ^ 31 -> JS.to_int32 z = z.
Proof. intros Hz. unfold JS.to_int32. rewrite Z.mod_small by lia. lia. Qed.

(** A check on every byte value carries over to all bytes. *)
Lemma byte_forall (P : Z -> bool) :
  forallb P (map Z.of_nat (seq 0 256)) = true ->
  forall b, 0 <= b < 256 -> P b = true.
Proof.
  intros Hall b Hb. rewrite forallb_forall in Hall. apply Hall.
  apply in_map_iff. exists (Z.to_nat b). split; [lia|].
  apply in_seq. lia.
Qed.

Lemma and32_mask (b : Z) : 0 <= b < 256 -> JS.and32 b 0x7f = b mod 128.
Proof.
  intros Hb. apply Z.eqb_eq.
  apply (byte_forall (fun b => JS.and32 b 0x7f =? b mod 128)); [|assumption].
  vm_compute. reflexivity.
Qed.

Lemma and32_continuation (b : Z) :
  0 <= b < 256 -> (JS.and32 b 0x80 =? 0) = (b <? 128).
Proof.
  intros Hb. apply Bool.eqb_prop.
  apply (byte_forall (fun b => Bool.eqb (JS.and32 b 0x80 =? 0) (b <? 128)));
    [|assumption].
  vm_compute. reflexivity.
Qed.

Lemma lor_shifted (v a s : Z) :
  0 <= s -> 0 <= v < 2 ^ s -> Z.lor v (a * 2 ^ s) = v + a * 2 ^ s.
Proof.
  intros Hs Hv. rewrite <- Z.lxor_lor, <- Z.add_nocarry_lxor; try reflexivity.
  all: rewrite <- Z.shiftl_mul_pow2 by lia; apply Z.bits_inj'; intros i Hi;
    rewrite Z.land_spec, Z.bits_0;
    destruct (Z_lt_le_dec i s);
    [rewrite Z.shiftl_spec_low by lia; apply andb_false_r
    |rewrite <- (Z.mod_small v (2 ^ s)) by lia;
     rewrite Z.mod_pow2_bits_high by lia; reflexivity].
Qed.

Lemma shl32_small (a s : Z) :
  0 <= a -> 0 <= s < 32 -> a * 2 ^ s < 2 ^ 31 -> JS.shl32 a s = a * 2 ^ s.
Proof.
  intros Ha Hs Hlt. unfold JS.shl32.
  assert (0 < 2 ^ s) by (apply Z.pow_pos_nonneg; lia).
  assert (a < 2 ^ 31) by nia.
  rewrite (to_int32_small a) by lia. rewrite Z.mod_small by lia.
  rewrite Z.shiftl_mul_pow2 by lia. apply to_int32_small. nia.
Qed.

Lemma or32_shifted (v a s : Z) :
  0 <= s -> 0 <= v < 2 ^ s -> 0 <= a -> a * 2 ^ s < 2 ^ 31 -> v < 2 ^ 31 ->
  JS.or32 v (a * 2 ^ s) = v + a * 2 ^ s.
Proof.
  intros Hs Hv Ha Hlt Hv31. unfold JS.or32.
  assert (0 < 2 ^ s) by (apply Z.pow_pos_nonneg; lia).
  rewrite !to_int32_small by nia. apply lor_shifted; assumption.
Qed.

Lemma decodeVarint_loop_writeVarint (n : Z) :
  0 <= n ->
  forall value shift bytesRead rest,
    0 <= shift < 32 -> 0 <= value < 2 ^ shift -> n * 2 ^ shift < 2 ^ 31 ->
    decodeVarint_loop (writeVarint n ++ rest) value shift bytesRead =
    (value + n * 2 ^ shift, bytesRead + Z.of_nat (length (writeVarint n))).
Proof.
  intros Hn. induction_below n Hn IH.
  intros value shift bytesRead rest Hs Hv Hfit.
  assert (Hp : 0 < 2 ^ shift) by (apply Z.pow_pos_nonneg; lia).
  assert (Hv31 : value < 2 ^ 31).
  { assert (2 ^ shift <= 2 ^ 31) by (apply Z.pow_le_mono_r; lia). lia. }
  destruct (Z_lt_le_dec n 128) as [Hlt|Hge].
  - rewrite writeVarint_small by lia. unfold mask.
    rewrite land_mask, Z.mod_small by lia. cbn [app decodeVarint_loop length].
    rewrite and32_continuation by lia.
    replace (n <? 128) with true by (symmetry; apply Z.ltb_lt; lia).
    rewrite and32_mask, Z.mod_small by lia.
    rewrite shl32_small by lia. rewrite or32_shifted by lia.
    f_equal. 
  - rewrite writeVarint_large by lia. rewrite writeVarint_head by lia.
    pose proof (Z.mod_pos_bound n 128 ltac:(lia)) as Hm.
    pose proof (shiftr7_lt n Hge) as Hsh.
    pose proof (Z.div_mod n 128 ltac:(lia)) as Hdm.
    assert (Hq : Z.shiftr n 7 = n / 128)
      by (rewrite Z.shiftr_div_pow2 by lia; reflexivity).
    assert (Hs7 : shift + 7 < 32).
    { destruct (Z_lt_le_dec (shift + 7) 32) as [|Hbig]; [assumption|exfalso].
      assert (2 ^ 25 <= 2 ^ shift) by (apply Z.pow_le_mono_r; lia). nia. }
    assert (Hp7 : 2 ^ (shift + 7) = 128 * 2 ^ shift)
      by (rewrite Z.pow_add_r by lia; lia).
    cbn [app decodeVarint_loop length].
    rewrite and32_continuation by lia.
    replace (n mod 128 + 128 <? 128) with false by (symmetry; apply Z.ltb_ge; lia).
    rewrite and32_mask by lia.
    replace ((n mod 128 + 128) mod 128) with (n mod 128).
    2:{ replace (n mod 128 + 128) with (n mod 128 + 1 * 128) by lia.
        rewrite Z_mod_plus_full, Z.mod_mod by lia. reflexivity. }
    rewrite shl32_small by nia. rewrite or32_shifted by nia.
    rewrite (IH (Z.shiftr n 7)); try lia; try nia.
    f_equal; [rewrite Hq; nia | lia].
Qed.

Lemma decodeVarint_writeVarint (n : Z) :
  0 <= n < 2 ^ 31 ->
  decodeVarint (writeVarint n) 0 = (n, Z.of_nat (length (writeVarint n))).
Proof.
  intros Hn. unfold decodeVarint.
  pose proof (decodeVarint_loop_writeVarint n ltac:(lia) 0 0 0 []) as H.
  rewrite app_nil_r in H. rewrite drop_0.
  rewrite H by lia. f_equal; lia.
Qed.
Lemma writeVarint_canonical (n : Z) :
  0 <= n -> Varint.canonical n (writeVarint n).
Proof.
  intros Hn. repeat split.
  - apply writeVarint_framed. assumption.
  - apply writeVarint_value. assumption.
  - apply writeVarint_no_trailing_zero. assumption.
Qed.

(** C2, as amended.  For every [n >= 0], so for every u64, [writeVarint n]
    is the canonical base-128 little-endian encoding of [n]: the only one
    without a trailing zero group, and no framed encoding of [n] is shorter.
    [decodeVarint] gives [n] back, and the number of bytes written, for
    every [n < 2^31].  The vectors are those of S1, except that 518785 is
    encoded as [0x81, 0xD5, 0x1F]. *)
Theorem writeVarint_codec :
  (forall n, 0 <= n ->
     Varint.canonical n (writeVarint n) /\
     (forall bs, Varint.canonical n bs -> bs = writeVarint n) /\
     (forall bs, Varint.framed bs = true -> Varint.value bs = n ->
                 (length (writeVarint n) <= length bs)%nat)) /\
  (forall n, 0 <= n < 2 ^ 31 ->
     decodeVarint (writeVarint n) 0 = (n, Z.of_nat (length (writeVarint n)))) /\
  writeVarint 0 = [0x00] /\ writeVarint 127 = [0x7F] /\
  writeVarint 128 = [0x80; 0x01] /\
  writeVarint 518785 = [0x81; 0xD5; 0x1F] /\
  writeVarint 16383 = [0xFF; 0x7F].
Proof.
  split; [|split; [|repeat split]].
  - intros n Hn. split; [apply writeVarint_canonical; assumption|]. split.
    + intros bs. apply canonical_unique.
    + intros bs Hf <-. apply writeVarint_shortest. assumption.
  - apply decodeVarint_writeVarint.
Qed.

Lemma writeVarint_codec_example :
  Varint.canonical 300 (writeVarint 300) /\
  decodeVarint (writeVarint 300) 0 = (300, Z.of_nat (length (writeVarint 300))).
Proof.
  destruct writeVarint_codec as (Hcanon & Hdecode & _).
  split.
  - apply (Hcanon 300). lia.
  - apply (Hdecode 300). lia.
Defined.

(** C2, as stated, fails on the S1 vector for 518785. *)
Lemma writeVarint_518785 : writeVarint 518785 <> [0x81; 0xB5; 0x1F].
Proof. vm_compute. discriminate. Qed.

(** The bytes of that vector stand for another number. *)
Lemma spec_vector_value : Varint.value [0x81; 0xB5; 0x1F] = 514689.
Proof. reflexivity. Qed.

(** From [2^31] on, the 32-bit operations of [decodeVarint] no longer give
    the number back. *)
Lemma decodeVarint_wraps :
  decodeVarint (writeVarint (2 ^ 31)) 0 = (- 2 ^ 31, 5) /\
  decodeVarint (writeVarint (2 ^ 35)) 0 = (8, 6).
Proof. vm_compute. split; reflexivity. Qed.

End VarintFacts.

(** ** The module-level varint writer of staking.js *)
Module StakingVarintFacts.
Import VarintFacts.

Lemma staking_loop_ge (r : Z) (bs : list Z) :
  128 <= Z.shiftr r 7 ->
  Staking.writeVarint_loop r bs =
  Staking.writeVarint_loop (Z.shiftr r 7)
    (bs ++ [Z.lor (Z.land r Staking.mask) Staking.continuation]).
Proof.
  intros Hr. rewrite Staking.writeVarint_loop_equation_1 at 1.
  destruct (Z_le_gt_dec Staking.threshold (Z.shiftr r 7)) as [Hle|Hgt];
    [|unfold Staking.threshold in Hgt; lia].
  reflexivity.
Qed.

Lemma staking_loop_lt (r : Z) (bs : list Z) :
  Z.shiftr r 7 < 128 ->
  Staking.writeVarint_loop r bs =
  bs ++ [Z.lor (Z.land r Staking.mask) Staking.continuation].
Proof.
  intros Hr. rewrite Staking.writeVarint_loop_equation_1.
  destruct (Z_le_gt_dec Staking.threshold (Z.shiftr r 7)) as [Hle|Hgt];
    [unfold Staking.threshold in Hle; lia|].
  reflexivity.
Qed.

(** From 128 on, the loop stops one group early: the most significant
    group is never pushed. *)
Lemma staking_loop_length (r : Z) :
  128 <= r ->
  forall bs,
    (length (Staking.writeVarint_loop r bs) + 1 =
     length bs + length (Transaction.writeVarint r))%nat.
Proof.
  intros Hr. induction_below r Hr IH. intros bs.
  pose proof (shiftr7_lt r Hr) as Hs.
  rewrite writeVarint_large by lia. cbn [length].
  destruct (Z_lt_le_dec (Z.shiftr r 7) 128) as [Hlt|Hge].
  - rewrite staking_loop_lt by lia. rewrite writeVarint_small by lia.
    rewrite length_app. simpl. lia.
  - rewrite staking_loop_ge by lia.
    pose proof (IH (Z.shiftr r 7) ltac:(lia) Hge
                  (bs ++ [Z.lor (Z.land r Staking.mask) Staking.continuation]))
      as Hlen.
    rewrite length_app in Hlen. simpl in Hlen. lia.
Qed.

Lemma staking_writeVarint_small (n : Z) :
  0 <= n < 128 -> Staking.writeVarint n = Transaction.writeVarint n.
Proof.
  intros Hn. unfold Staking.writeVarint.
  rewrite staking_loop_lt.
  - rewrite writeVarint_small by lia.
    unfold Staking.mask, Staking.continuation, Transaction.mask.
    rewrite land_mask, Z.mod_small by lia.
    rewrite lor_continuation by lia. simpl.
    rewrite and32_mask by lia.
    replace (n + 128) with (n + 1 * 128) by lia.
    rewrite Z_mod_plus_full, Z.mod_small by lia. reflexivity.
  - rewrite Z.shiftr_div_pow2 by lia. rewrite Z.div_small by lia. lia.
Qed.

Lemma staking_writeVarint_short (n : Z) :
  128 <= n ->
  (length (Staking.writeVarint n) + 1 = length (Transaction.writeVarint n))%nat.
Proof.
  intros Hn. unfold Staking.writeVarint. rewrite length_alter.
  pose proof (staking_loop_length n Hn []) as H. simpl in H. lia.
Qed.

(** The two writers agree exactly below 128. *)
Lemma staking_writeVarint_agrees_iff (n : Z) :
  0 <= n ->
  Staking.writeVarint n = Transaction.writeVarint n <-> n < 128.
Proof.
  intros Hn. split.
  - intros Heq. destruct (Z_lt_le_dec n 128) as [|Hge]; [assumption|].
    pose proof (staking_writeVarint_short n Hge) as Hlen.
    rewrite Heq in Hlen. lia.
  - intros Hlt. apply staking_writeVarint_small. lia.
Qed.

(** C3.  The module-level writer of staking.js evaluated where it parts
    from the canonical one: 128 comes out as [0x00] and 518785 as
    [0x81, 0x55], while the writer of the transaction module gives
    [0x80, 0x01] and [0x81, 0xD5, 0x1F]. *)
Theorem staking_writeVarint_drops_group :
  Staking.writeVarint 128 = [0x00] /\
  Transaction.writeVarint 128 = [0x80; 0x01] /\
  Staking.writeVarint 518785 = [0x81; 0x55] /\
  Transaction.writeVarint 518785 = [0x81; 0xD5; 0x1F].
Proof. vm_compute. repeat split; reflexivity. Qed.

End StakingVarintFacts.

(** ** Numbers *)
Module NumberFacts.

(** Up to [2^53] in magnitude an integer is its own double. *)
Lemma round_double_exact (x : Z) : JS.exact x -> JS.round_double x = x.
Proof.
  unfold JS.exact, JS.round_double. intros Hx. cbv zeta.
  destruct (Z.ltb_spec (Z.abs x) (2 ^ 53)) as [|Hge]; [reflexivity|].
  assert (Hcase : x = 2 ^ 53 \/ x = - 2 ^ 53) by lia.
  destruct Hcase as [-> | ->]; vm_compute; reflexivity.
Qed.

Lemma number_add_exact (a b : Z) :
  JS.exact (a + b) -> JS.number_add a b = a + b.
Proof. apply round_double_exact. Qed.

Lemma number_sub_exact (a b : Z) :
  JS.exact (a - b) -> JS.number_sub a b = a - b.
Proof. apply round_double_exact. Qed.

(** From [2^53] on the sums are rounded: [2^53 + 1] is [2^53]. *)
Lemma number_add_rounds : JS.number_add (2 ^ 53) 1 = 2 ^ 53.
Proof. vm_compute. reflexivity. Qed.

End NumberFacts.

(** ** The UTXO tracker *)
Module TrackerFacts.
Import WalletSync.

(** *** Deleting while walking a map *)

Lemma delete_where_fold `{Countable K} {V : Type} (cond : K -> V -> bool)
    (m0 m : gmap K V) (k : K) :
  map_fold (fun k v acc => if cond k v then delete k acc else acc) m0 m !! k =
  match m !! k with
  | Some v => if cond k v then None else m0 !! k
  | None => m0 !! k
  end.
Proof.
  revert k.
  apply (map_fold_weak_ind
           (fun r m => forall k, r !! k =
              match m !! k with
              | Some v => if cond k v then None else m0 !! k
              | None => m0 !! k
              end)).
  - intros k. rewrite lookup_empty. reflexivity.
  - intros i x m' r Hi IH k.
    destruct (decide (k = i)) as [->|Hne].
    + rewrite lookup_insert_eq. destruct (cond i x).
      * apply lookup_delete_eq.
      * rewrite IH, Hi. reflexivity.
    + rewrite lookup_insert_ne by congruence.
      destruct (cond i x).
      * rewrite lookup_delete_ne by congruence. apply IH.
      * apply IH.
Qed.

Lemma delete_where_lookup `{Countable K} {V : Type} (cond : K -> V -> bool)
    (m : gmap K V) (k : K) :
  delete_where cond m !! k =
  match m !! k with
  | Some v => if cond k v then None else Some v
  | None => None
  end.
Proof.
  unfold delete_where. rewrite delete_where_fold.
  destruct (m !! k) as [v|] eqn:Hk; [|reflexivity].
  destruct (cond k v); reflexivity.
Qed.

Lemma delete_where_Some `{Countable K} {V : Type} (cond : K -> V -> bool)
    (m : gmap K V) (k : K) (v : V) :
  delete_where cond m !! k = Some v <-> m !! k = Some v /\ cond k v = false.
Proof.
  rewrite delete_where_lookup. destruct (m !! k) as [w|]; [|split; [discriminate|intros [? _]; discriminate]].
  destruct (cond k w) eqn:Hc; split.
  - discriminate.
  - intros [[= ->] Hf]. congruence.
  - intros [= ->]. auto.
  - intros [[= ->] _]. reflexivity.
Qed.

(** *** Balances *)

Lemma total_amount_insert (P : WalletOutput.t -> bool)
    (m : gmap string WalletOutput.t) (k : string) (o : WalletOutput.t) :
  m !! k = None ->
  total_amount P (<[k := o]> m) =
  (if P o then total_amount P m + WalletOutput.amount o else total_amount P m).
Proof.
  intros Hk. unfold total_amount. rewrite map_fold_insert_L; [reflexivity| |assumption].
  intros j1 j2 z1 z2 y _ _ _. destruct (P z1), (P z2); lia.
Qed.

Lemma total_amount_empty (P : WalletOutput.t -> bool) : total_amount P ∅ = 0.
Proof. apply map_fold_empty. Qed.

Lemma recalculateBalances_step_comm (now : Z) (hs : gset string) (h : Z)
    (o1 o2 : WalletOutput.t) (acc : Balances) :
  recalculateBalances_step now hs h o1 (recalculateBalances_step now hs h o2 acc) =
  recalculateBalances_step now hs h o2 (recalculateBalances_step now hs h o1 acc).
Proof.
  unfold recalculateBalances_step.
  destruct (JS.truthy (WalletOutput.spentHeight o1)),
           (JS.truthy (WalletOutput.spentHeight o2)); try reflexivity.
  repeat case_match; cbn [available locked stakingLocked]; f_equal; lia.
Qed.

(** What each of the three figures adds up. *)
Lemma recalculateBalances_buckets (now : Z) (c : ProcessingContext) :
  let hs := stakingTxHashes c in
  let h := currentHeight c in
  let b := recalculateBalances now c in
  available b =
    total_amount (fun o => unspent o && spendable_now now h o) (outputs c) /\
  locked b =
    total_amount (fun o => unspent o && negb (spendable_now now h o)
                           && negb (staking_origin hs o)) (outputs c) /\
  stakingLocked b =
    total_amount (fun o => unspent o && negb (spendable_now now h o)
                           && staking_origin hs o) (outputs c).
Proof.
  intros hs h. unfold recalculateBalances. fold hs h.
  apply (map_fold_weak_ind
    (fun b m =>
       available b = total_amount (fun o => unspent o && spendable_now now h o) m /\
       locked b = total_amount (fun o => unspent o && negb (spendable_now now h o)
                                         && negb (staking_origin hs o)) m /\
       stakingLocked b = total_amount (fun o => unspent o && negb (spendable_now now h o)
                                         && staking_origin hs o) m)).
  - rewrite !total_amount_empty. auto.
  - intros k o m r Hk (Ha & Hl & Hs).
    rewrite !total_amount_insert by assumption.
    unfold recalculateBalances_step, unspent, spendable_now, staking_origin.
    destruct (JS.truthy (WalletOutput.spentHeight o)); cbn [negb andb]; [auto|].
    destruct (isOutputSpendable now _ _ 0 h); cbn [negb andb].
    + cbn [available locked stakingLocked]. rewrite Ha. auto.
    + destruct (flag (WalletOutput.isStaking o) || _);
        cbn [negb andb available locked stakingLocked];
        rewrite ?Hl, ?Hs; auto.
Qed.

Lemma total_amount_three_way (P Q R : WalletOutput.t -> bool)
    (m : gmap string WalletOutput.t) :
  total_amount (fun o => P o && Q o) m
  + total_amount (fun o => P o && negb (Q o) && negb (R o)) m
  + total_amount (fun o => P o && negb (Q o) && R o) m
  = total_amount P m.
Proof.
  induction m as [|k o m Hk IH] using map_ind.
  - rewrite !total_amount_empty. reflexivity.
  - rewrite !total_amount_insert by assumption.
    destruct (P o), (Q o), (R o); cbn [negb andb]; lia.
Qed.

Lemma total_amount_ext (P Q : WalletOutput.t -> bool)
    (m : gmap string WalletOutput.t) :
  (forall k o, m !! k = Some o -> P o = Q o) ->
  total_amount P m = total_amount Q m.
Proof.
  induction m as [|k o m Hk IH] using map_ind; intros Hext.
  - rewrite !total_amount_empty. reflexivity.
  - rewrite !total_amount_insert by assumption.
    rewrite (Hext k o) by apply lookup_insert_eq.
    rewrite IH; [reflexivity|].
    intros k' o' Hk'. apply (Hext k').
    rewrite lookup_insert_ne; [assumption|]. intros ->. congruence.
Qed.

(** An output that [processTransactionSpends] has marked as spent in
    block 0 carries [spentHeight = 0] and a spend record; the loop of
    [recalculateBalances], whose test [if (output.spentHeight)] is meant
    to skip spent outputs, still counts its 5000 units, so the three
    figures add up to 5000 where the outputs with an unset [spentHeight]
    add up to 0. *)
Lemma recalculateBalances_counts_spentHeight_zero :
  let c := Scenario.spent_at_zero in
  let b := recalculateBalances 0 c in
  WalletOutput.spentHeight <$> (outputs c !! "aa:0"%string) = Some (Some 0) /\
  WalletSpend.blockHeight <$> (spends c !! "aa:0"%string) = Some 0 /\
  available b + locked b + stakingLocked b = 5000 /\
  total_amount spentHeight_unset (outputs c) = 0.
Proof. vm_compute. repeat split; reflexivity. Qed.

(** *** Fork rollback *)

(** C7, as amended.  After [handleFork(h)] no output, spend, synced block
    or checkpoint at a height [>= h] is left, and [currentHeight] is
    [max(0, h - 1)]: [h - 1] from height 1 on, and 0 for a fork at
    height 0. *)
Theorem handleFork_rollback (h : Z) (t : Tracker) :
  let t' := handleFork h t in
  (forall k o, outputs (ctx t') !! k = Some o -> WalletOutput.blockHeight o < h) /\
  (forall k s, spends (ctx t') !! k = Some s -> WalletSpend.blockHeight s < h) /\
  (forall height b, syncedBlocks t' !! height = Some b -> height < h) /\
  (forall height hash, blockCheckpoints t' !! height = Some hash -> height < h) /\
  currentHeight (ctx t') = Z.max 0 (h - 1).
Proof.
  cbn [handleFork ctx outputs spends syncedBlocks blockCheckpoints currentHeight].
  repeat split.
  all: intros k v [_ Hc]%delete_where_Some; lia.
Qed.

(** C7, as stated, fails for a fork at height 0: [currentHeight] becomes 0,
    not [-1]. *)
Lemma handleFork_at_height_zero :
  currentHeight (ctx (handleFork 0 Scenario.empty_tracker)) <> 0 - 1.
Proof. vm_compute. discriminate. Qed.

(** What [handleFork] keeps is kept as it was. *)
Lemma handleFork_outputs_below (h : Z) (t : Tracker) (k : string)
    (o : WalletOutput.t) :
  outputs (ctx t) !! k = Some o -> WalletOutput.blockHeight o < h ->
  outputs (ctx (handleFork h t)) !! k = Some o.
Proof.
  intros Hk Hlt. cbn [handleFork ctx outputs].
  apply delete_where_Some. split; [assumption|lia].
Qed.

Lemma recalculateBalances_skips_spent (now : Z) (c : ProcessingContext)
    (k : string) (o : WalletOutput.t) :
  outputs c !! k = Some o -> JS.truthy (WalletOutput.spentHeight o) = true ->
  recalculateBalances now c =
  recalculateBalances now
    (mkContext (publicKeys c) (currentHeight c) (delete k (outputs c))
       (spends c) (stakingTxHashes c)).
Proof.
  intros Hk Hspent. unfold recalculateBalances.
  cbn [outputs stakingTxHashes currentHeight].
  rewrite (map_fold_delete_L _ _ k o (outputs c)); [|..|assumption].
  - unfold recalculateBalances_step at 1. rewrite Hspent. reflexivity.
  - intros. apply recalculateBalances_step_comm.
Qed.

(** C10.  [handleFork(h)] leaves an output created below [h] as it is,
    [spentHeight] included.  When that output is marked spent at a height
    [s >= h], the spend record stored under its key is deleted, the mark
    stays, and the output adds nothing to any of the three balances: they
    are what they would be without it.  Block heights are non-negative. *)
Theorem handleFork_keeps_spent_mark (now h : Z) (t : Tracker) (k : string)
    (o : WalletOutput.t) (s : Z) (sp : WalletSpend.t) :
  outputs (ctx t) !! k = Some o ->
  0 <= WalletOutput.blockHeight o < h ->
  WalletOutput.spentHeight o = Some s -> h <= s ->
  spends (ctx t) !! k = Some sp -> WalletSpend.blockHeight sp = s ->
  let t' := handleFork h t in
  outputs (ctx t') !! k = Some o /\
  spends (ctx t') !! k = None /\
  recalculateBalances now (ctx t') =
  recalculateBalances now
    (mkContext (publicKeys (ctx t')) (currentHeight (ctx t'))
       (delete k (outputs (ctx t'))) (spends (ctx t'))
       (stakingTxHashes (ctx t'))).
Proof.
  intros Hk Hbh Hs Hge Hsp Hsph t'.
  assert (Hk' : outputs (ctx t') !! k = Some o)
    by (apply handleFork_outputs_below; [assumption|lia]).
  split; [exact Hk'|]. split.
  - unfold t'. cbn [handleFork ctx spends].
    rewrite delete_where_lookup, Hsp.
    replace (WalletSpend.blockHeight sp >=? h) with true; [reflexivity|].
    symmetry. apply Z.geb_le. lia.
  - apply (recalculateBalances_skips_spent now (ctx t') k o Hk').
    rewrite Hs. cbn [JS.truthy]. apply negb_true_iff, Z.eqb_neq. lia.
Qed.

(** The scenario of C10 run on a tracker: the output of block 100, spent in
    block 102, after a fork at height 102. *)
Lemma handleFork_keeps_spent_mark_example :
  let t' := handleFork 102 Scenario.spent_in_block_102 in
  outputs (ctx t') !! "aa:0" = Some (Scenario.output "aa" 0 5000 100 (Some 102)) /\
  spends (ctx t') !! "aa:0" = None /\
  recalculateBalances 0 (ctx t') =
  recalculateBalances 0
    (mkContext (publicKeys (ctx t')) (currentHeight (ctx t'))
       (delete "aa:0" (outputs (ctx t'))) (spends (ctx t'))
       (stakingTxHashes (ctx t'))).
Proof.
  apply (handleFork_keeps_spent_mark 0 102 Scenario.spent_in_block_102 "aa:0"
           (Scenario.output "aa" 0 5000 100 (Some 102)) 102
           (WalletSpend.mk 5000 "aa" (Some 0) 102 0 None "aa:0" (Some "cc"))).
  - vm_compute. reflexivity.
  - cbn. lia.
  - reflexivity.
  - lia.
  - vm_compute. reflexivity.
  - reflexivity.
Defined.

(** In that scenario the 5000 units stay out of every balance although the
    spending block is gone: at height 200 only the other output counts. *)
Lemma handleFork_spent_mark_balances :
  let t' := handleFork 102 Scenario.spent_in_block_102 in
  recalculateBalances 0
    (mkContext (publicKeys (ctx t')) 200 (outputs (ctx t')) (spends (ctx t'))
       (stakingTxHashes (ctx t'))) = mkBalances 700 0 0 /\
  recalculateBalances 0 (ctx Scenario.spent_in_block_102) = mkBalances 0 700 0.
Proof. vm_compute. split; reflexivity. Qed.

End TrackerFacts.

(** ** The staking selector and the preparation transaction *)
Module StakingFacts.
Import Staking.

Lemma spendable_in_filter (outputs : list WalletOutput.t) (h mat : Z)
    (o : WalletOutput.t) :
  In o (List.filter (spendable_filter (h - mat)) outputs) <->
  spendable_in outputs h mat o.
Proof. apply filter_In. Qed.

Lemma same_hash_and_index_test (a f : WalletOutput.t) :
  String.eqb (WalletOutput.transactionHash a) (WalletOutput.transactionHash f)
  && (WalletOutput.transactionIndex a =? WalletOutput.transactionIndex f) = true
  <-> same_hash_and_index a f.
Proof.
  unfold same_hash_and_index.
  rewrite andb_true_iff, String.eqb_eq, Z.eqb_eq. reflexivity.
Qed.

(** C8, as amended.  [hasPreciseStakingOutputs] answers [true] exactly when
    some unspent (falsy [spentHeight]), mature, [unlockTime = 0] output has
    the stake amount, the fee differs from the stake amount, and some such
    output of the fee amount shares its (transactionHash, transactionIndex)
    pair with none of the outputs of the stake amount.  The two outputs
    need not come from one transaction. *)
Theorem hasPreciseStakingOutputs_spec (amount : Z)
    (outputs : list WalletOutput.t) (currentHeight currentFee maturityBlocks : Z) :
  hasPreciseStakingOutputs amount outputs currentHeight currentFee maturityBlocks
    = true
  <->
  (exists a, spendable_in outputs currentHeight maturityBlocks a
             /\ WalletOutput.amount a = amount) /\
  (exists f, spendable_in outputs currentHeight maturityBlocks f
             /\ WalletOutput.amount f = currentFee /\ currentFee <> amount
             /\ forall a, spendable_in outputs currentHeight maturityBlocks a ->
                          WalletOutput.amount a = amount ->
                          ~ same_hash_and_index a f).
Proof.
  unfold hasPreciseStakingOutputs. cbv zeta.
  set (spendable := List.filter _ outputs).
  assert (Hsp : forall o, In o spendable
                          <-> spendable_in outputs currentHeight maturityBlocks o)
    by (intros o; apply spendable_in_filter).
  assert (Hdiff :
    existsb
      (fun fee =>
         negb (existsb
                 (fun amount0 =>
                    String.eqb (WalletOutput.transactionHash amount0)
                      (WalletOutput.transactionHash fee)
                    && (WalletOutput.transactionIndex amount0
                        =? WalletOutput.transactionIndex fee))
                 (List.filter (fun o => WalletOutput.amount o =? amount) spendable)))
      (List.filter (fun o => (WalletOutput.amount o =? currentFee)
                             && negb (WalletOutput.amount o =? amount)) spendable)
    = true
    <->
    exists f, spendable_in outputs currentHeight maturityBlocks f
              /\ WalletOutput.amount f = currentFee /\ currentFee <> amount
              /\ forall a, spendable_in outputs currentHeight maturityBlocks a ->
                           WalletOutput.amount a = amount ->
                           ~ same_hash_and_index a f).
  { rewrite existsb_exists. split.
    - intros (f & Hf & Hnone). apply filter_In in Hf as [Hf Hamt].
      apply andb_true_iff in Hamt as [Hfee Hne].
      apply Z.eqb_eq in Hfee. apply negb_true_iff, Z.eqb_neq in Hne.
      exists f. split; [apply Hsp; assumption|]. split; [assumption|].
      split; [congruence|]. intros a Ha Hamount Hsame.
      apply negb_true_iff in Hnone.
      assert (Hex : existsb
                (fun amount0 =>
                   String.eqb (WalletOutput.transactionHash amount0)
                     (WalletOutput.transactionHash f)
                   && (WalletOutput.transactionIndex amount0
                       =? WalletOutput.transactionIndex f))
                (List.filter (fun o => WalletOutput.amount o =? amount) spendable)
              = true).
      { apply existsb_exists. exists a. split.
        - apply filter_In. split; [apply Hsp; assumption|].
          apply Z.eqb_eq. assumption.
        - apply same_hash_and_index_test. assumption. }
      congruence.
    - intros (f & Hf & Hfee & Hne & Hnone). exists f. split.
      + apply filter_In. split; [apply Hsp; assumption|].
        apply andb_true_iff. split; [apply Z.eqb_eq; assumption|].
        apply negb_true_iff, Z.eqb_neq. congruence.
      + apply negb_true_iff. apply not_true_is_false. intros Hex.
        apply existsb_exists in Hex as (a & Ha & Hsame).
        apply filter_In in Ha as [Ha Hamount]. apply Z.eqb_eq in Hamount.
        apply (Hnone a); [apply Hsp; assumption|assumption|].
        apply same_hash_and_index_test. assumption. }
  destruct (existsb (fun o => WalletOutput.amount o =? amount) spendable)
    eqn:HasAmount; cbn [andb].
  - destruct (existsb (fun o => (WalletOutput.amount o =? currentFee)
                                  && negb (WalletOutput.amount o =? amount))
                        spendable) eqn:HasFee.
    + split; [|intros [_ H]; apply Hdiff; exact H].
      intros H. split; [|apply Hdiff; exact H].
      apply existsb_exists in HasAmount as (a & Ha & Hamount).
      exists a. split; [apply Hsp; assumption|apply Z.eqb_eq; assumption].
    + split; [discriminate|]. intros [_ (f & Hf & Hfee & Hne & _)].
      exfalso. apply not_true_iff_false in HasFee. apply HasFee.
      apply existsb_exists. exists f. split; [apply Hsp; assumption|].
      apply andb_true_iff. split; [apply Z.eqb_eq; assumption|].
      apply negb_true_iff, Z.eqb_neq. congruence.
  - split; [discriminate|]. intros [(a & Ha & Hamount) _].
    exfalso. apply not_true_iff_false in HasAmount. apply HasAmount.
    apply existsb_exists. exists a.
    split; [apply Hsp; assumption|apply Z.eqb_eq; assumption].
Qed.

(** C8, as stated, fails when the two amounts sit in two different
    transactions: the answer is [true] and no transaction holds both. *)
Lemma hasPreciseStakingOutputs_two_transactions :
  ~ (hasPreciseStakingOutputs 5000000000 Scenario.pair_from_two_transactions
       200 1000 10 = true
     <-> pair_in_one_transaction 5000000000 Scenario.pair_from_two_transactions
           200 1000 10).
Proof.
  intros [Hto _]. specialize (Hto eq_refl).
  destruct Hto as (i & j & a & f & Hij & Hi & Hj & _ & _ & Ha & Hf & Hhash).
  destruct i as [|[|i]]; destruct j as [|[|j]];
    cbn in Hi, Hj; try discriminate; try congruence;
    injection Hi as <-; injection Hj as <-; cbn in Ha, Hf, Hhash;
    discriminate.
Qed.

(** It also fails the other way round: two distinct outputs of one
    transaction hold a stake amount equal to the fee, and the answer is
    [false]. *)
Lemma hasPreciseStakingOutputs_equal_amounts :
  hasPreciseStakingOutputs 1000 Scenario.equal_pair_from_one_transaction
    200 1000 10 = false /\
  pair_in_one_transaction 1000 Scenario.equal_pair_from_one_transaction
    200 1000 10.
Proof.
  split; [reflexivity|].
  exists 0%nat, 1%nat, (Scenario.output "aa" 0 1000 100 None),
         (Scenario.output "aa" 1 1000 100 None).
  repeat split; discriminate.
Qed.

(** The outputs of a confirmed preparation transaction are accepted. *)
Lemma hasPreciseStakingOutputs_confirmed_preparation :
  hasPreciseStakingOutputs 5000000000 Scenario.confirmed_preparation
    200 1000 10 = true.
Proof. reflexivity. Qed.

End StakingFacts.

(** ** Scalars, hashing to a scalar, signatures and key images *)
Module CryptoFacts.
Import Crypto.
Import VarintFacts.

(** *** Hex strings *)

Lemma hexToBytes_length (hex : string) :
  length (hexToBytes hex) = (String.length hex / 2)%nat.
Proof. unfold hexToBytes. rewrite length_map, length_seq. reflexivity. Qed.

Lemma toUint8_range (v : option Z) : 0 <= toUint8 v < 256.
Proof. destruct v as [n|]; simpl; [apply Z.mod_pos_bound|]; lia. Qed.

Lemma hexToBytes_bytes (hex : string) : bytes (hexToBytes hex).
Proof.
  unfold bytes, hexToBytes. apply Forall_map, Forall_forall.
  intros i _. apply toUint8_range.
Qed.

Lemma hexToBytes_pair (a b : ascii) (rest : string) :
  hexToBytes (String a (String b rest)) =
  toUint8 (parseInt16 (String a (String b EmptyString))) :: hexToBytes rest.
Proof.
  unfold hexToBytes.
  replace (String.length (String a (String b rest)) / 2)%nat
    with (S (String.length rest / 2)).
  - rewrite <- cons_seq, <- seq_shift, map_cons, map_map. f_equal.
    simpl. destruct rest; reflexivity.
  - cbn [String.length].
    change (S (S (String.length rest))) with (1 * 2 + String.length rest)%nat.
    rewrite Nat.div_add_l by lia. reflexivity.
Qed.

Lemma parse_byteToHex (b : Z) :
  0 <= b < 256 -> toUint8 (parseInt16 (byteToHex b)) = b.
Proof.
  intros Hb. apply Z.eqb_eq.
  apply (byte_forall (fun b => toUint8 (parseInt16 (byteToHex b)) =? b));
    [|assumption].
  vm_compute. reflexivity.
Qed.

(** [hexToBytes] undoes [bytesToHex]. *)
Lemma hexToBytes_bytesToHex (bs : list Z) :
  bytes bs -> hexToBytes (bytesToHex bs) = bs.
Proof.
  induction 1 as [|b bs Hb _ IH]; [reflexivity|].
  change (bytesToHex (b :: bs))
    with (String (hexDigit (b / 16))
            (String (hexDigit (b mod 16)) (bytesToHex bs))).
  rewrite hexToBytes_pair.
  change (String (hexDigit (b / 16)) (String (hexDigit (b mod 16)) EmptyString))
    with (byteToHex b).
  rewrite parse_byteToHex by assumption. rewrite IH. reflexivity.
Qed.

Lemma bytesToHex_length (bs : list Z) :
  String.length (bytesToHex bs) = (2 * length bs)%nat.
Proof.
  induction bs as [|b bs IH]; [reflexivity|].
  change (bytesToHex (b :: bs))
    with (String (hexDigit (b / 16))
            (String (hexDigit (b mod 16)) (bytesToHex bs))).
  cbn [String.length length]. rewrite IH. lia.
Qed.

(** *** Little-endian scalars *)

Lemma le_value_app (a b : list Z) :
  le_value (a ++ b) = le_value a + 256 ^ Z.of_nat (length a) * le_value b.
Proof.
  induction a as [|x a IH]; cbn [app le_value length].
  - lia.
  - rewrite IH, Nat2Z.inj_succ, Z.pow_succ_r by lia. lia.
Qed.

Lemma le_value_range (bs : list Z) :
  bytes bs -> 0 <= le_value bs < 256 ^ Z.of_nat (length bs).
Proof.
  induction 1 as [|b bs Hb _ IH]; cbn [le_value length].
  - simpl. lia.
  - rewrite Nat2Z.inj_succ, Z.pow_succ_r by lia. lia.
Qed.

Lemma bytes_check (bs : list Z) :
  forallb (fun b => (0 <=? b) && (b <? 256)) bs = true -> bytes bs.
Proof.
  intros Hall. apply Forall_forall. intros b Hb%list_elem_of_In.
  rewrite forallb_forall in Hall. specialize (Hall b Hb). lia.
Qed.

Lemma bytes_take (bs : list Z) (n : nat) : bytes bs -> bytes (firstn n bs).
Proof. apply Forall_take. Qed.

(** The [num |= BigInt(b[i]) << (i * 8)] loop reads a little-endian
    number. *)
Lemma lor_loop_le_value (bs : list Z) (n : nat) :
  bytes bs -> (n <= length bs)%nat ->
  fold_left (fun num i => Z.lor num (Z.shiftl (nth i bs 0) (Z.of_nat i * 8)))
    (seq 0 n) 0 = le_value (firstn n bs).
Proof.
  intros Hbs. induction n as [|n IH]; intros Hn; [reflexivity|].
  rewrite seq_S, fold_left_app. cbn [fold_left Nat.add].
  rewrite IH by lia.
  destruct (lookup_lt_is_Some_2 bs n ltac:(lia)) as [b Hb].
  rewrite (take_S_r bs n b Hb), le_value_app. cbn [le_value].
  rewrite (nth_lookup_Some bs n 0 b Hb).
  rewrite length_take, Nat.min_l by lia.
  assert (Hrange : 0 <= b < 256).
  { unfold bytes in Hbs. rewrite Forall_forall in Hbs. apply Hbs.
    eapply list_elem_of_lookup_2. exact Hb. }
  pose proof (le_value_range (firstn n bs) (bytes_take bs n Hbs)) as Hv.
  rewrite length_take, Nat.min_l in Hv by lia.
  rewrite Z.shiftl_mul_pow2 by lia.
  replace (2 ^ (Z.of_nat n * 8)) with (256 ^ Z.of_nat n)
    by (change 256 with (2 ^ 8); rewrite <- Z.pow_mul_r by lia; f_equal; lia).
  replace (256 ^ Z.of_nat n) with (2 ^ (8 * Z.of_nat n)) in *
    by (change 256 with (2 ^ 8); rewrite <- Z.pow_mul_r by lia; reflexivity).
  rewrite lor_shifted by lia. lia.
Qed.

Lemma scalarToBigInt_le_value (bs : list Z) :
  bytes bs -> (32 <= length bs)%nat ->
  scalarToBigInt bs = Some (le_value (firstn 32 bs)).
Proof.
  intros Hbs Hlen. unfold scalarToBigInt.
  destruct (Nat.ltb_spec (length bs) 32) as [|_]; [lia|].
  rewrite lor_loop_le_value by assumption. reflexivity.
Qed.

Lemma le_bytes_length (n : nat) (x : Z) : length (le_bytes n x) = n.
Proof. revert x. induction n as [|n IH]; intros x; simpl; [|rewrite IH]; reflexivity. Qed.

Lemma le_bytes_bytes (n : nat) (x : Z) : bytes (le_bytes n x).
Proof.
  revert x. induction n as [|n IH]; intros x; constructor.
  - apply Z.mod_pos_bound. lia.
  - apply IH.
Qed.

Lemma le_value_le_bytes (n : nat) (x : Z) :
  0 <= x -> le_value (le_bytes n x) = x mod 256 ^ Z.of_nat n.
Proof.
  revert x. induction n as [|n IH]; intros x Hx.
  - simpl. rewrite Z.mod_1_r. reflexivity.
  - cbn [le_bytes le_value]. rewrite IH by (apply Z.div_pos; lia).
    rewrite Nat2Z.inj_succ, Z.pow_succ_r by lia.
    rewrite Z.rem_mul_r by lia. reflexivity.
Qed.

Lemma shift_mask_loop (x : Z) (n k : nat) :
  0 <= x ->
  map (fun i => Z.land (Z.shiftr x (Z.of_nat i * 8)) 0xff) (seq k n) =
  le_bytes n (x / 256 ^ Z.of_nat k).
Proof.
  intros Hx. revert k. induction n as [|n IH]; intros k; [reflexivity|].
  cbn [seq map le_bytes]. f_equal.
  - change 0xff with (Z.ones 8). rewrite Z.land_ones by lia.
    rewrite Z.shiftr_div_pow2 by lia.
    replace (2 ^ (Z.of_nat k * 8)) with (256 ^ Z.of_nat k)
      by (change 256 with (2 ^ 8); rewrite <- Z.pow_mul_r by lia; f_equal; lia).
    reflexivity.
  - rewrite IH. f_equal. rewrite Nat2Z.inj_succ, Z.pow_succ_r by lia.
    rewrite Z.mul_comm, Z.div_div by lia. reflexivity.
Qed.

Lemma bigIntToScalar_le_bytes (x : Z) :
  0 <= x -> bigIntToScalar x = le_bytes 32 x.
Proof.
  intros Hx. unfold bigIntToScalar. rewrite shift_mask_loop by assumption.
  simpl (256 ^ Z.of_nat 0). rewrite Z.div_1_r. reflexivity.
Qed.

(** Reading back what [bigIntToScalar] wrote. *)
Lemma scalarToBigInt_bigIntToScalar (x : Z) :
  0 <= x < 2 ^ 256 -> scalarToBigInt (bigIntToScalar x) = Some x.
Proof.
  intros Hx. rewrite bigIntToScalar_le_bytes by lia.
  rewrite scalarToBigInt_le_value.
  - rewrite firstn_all2 by (rewrite le_bytes_length; lia).
    rewrite le_value_le_bytes by lia.
    rewrite Z.mod_small; [reflexivity|]. change (256 ^ Z.of_nat 32) with (2 ^ 256). lia.
  - apply le_bytes_bytes.
  - rewrite le_bytes_length. lia.
Qed.

(** *** Reduction modulo the curve order *)

Lemma typed_set_fits (target source : list Z) (offset : nat) :
  (length source + offset <= length target)%nat ->
  typed_set target source offset =
  Some (firstn offset target ++ source
        ++ skipn (offset + length source) target).
Proof.
  intros Hfit. unfold typed_set.
  destruct (Nat.ltb_spec (length target) (length source + offset)); [lia|].
  reflexivity.
Qed.

Lemma zeros_length (n : nat) : length (zeros n) = n.
Proof. apply repeat_length. Qed.

Lemma bytes_zeros (n : nat) : bytes (zeros n).
Proof. apply Forall_forall. intros x Hx%list_elem_of_In%repeat_spec. lia. Qed.

Lemma bytes_app (a b : list Z) : bytes a -> bytes b -> bytes (a ++ b).
Proof. intros. apply Forall_app; auto. Qed.

Lemma CURVE_ORDER_range : 2 ^ 252 < CURVE_ORDER < 2 ^ 253.
Proof. vm_compute. split; reflexivity. Qed.

Lemma scReduce32_value (input : list Z) :
  bytes input -> length input = 64%nat ->
  scReduce32 input =
  Some (le_bytes 32 (le_value (firstn 32 input) mod CURVE_ORDER)).
Proof.
  intros Hin Hlen. unfold scReduce32. rewrite Hlen. cbn [Nat.eqb negb].
  rewrite lor_loop_le_value by (assumption || lia).
  pose proof (le_value_range (firstn 32 input) (bytes_take input 32 Hin)) as Hv.
  pose proof CURVE_ORDER_range as HL.
  rewrite Z.rem_mod_nonneg by lia.
  rewrite shift_mask_loop by (apply Z.mod_pos_bound; lia).
  simpl (256 ^ Z.of_nat 0). rewrite Z.div_1_r. reflexivity.
Qed.

Section Hashing.
Context {keccak : Keccak} {keccak_laws : KeccakLaws keccak}.

Lemma digest_length (data : list Z) :
  length (hexToBytes (keccak256 data)) = 32%nat.
Proof. rewrite hexToBytes_length, keccak256_length. reflexivity. Qed.

(** The 64-byte buffer [hashToScalar] reduces: the digest, twice. *)
Lemma hashToScalar_buffer (data : list Z) :
  let digest := hexToBytes (keccak256 data) in
  hashToScalar data = scReduce32 (digest ++ digest).
Proof.
  intros digest. unfold hashToScalar. fold digest.
  assert (Hlen : length digest = 32%nat) by apply digest_length.
  clearbody digest.
  rewrite typed_set_fits by (rewrite zeros_length; lia).
  rewrite typed_set_fits
    by (rewrite !length_app, length_skipn, zeros_length; cbn [firstn length]; lia).
  rewrite Hlen. cbn [Nat.add]. rewrite take_0. cbn [app].
  rewrite (take_app_length' digest _ 32 (eq_sym Hlen)).
  rewrite drop_ge
    by (rewrite length_app, length_skipn, zeros_length, Hlen; reflexivity).
  rewrite app_nil_r. reflexivity.
Qed.

Lemma hashToScalar_value (data : list Z) :
  hashToScalar data =
  Some (le_bytes 32 (le_value (hexToBytes (keccak256 data)) mod CURVE_ORDER)).
Proof.
  rewrite hashToScalar_buffer. cbv zeta.
  pose proof (digest_length data) as Hlen.
  pose proof (hexToBytes_bytes (keccak256 data)) as Hbytes.
  rewrite scReduce32_value.
  - rewrite (take_app_length' _ _ 32 (eq_sym Hlen)). reflexivity.
  - apply bytes_app; assumption.
  - rewrite length_app, Hlen. reflexivity.
Qed.

Lemma scalarToBigInt_le_bytes (x : Z) :
  0 <= x < CURVE_ORDER -> scalarToBigInt (le_bytes 32 x) = Some x.
Proof.
  intros Hx. rewrite <- bigIntToScalar_le_bytes by lia.
  apply scalarToBigInt_bigIntToScalar. pose proof CURVE_ORDER_range. lia.
Qed.


End Hashing.

(** The Keccak-256 model returns 64 hex characters. *)
Lemma keccak256_laws : KeccakLaws Keccak256.keccak.
Proof.
  constructor. intros data. cbn [keccak256 Keccak256.keccak].
  rewrite bytesToHex_length. unfold Keccak256.digest.
  rewrite length_map, length_seq. reflexivity.
Qed.


(** *** Signing and verifying *)

Lemma typed_set_Some (target source : list Z) (offset : nat) :
  (length source + offset <= length target)%nat ->
  exists result,
    typed_set target source offset = Some result /\
    length result = length target.
Proof.
  intros Hfit. rewrite typed_set_fits by assumption. eexists. split; [reflexivity|].
  rewrite !length_app, length_take, length_drop. lia.
Qed.

Lemma signature_layout (c s : list Z) :
  length c = 32%nat -> length s = 32%nat ->
  (signature ← typed_set (zeros 64) c 0;
   signature ← typed_set signature s 32;
   Some signature) = Some (c ++ s).
Proof.
  intros Hc Hs.
  rewrite typed_set_fits by (rewrite zeros_length; lia).
  cbn [mbind option_bind]. rewrite take_0. cbn [app Nat.add].
  rewrite typed_set_fits
    by (rewrite length_app, length_drop, zeros_length; lia).
  rewrite (take_app_length' c _ 32 (eq_sym Hc)).
  rewrite drop_ge by (rewrite length_app, length_drop, zeros_length; lia).
  rewrite app_nil_r. reflexivity.
Qed.

Lemma subarray_left (c s : list Z) :
  length c = 32%nat -> subarray (c ++ s) 0 32 = c.
Proof.
  intros Hc. unfold subarray. rewrite drop_0. cbn [Nat.sub].
  apply take_app_length'. auto.
Qed.

Lemma subarray_right (c s : list Z) :
  length c = 32%nat -> length s = 32%nat -> subarray (c ++ s) 32 64 = s.
Proof.
  intros Hc Hs. unfold subarray.
  rewrite (drop_app_length' c s 32 (eq_sym Hc)).
  apply firstn_all2. cbn. lia.
Qed.

Lemma forallb_same (c : list Z) (l : list nat) :
  forallb (fun i => nth i c 0 =? nth i c 0) l = true.
Proof. apply forallb_forall. intros i _. apply Z.eqb_refl. Qed.



(** [s = k - c * sec] computed with truncating [%], then the sum
    [s + sec * c] of the verifier, is [k] modulo the order. *)
Lemma schnorr_scalar (L k c sec : Z) :
  0 < L -> 0 <= k < L -> 0 <= c -> 0 <= sec ->
  let cTimesSec := Z.rem (c * sec) L in
  let s := Z.rem (k - cTimesSec) L in
  let s := if s <? 0 then s + L else s in
  0 <= s < L /\ (s + sec * c) mod L = k mod L.
Proof.
  intros HL Hk Hc Hsec. cbv zeta.
  rewrite (Z.rem_mod_nonneg (c * sec) L) by nia.
  pose proof (Z.mod_pos_bound (c * sec) L HL) as Ht.
  pose proof (Z.div_mod (c * sec) L ltac:(lia)) as Hdm.
  set (t := (c * sec) mod L) in *.
  assert (Hrem : Z.rem (k - t) L = k - t).
  { destruct (Z_lt_le_dec (k - t) 0) as [Hneg|Hpos].
    - replace (k - t) with (- (t - k)) by lia.
      rewrite Z.rem_opp_l by lia. rewrite Z.rem_small by lia. reflexivity.
    - apply Z.rem_small. lia. }
  rewrite Hrem.
  destruct (Z.ltb_spec (k - t) 0) as [Hneg|Hpos].
  - split; [lia|].
    replace (k - t + L + sec * c) with (k + (1 + (c * sec) / L) * L) by lia.
    apply Z_mod_plus_full.
  - split; [lia|].
    replace (k - t + sec * c) with (k + ((c * sec) / L) * L) by lia.
    apply Z_mod_plus_full.
Qed.

(** That scalar is the response [k - c * sec (mod l)] of section 4.2. *)
Lemma schnorr_scalar_response (k c sec : Z) :
  0 <= k < CURVE_ORDER -> 0 <= c -> 0 <= sec ->
  (let cTimesSec := Z.rem (c * sec) CURVE_ORDER in
   let s := Z.rem (k - cTimesSec) CURVE_ORDER in
   if s <? 0 then s + CURVE_ORDER else s) = response k c sec.
Proof.
  intros Hk Hc Hsec. pose proof CURVE_ORDER_range as HL.
  destruct (schnorr_scalar CURVE_ORDER k c sec ltac:(lia) Hk Hc Hsec)
    as [Hrange Hsum].
  cbv zeta in *.
  set (s := if _ <? 0 then _ else _) in *.
  unfold response.
  replace (k - c * sec) with (k + (- (c * sec))) by lia.
  rewrite <- Zplus_mod_idemp_l, <- Hsum, Zplus_mod_idemp_l.
  replace (s + sec * c + - (c * sec)) with s by lia.
  symmetry. apply Z.mod_small. exact Hrange.
Qed.


Section Signing.
Context {keccak : Keccak} {keccak_laws : KeccakLaws keccak}.
Context {curve : Ed25519} {curve_laws : Ed25519Laws curve}.

Lemma randomScalar_value (randomBytes : list Z) :
  bytes randomBytes -> length randomBytes = 64%nat ->
  randomScalar randomBytes =
  Some (le_bytes 32 (le_value (firstn 32 randomBytes) mod CURVE_ORDER)).
Proof.
  intros Hb Hl. unfold randomScalar, scReduce. rewrite Hl. cbn [Nat.ltb Nat.leb].
  unfold subarray. rewrite drop_0. cbn [Nat.sub].
  rewrite firstn_all2 by lia. apply scReduce32_value; assumption.
Qed.

Lemma multiply_in_range (P : Point) (n : Z) :
  0 < n < CURVE_ORDER -> multiply P n = Some (scalar_mul P n).
Proof.
  intros Hn. unfold multiply.
  destruct (Z.ltb_spec 0 n); [|lia].
  destruct (Z.ltb_spec n CURVE_ORDER); [reflexivity|lia].
Qed.

Lemma multiply_out_of_range (P : Point) (n : Z) :
  n <= 0 \/ CURVE_ORDER <= n -> multiply P n = None.
Proof.
  intros Hn. unfold multiply.
  destruct (Z.ltb_spec 0 n); [|reflexivity].
  destruct (Z.ltb_spec n CURVE_ORDER); [lia|reflexivity].
Qed.

(** The point the verifier rebuilds is the commitment of the signer. *)
Lemma commitment_rebuilt (k c sec s : Z) :
  0 <= k < CURVE_ORDER -> 0 <= c -> 0 <= sec -> 0 <= s ->
  (s + sec * c) mod CURVE_ORDER = k mod CURVE_ORDER ->
  add (scalar_mul BASE s) (scalar_mul (scalar_mul BASE sec) c)
  = scalar_mul BASE k.
Proof.
  intros Hk Hc Hsec Hs Heq.
  rewrite scalar_mul_mul by assumption.
  rewrite <- scalar_mul_add by nia.
  rewrite <- (scalar_mul_order (s + sec * c)) by nia.
  rewrite Heq. apply scalar_mul_order. lia.
Qed.

Lemma bind_Some_eq {A B} (x : A) (f : A -> option B) : (Some x ≫= f) = f x.
Proof. reflexivity. Qed.

(** The 96-byte buffer both functions hash: whatever the array holds after
    its first 32 bytes is overwritten by the key and the commitment. *)
Lemma commitment_buffer_value (buffer prefixHash publicKeyBytes comm : list Z) :
  length buffer = 96%nat -> firstn 32 buffer = prefixHash ->
  length publicKeyBytes = 32%nat -> length comm = 32%nat ->
  (sComm ← typed_set buffer publicKeyBytes 32; typed_set sComm comm 64)
  = Some (prefixHash ++ publicKeyBytes ++ comm).
Proof.
  intros Hbuf Hph Hpk Hcomm.
  assert (Hphl : length prefixHash = 32%nat)
    by (rewrite <- Hph, length_take; lia).
  rewrite typed_set_fits by lia. rewrite bind_Some_eq.
  rewrite typed_set_fits
    by (rewrite !length_app, length_take, length_drop; lia).
  f_equal. rewrite Hph.
  rewrite (drop_ge (prefixHash ++ publicKeyBytes ++ _))
    by (rewrite !length_app, length_drop; lia).
  rewrite app_nil_r.
  rewrite (app_assoc prefixHash publicKeyBytes).
  rewrite (take_app_length' (prefixHash ++ publicKeyBytes) _ 64)
    by (rewrite length_app; lia).
  rewrite <- app_assoc. reflexivity.
Qed.

Lemma prefix_buffer (prefixHash extra : list Z) :
  length prefixHash = 32%nat -> (length extra <= 64)%nat ->
  exists buffer,
    typed_set (zeros 96) (prefixHash ++ extra) 0 = Some buffer /\
    length buffer = 96%nat /\ firstn 32 buffer = prefixHash.
Proof.
  intros Hph Hextra.
  rewrite typed_set_fits by (rewrite length_app, zeros_length; lia).
  eexists. split; [reflexivity|]. rewrite take_0. cbn [app Nat.add]. split.
  - rewrite !length_app, length_drop, zeros_length. lia.
  - rewrite <- app_assoc. apply take_app_length'. symmetry. assumption.
Qed.

(** The buffer [h || key || comm] both sides hash. *)
Lemma commitment_buffer (prefixHash publicKeyBytes comm : list Z) :
  length prefixHash = 32%nat -> length publicKeyBytes = 32%nat ->
  length comm = 32%nat ->
  (sComm ← typed_set (zeros 96) prefixHash 0;
   sComm ← typed_set sComm publicKeyBytes 32;
   typed_set sComm comm 64) = Some (prefixHash ++ publicKeyBytes ++ comm).
Proof.
  intros Hh Hp Hc.
  destruct (prefix_buffer prefixHash [] Hh ltac:(cbn; lia))
    as (buffer & Hset & Hlen & Htake).
  rewrite app_nil_r in Hset. rewrite Hset, bind_Some_eq.
  apply commitment_buffer_value; assumption.
Qed.

Lemma bind_assoc3 {A B} (m1 : option A) (f2 f3 : A -> option A)
    (g : A -> option B) :
  (x ← m1; y ← f2 x; z ← f3 y; g z) =
  (z ← (x ← m1; y ← f2 x; f3 y); g z).
Proof. destruct m1 as [x|]; [|reflexivity]. cbn. destruct (f2 x); reflexivity. Qed.

(** What [generateSchnorrSignature] returns: nothing when the nonce is 0,
    where [multiply] throws, and otherwise [c || s] with the challenge and
    the response of section 4.2. *)
Lemma generateSchnorrSignature_value (randomBytes prefixHash : list Z)
    (publicKey privateKey : string) :
  bytes randomBytes -> length randomBytes = 64%nat ->
  length prefixHash = 32%nat ->
  String.length publicKey = 64%nat -> String.length privateKey = 64%nat ->
  let k := le_value (firstn 32 randomBytes) mod CURVE_ORDER in
  let sec := le_value (hexToBytes privateKey) in
  let c := hash_to_scalar (prefixHash ++ hexToBytes publicKey
                           ++ toRawBytes (scalar_mul BASE k)) in
  generateSchnorrSignature randomBytes prefixHash publicKey privateKey
  = if k =? 0 then None
    else Some (le_bytes 32 c ++ le_bytes 32 (response k c sec)).
Proof.
  intros Hrb Hrl Hh Hpk Hsk k sec c.
  pose proof CURVE_ORDER_range as HL.
  assert (Hpkl : length (hexToBytes publicKey) = 32%nat)
    by (rewrite hexToBytes_length, Hpk; reflexivity).
  assert (Hskl : length (hexToBytes privateKey) = 32%nat)
    by (rewrite hexToBytes_length, Hsk; reflexivity).
  assert (Hkr : 0 <= k < CURVE_ORDER) by (apply Z.mod_pos_bound; lia).
  assert (Hcr : 0 <= c < CURVE_ORDER) by (apply Z.mod_pos_bound; lia).
  assert (Hsecr : 0 <= sec) by (apply le_value_range, hexToBytes_bytes).
  assert (Hsr : 0 <= response k c sec < CURVE_ORDER)
    by (apply Z.mod_pos_bound; lia).
  unfold generateSchnorrSignature.
  rewrite Hh, Hpkl, Hskl. cbn [Nat.eqb negb].
  rewrite randomScalar_value by assumption. fold k.
  rewrite !bind_Some_eq.
  rewrite scalarToBigInt_le_bytes by exact Hkr. rewrite !bind_Some_eq.
  destruct (Z.eqb_spec k 0) as [Hzero|Hnz].
  { rewrite multiply_out_of_range by lia. reflexivity. }
  rewrite multiply_in_range by lia. rewrite !bind_Some_eq.
  cbv zeta. rewrite bind_assoc3, commitment_buffer;
    [|assumption|assumption|apply toRawBytes_length].
  rewrite !bind_Some_eq.
  rewrite hashToScalar_value. fold (hash_to_scalar
    (prefixHash ++ hexToBytes publicKey ++ toRawBytes (scalar_mul BASE k))).
  fold c. rewrite !bind_Some_eq.
  rewrite (scalarToBigInt_le_value (hexToBytes privateKey))
    by (apply hexToBytes_bytes || lia).
  rewrite firstn_all2 by lia. fold sec. rewrite !bind_Some_eq.
  rewrite scalarToBigInt_le_bytes by exact Hcr. rewrite !bind_Some_eq.
  pose proof (schnorr_scalar_response k c sec Hkr ltac:(lia) Hsecr) as Hs.
  cbv zeta in Hs. rewrite Hs.
  rewrite bigIntToScalar_le_bytes by lia.
  apply signature_layout; apply le_bytes_length.
Qed.

(** With a nonce that is not 0, [generateSchnorrSignature] returns the
    signature of section 4.2. *)
Lemma generateSchnorrSignature_nonce (randomBytes prefixHash : list Z)
    (publicKey privateKey : string) :
  bytes randomBytes -> length randomBytes = 64%nat ->
  le_value (firstn 32 randomBytes) mod CURVE_ORDER <> 0 ->
  length prefixHash = 32%nat ->
  String.length publicKey = 64%nat -> String.length privateKey = 64%nat ->
  generateSchnorrSignature randomBytes prefixHash publicKey privateKey
  = Some (schnorr_signature randomBytes prefixHash publicKey privateKey).
Proof.
  intros Hrb Hrl Hk Hh Hpk Hsk.
  rewrite generateSchnorrSignature_value by assumption. cbv zeta.
  destruct (Z.eqb_spec (le_value (firstn 32 randomBytes) mod CURVE_ORDER) 0);
    [contradiction|reflexivity].
Qed.

(** What [verifySchnorrSignature] answers on a signature [c || s] of
    scalars that [multiply] accepts and whose point [s * BASE + c * P] is
    [k * BASE]. *)
Lemma verifySchnorrSignature_value (prefixHash : list Z) (publicKey : string)
    (pointPub : Point) (k c s : Z) :
  length prefixHash = 32%nat -> String.length publicKey = 64%nat ->
  0 < c < CURVE_ORDER -> 0 < s < CURVE_ORDER ->
  fromHex publicKey = Some pointPub ->
  add (scalar_mul BASE s) (scalar_mul pointPub c) = scalar_mul BASE k ->
  c = hash_to_scalar (prefixHash ++ hexToBytes publicKey
                      ++ toRawBytes (scalar_mul BASE k)) ->
  verifySchnorrSignature prefixHash publicKey (le_bytes 32 c ++ le_bytes 32 s)
  = Some true.
Proof.
  intros Hh Hpk Hcr Hsr Hpub Hpoint Hc.
  unfold verifySchnorrSignature.
  rewrite length_app, !le_bytes_length. cbn [Nat.add Nat.eqb negb].
  rewrite subarray_left, subarray_right by apply le_bytes_length.
  rewrite !scalarToBigInt_le_bytes by lia. rewrite !bind_Some_eq.
  rewrite (multiply_in_range BASE s) by assumption. rewrite !bind_Some_eq.
  rewrite Hpub. rewrite !bind_Some_eq.
  rewrite (multiply_in_range pointPub c) by assumption. rewrite !bind_Some_eq.
  cbv zeta.
  rewrite Hpoint, bind_assoc3, commitment_buffer;
    [|assumption|rewrite hexToBytes_length, Hpk; reflexivity
     |apply toRawBytes_length].
  rewrite !bind_Some_eq.
  rewrite hashToScalar_value. fold (hash_to_scalar
    (prefixHash ++ hexToBytes publicKey ++ toRawBytes (scalar_mul BASE k))).
  rewrite <- Hc. rewrite !bind_Some_eq.
  rewrite forallb_same. reflexivity.
Qed.

(** For a key pair whose public key decodes to [sec * BASE], any 32-byte
    message hash and any 64 random bytes that give a nonce, a challenge
    and a response other than 0, the signature [generateSchnorrSignature]
    returns is accepted by [verifySchnorrSignature].  The curve is any
    group that satisfies [Ed25519Laws], Keccak any function that returns
    64 hex characters. *)
Theorem sign_then_verify (randomBytes prefixHash : list Z)
    (publicKey privateKey : string) :
  bytes randomBytes -> length randomBytes = 64%nat ->
  length prefixHash = 32%nat ->
  String.length publicKey = 64%nat -> String.length privateKey = 64%nat ->
  fromHex publicKey
  = Some (scalar_mul BASE (le_value (hexToBytes privateKey))) ->
  let k := le_value (firstn 32 randomBytes) mod CURVE_ORDER in
  let sec := le_value (hexToBytes privateKey) in
  let c := hash_to_scalar (prefixHash ++ hexToBytes publicKey
                           ++ toRawBytes (scalar_mul BASE k)) in
  k <> 0 -> c <> 0 -> response k c sec <> 0 ->
  exists signature,
    generateSchnorrSignature randomBytes prefixHash publicKey privateKey
      = Some signature /\
    verifySchnorrSignature prefixHash publicKey signature = Some true.
Proof.
  intros Hrb Hrl Hh Hpk Hsk Hpub k sec c Hk Hc Hs.
  pose proof CURVE_ORDER_range as HL.
  assert (Hkr : 0 <= k < CURVE_ORDER) by (apply Z.mod_pos_bound; lia).
  assert (Hcr : 0 <= c < CURVE_ORDER) by (apply Z.mod_pos_bound; lia).
  assert (Hsecr : 0 <= sec) by (apply le_value_range, hexToBytes_bytes).
  assert (Hsr : 0 <= response k c sec < CURVE_ORDER)
    by (apply Z.mod_pos_bound; lia).
  exists (le_bytes 32 c ++ le_bytes 32 (response k c sec)). split.
  - pose proof (generateSchnorrSignature_value randomBytes prefixHash
                  publicKey privateKey Hrb Hrl Hh Hpk Hsk) as Hsign.
    cbv zeta in Hsign. fold k sec c in Hsign. rewrite Hsign.
    destruct (Z.eqb_spec k 0); [contradiction|reflexivity].
  - apply (verifySchnorrSignature_value prefixHash publicKey
             (scalar_mul BASE sec) k c (response k c sec));
      try assumption; try lia; try reflexivity.
    apply commitment_rebuilt; try (assumption || lia).
    destruct (schnorr_scalar CURVE_ORDER k c sec ltac:(lia) Hkr ltac:(lia) Hsecr)
      as [_ Hsum].
    pose proof (schnorr_scalar_response k c sec Hkr ltac:(lia) Hsecr) as Hresp.
    cbv zeta in Hsum, Hresp. rewrite Hresp in Hsum. exact Hsum.
Qed.

End Signing.

(** C1.  When the 64 random bytes of the signer are zero the nonce is 0,
    [BASE.multiply(0n)] throws and [generateSchnorrSignature] returns no
    signature, whatever the hash, the keys, Keccak and the curve are: here
    on the message hash and the key pair of [CryptoScenario]. *)
Theorem generateSchnorrSignature_zero_nonce (keccak : Keccak) (curve : Ed25519) :
  scReduce (zeros 64) = Some (zeros 32) /\
  @generateSchnorrSignature keccak curve (zeros 64)
     CryptoScenario.prefix_hash CryptoScenario.public_key
     CryptoScenario.private_key = None.
Proof. split; reflexivity. Qed.

(** [verifySchnorrSignature] throws in the same way on a signature whose
    two scalars are 0. *)
Lemma verifySchnorrSignature_zero_scalars (keccak : Keccak) (curve : Ed25519) :
  @verifySchnorrSignature keccak curve CryptoScenario.prefix_hash
     CryptoScenario.public_key (zeros 64) = None.
Proof. reflexivity. Qed.

(** *** Key images *)

Section KeyImage.
Context {keccak : Keccak} {keccak_laws : KeccakLaws keccak}.
Context {curve : Ed25519}.

(** What [generateKeyImage] returns when [multiply] accepts its two
    scalars: the scalar that multiplies the base point is [hash_to_scalar]
    of the Keccak digest of the key, so the key is hashed twice. *)
Lemma generateKeyImage_value (publicKey privateKey : string) :
  String.length publicKey = 64%nat -> String.length privateKey = 64%nat ->
  hash_to_scalar (hexToBytes (keccak256 (hexToBytes publicKey))) <> 0 ->
  0 < le_value (hexToBytes privateKey) < CURVE_ORDER ->
  generateKeyImage publicKey privateKey =
  Some (bytesToHex
          (toRawBytes
             (scalar_mul
                (scalar_mul BASE
                   (hash_to_scalar
                      (hexToBytes (keccak256 (hexToBytes publicKey)))))
                (le_value (hexToBytes privateKey))))).
Proof.
  intros Hpk Hsk Hhash Hsec. pose proof CURVE_ORDER_range as HL.
  unfold generateKeyImage.
  rewrite !hexToBytes_length, Hpk, Hsk.
  change (negb (64 / 2 =? 32)%nat) with false. cbv iota.
  rewrite hashToScalar_value, bind_Some_eq.
  fold (hash_to_scalar (hexToBytes (keccak256 (hexToBytes publicKey)))).
  set (h := hash_to_scalar _) in *.
  assert (Hh : 0 <= h < CURVE_ORDER) by (apply Z.mod_pos_bound; lia).
  rewrite scalarToBigInt_le_bytes by exact Hh.
  rewrite bind_Some_eq, multiply_in_range, bind_Some_eq by lia.
  rewrite (scalarToBigInt_le_value (hexToBytes privateKey));
    [|apply hexToBytes_bytes|rewrite hexToBytes_length, Hsk; cbn; lia].
  rewrite bind_Some_eq.
  rewrite firstn_all2 by (rewrite hexToBytes_length, Hsk; cbn; lia).
  rewrite multiply_in_range by exact Hsec. reflexivity.
Qed.

End KeyImage.

(** C5.  [generateKeyImage] evaluated on the key
    [5866...66] and the private scalar 1, with Keccak-256 and any curve:
    the base point is multiplied by [hash_to_scalar(keccak256(P))], where
    the key image of the specification multiplies it by
    [hash_to_scalar(P)], and the two scalars differ. *)
Theorem generateKeyImage_hashes_twice (curve : Ed25519) :
  @generateKeyImage Keccak256.keccak curve
     CryptoScenario.base_point_key CryptoScenario.one_key =
  Some (bytesToHex (toRawBytes (scalar_mul (scalar_mul BASE
    268201257510462657348242752150272186797574167656121608053904776956807992124)
    1))) /\
  @key_image Keccak256.keccak curve
     CryptoScenario.base_point_key CryptoScenario.one_key =
  bytesToHex (toRawBytes (scalar_mul (scalar_mul BASE
    478464710279408067095152189046144052210377292169754707383786816877634505000)
    1)) /\
  478464710279408067095152189046144052210377292169754707383786816877634505000
  <> 268201257510462657348242752150272186797574167656121608053904776956807992124.
Proof.
  split; [|split; [|discriminate]].
  - rewrite (@generateKeyImage_value Keccak256.keccak keccak256_laws curve);
      [|reflexivity|reflexivity|vm_compute; discriminate
       |vm_compute; split; reflexivity].
    do 4 f_equal; vm_compute; reflexivity.
  - unfold key_image. cbv zeta. do 3 f_equal; vm_compute; reflexivity.
Qed.

(** The integers modulo the order satisfy the laws asked of the curve. *)
Lemma scalar_group_laws : Ed25519Laws ScalarGroup.curve.
Proof.
  pose proof CURVE_ORDER_range as HL.
  constructor; cbn [Point BASE scalar_mul add toRawBytes ScalarGroup.curve].
  - intros P. apply le_bytes_length.
  - intros P a b _ _. rewrite Z.mul_add_distr_l. apply Z.add_mod. lia.
  - intros P a b _ _. rewrite Z.mul_mod_idemp_l by lia. f_equal. lia.
  - intros a _. rewrite !Z.mul_1_l. apply Z.mod_mod. lia.
Qed.

Lemma sign_then_verify_example :
  exists signature,
    @generateSchnorrSignature Keccak256.keccak ScalarGroup.curve
      CryptoScenario.random_bytes CryptoScenario.prefix_hash
      CryptoScenario.public_key CryptoScenario.private_key = Some signature /\
    @verifySchnorrSignature Keccak256.keccak ScalarGroup.curve
      CryptoScenario.prefix_hash CryptoScenario.public_key signature
    = Some true.
Proof.
  apply (@sign_then_verify Keccak256.keccak keccak256_laws
           ScalarGroup.curve scalar_group_laws).
  - apply bytes_check. vm_compute. reflexivity.
  - reflexivity.
  - reflexivity.
  - reflexivity.
  - reflexivity.
  - vm_compute. reflexivity.
  - vm_compute. discriminate.
  - vm_compute. discriminate.
  - vm_compute. discriminate.
Defined.

(** In that group the two key images are different strings. *)
Lemma generateKeyImage_differs_in_scalar_group :
  @generateKeyImage Keccak256.keccak ScalarGroup.curve
     CryptoScenario.base_point_key CryptoScenario.one_key
  <> Some (@key_image Keccak256.keccak ScalarGroup.curve
             CryptoScenario.base_point_key CryptoScenario.one_key).
Proof. vm_compute. discriminate. Qed.

(** A signature checked against another message hash is refused. *)
Lemma verifySchnorrSignature_other_hash :
  (signature ← @generateSchnorrSignature Keccak256.keccak ScalarGroup.curve
      CryptoScenario.random_bytes CryptoScenario.prefix_hash
      CryptoScenario.public_key CryptoScenario.private_key;
   @verifySchnorrSignature Keccak256.keccak ScalarGroup.curve
      (1 :: tl CryptoScenario.prefix_hash) CryptoScenario.public_key signature)
  = Some false.
Proof. vm_compute. reflexivity. Qed.

End CryptoFacts.

(** ** The other varint codecs *)
Module CodecFacts.
Import Transaction VarintFacts.

Lemma alter_last {A} (f : A -> A) (bs : list A) (x : A) :
  alter f (length (bs ++ [x]) - 1)%nat (bs ++ [x]) = bs ++ [f x].
Proof.
  rewrite length_app. cbn [length].
  replace (length bs + 1 - 1)%nat with (length bs + 0)%nat by lia.
  rewrite (alter_app_r f bs [x] 0). reflexivity.
Qed.

(** Clearing the continuation bit of a byte that carries seven bits. *)
Lemma and32_clear (r : Z) :
  JS.and32 (Z.lor (Z.land r 0x7f) 0x80) 0x7f = Z.land r 0x7f.
Proof.
  pose proof (land_mask_bound r) as Hb.
  rewrite lor_continuation by lia. rewrite and32_mask by lia.
  replace (Z.land r 127 + 128) with (Z.land r 127 + 1 * 128) by lia.
  rewrite Z_mod_plus_full. apply Z.mod_small. lia.
Qed.

(** *** [writeVarintLocal] *)

Lemma writeVarintLocal_loop_ge (r : Z) (bs : list Z) :
  128 <= r ->
  StakingCodec.writeVarintLocal_loop r bs =
  StakingCodec.writeVarintLocal_loop (Z.shiftr r 7)
    (bs ++ [Z.lor (Z.land r 0x7f) 0x80]).
Proof.
  intros Hr. rewrite StakingCodec.writeVarintLocal_loop_equation_1 at 1.
  destruct (Z_lt_le_dec 0 (Z.shiftr r 7)) as [Hlt|Hle]; [reflexivity|].
  exfalso. rewrite Z.shiftr_div_pow2 in Hle by lia.
  assert (1 <= r / 2 ^ 7) by (apply Z.div_le_lower_bound; lia). lia.
Qed.

Lemma writeVarintLocal_loop_lt (r : Z) (bs : list Z) :
  r < 128 ->
  StakingCodec.writeVarintLocal_loop r bs = bs ++ [Z.lor (Z.land r 0x7f) 0x80].
Proof.
  intros Hr. rewrite StakingCodec.writeVarintLocal_loop_equation_1.
  destruct (Z_lt_le_dec 0 (Z.shiftr r 7)) as [Hlt|Hle]; [|reflexivity].
  exfalso. rewrite Z.shiftr_div_pow2 in Hlt by lia.
  assert (r / 2 ^ 7 <= 0); [|lia].
  destruct (Z_lt_le_dec r 0).
  - assert (r / 2 ^ 7 < 0) by (apply Z.div_lt_upper_bound; lia). lia.
  - rewrite Z.div_small by lia. lia.
Qed.

Lemma writeVarintLocal_loop_writeVarint (r : Z) (bs : list Z) :
  alter (fun b => JS.and32 b 0x7f)
    (length (StakingCodec.writeVarintLocal_loop r bs) - 1)%nat
    (StakingCodec.writeVarintLocal_loop r bs)
  = bs ++ writeVarint r.
Proof.
  destruct (Z_lt_le_dec r 128) as [Hlt|Hge].
  { rewrite writeVarintLocal_loop_lt, writeVarint_small by lia.
    rewrite alter_last, and32_clear. reflexivity. }
  assert (H0 : 0 <= r) by lia. clear Hge. revert bs.
  induction_below r H0 IH. intros bs.
  destruct (Z_lt_le_dec r 128) as [Hlt|Hge].
  - rewrite writeVarintLocal_loop_lt, writeVarint_small by lia.
    rewrite alter_last, and32_clear. reflexivity.
  - rewrite writeVarintLocal_loop_ge, writeVarint_large by lia.
    pose proof (shiftr7_lt r Hge).
    rewrite IH by lia. rewrite <- app_assoc. reflexivity.
Qed.

(** [writeVarintLocal] of staking.js writes, for every integer, the bytes
    that [writeVarint] of the transaction module writes. *)
Theorem writeVarintLocal_writeVarint (n : Z) :
  StakingCodec.writeVarintLocal n = Transaction.writeVarint n.
Proof.
  unfold StakingCodec.writeVarintLocal.
  apply (writeVarintLocal_loop_writeVarint n []).
Qed.

(** *** The [writeVarint] closure of [createSerializationHelpers] *)

Lemma shiftr7_zero (n : Z) : 0 <= n -> (Z.shiftr n 7 =? 0) = (n <? 128).
Proof.
  intros Hn. rewrite Z.shiftr_div_pow2 by lia. change (2 ^ 7) with 128.
  destruct (Z.ltb_spec n 128).
  - rewrite Z.div_small by lia. reflexivity.
  - apply Z.eqb_neq.
    assert (1 <= n / 128) by (apply Z.div_le_lower_bound; lia). lia.
Qed.

Lemma helper_loop_writeVarint (fuel : nat) :
  forall n bs, 0 <= n -> Z.log2 n < 7 * Z.of_nat fuel ->
  StakingCodec.writeVarint_loop fuel n bs = Some (bs ++ writeVarint n).
Proof.
  induction fuel as [|fuel IH]; intros n bs Hn Hfuel.
  - pose proof (Z.log2_nonneg n). lia.
  - cbn [StakingCodec.writeVarint_loop]. rewrite shiftr7_zero by assumption.
    destruct (Z.ltb_spec n 128) as [Hlt|Hge].
    + rewrite writeVarint_small by lia. reflexivity.
    + rewrite writeVarint_large by lia.
      pose proof (shiftr7_lt n Hge).
      rewrite IH; [rewrite <- app_assoc; reflexivity|lia|].
      rewrite Z.log2_shiftr by lia.
      assert (7 <= Z.log2 n) by (apply Z.log2_le_pow2; lia). lia.
Qed.

Lemma helper_loop_negative (fuel : nat) :
  forall n bs, n < 0 -> StakingCodec.writeVarint_loop fuel n bs = None.
Proof.
  induction fuel as [|fuel IH]; intros n bs Hn; [reflexivity|].
  cbn [StakingCodec.writeVarint_loop].
  assert (Z.shiftr n 7 < 0) by (apply Z.shiftr_neg; assumption).
  replace (Z.shiftr n 7 =? 0) with false by (symmetry; apply Z.eqb_neq; lia).
  apply IH. assumption.
Qed.

(** The [writeVarint] closure of [createSerializationHelpers] returns, for
    [n >= 0], the bytes that [writeVarint] of the transaction module
    writes, after one turn of its loop per byte; for [n < 0] its loop
    never ends. *)
Theorem helper_writeVarint_writeVarint :
  (forall n fuel, 0 <= n -> Z.log2 n < 7 * Z.of_nat fuel ->
     StakingCodec.writeVarint fuel n = Some (Transaction.writeVarint n)) /\
  (forall n fuel, n < 0 -> StakingCodec.writeVarint fuel n = None).
Proof.
  split.
  - intros n fuel Hn Hfuel. apply (helper_loop_writeVarint fuel n []); assumption.
  - intros n fuel Hn. apply helper_loop_negative. assumption.
Qed.

Lemma helper_writeVarint_writeVarint_example :
  StakingCodec.writeVarint 3 518785 = Some (Transaction.writeVarint 518785) /\
  StakingCodec.writeVarint 1000 (-1) = None.
Proof.
  destruct helper_writeVarint_writeVarint as [Hpos Hneg]. split.
  - apply Hpos; [lia|]. vm_compute. reflexivity.
  - apply Hneg. lia.
Defined.

(** *** [encodeVarint] *)

Lemma encodeVarint_loop_ge (r : Z) (bs : list Z) :
  128 <= r ->
  Wallet.encodeVarint_loop r bs =
  Wallet.encodeVarint_loop (JS.ushr32 r 7)
    (bs ++ [JS.or32 (JS.and32 r 0x7f) 0x80]).
Proof.
  intros Hr. rewrite Wallet.encodeVarint_loop_equation_1 at 1.
  destruct (Z_le_gt_dec 128 r) as [Hle|Hgt]; [reflexivity|lia].
Qed.

Lemma encodeVarint_loop_lt (r : Z) (bs : list Z) :
  r < 128 -> Wallet.encodeVarint_loop r bs = (r, bs).
Proof.
  intros Hr. rewrite Wallet.encodeVarint_loop_equation_1.
  destruct (Z_le_gt_dec 128 r) as [Hle|Hgt]; [lia|reflexivity].
Qed.

Lemma to_int32_mod (z m : Z) :
  0 < m -> (m | 2 ^ 32) -> JS.to_int32 z mod m = z mod m.
Proof.
  intros Hm [k Hk]. unfold JS.to_int32.
  rewrite (Z.mod_eq (z + 2 ^ 31) (2 ^ 32)) by lia.
  set (q := (z + 2 ^ 31) / 2 ^ 32). rewrite Hk.
  replace (z + 2 ^ 31 - k * m * q - 2 ^ 31) with (z + (- q * k) * m) by ring.
  apply Z_mod_plus_full.
Qed.

Lemma and32_low7 (r : Z) : JS.and32 r 0x7f = r mod 128.
Proof.
  unfold JS.and32. rewrite (to_int32_small 0x7f) by lia.
  change 0x7f with (Z.ones 7). rewrite Z.land_ones by lia.
  apply to_int32_mod; [lia|]. exists (2 ^ 25). reflexivity.
Qed.

Lemma or32_continuation (x : Z) : 0 <= x < 128 -> JS.or32 x 0x80 = x + 128.
Proof.
  intros Hx. unfold JS.or32. rewrite !to_int32_small by lia.
  apply lor_continuation. assumption.
Qed.

Lemma ushr32_7 (r : Z) : 0 <= r < 2 ^ 32 -> JS.ushr32 r 7 = Z.shiftr r 7.
Proof.
  intros Hr. unfold JS.ushr32. rewrite Z.mod_small by lia. reflexivity.
Qed.

Lemma writeVarint_bytes (n : Z) :
  0 <= n -> Forall (fun b => 0 <= b < 256) (writeVarint n).
Proof.
  intros Hn. induction_below n Hn IH.
  destruct (Z_lt_le_dec n 128) as [Hlt|Hge].
  - rewrite writeVarint_small by lia. constructor; [|constructor].
    pose proof (land_mask_bound n). unfold mask. lia.
  - rewrite writeVarint_large, writeVarint_head by lia.
    pose proof (Z.mod_pos_bound n 128 ltac:(lia)).
    pose proof (shiftr7_lt n Hge).
    constructor; [lia|]. apply IH; lia.
Qed.

Lemma map_mod256 (bs : list Z) :
  Forall (fun b => 0 <= b < 256) bs -> map (fun b => b mod 256) bs = bs.
Proof.
  induction 1 as [|b bs Hb _ IH]; [reflexivity|].
  cbn [map]. rewrite IH, Z.mod_small by lia. reflexivity.
Qed.

Lemma encodeVarint_loop_writeVarint (n : Z) :
  0 <= n < 2 ^ 32 ->
  forall bs r bs',
    Wallet.encodeVarint_loop n bs = (r, bs') ->
    bs' ++ [JS.and32 r 0xff] = bs ++ writeVarint n.
Proof.
  intros Hn. destruct Hn as [Hn Hlt32]. revert Hlt32.
  induction_below n Hn IH. intros Hlt32 bs r bs' Hloop.
  destruct (Z_lt_le_dec n 128) as [Hlt|Hge].
  - rewrite encodeVarint_loop_lt in Hloop by lia. injection Hloop as <- <-.
    rewrite writeVarint_small by lia. unfold mask.
    rewrite land_mask by lia. rewrite Z.mod_small by lia.
    f_equal. f_equal. unfold JS.and32. rewrite !to_int32_small by lia.
    change 0xff with (Z.ones 8). rewrite Z.land_ones by lia.
    apply Z.mod_small. lia.
  - rewrite encodeVarint_loop_ge in Hloop by lia.
    pose proof (shiftr7_lt n Hge).
    rewrite ushr32_7 in Hloop by lia.
    pose proof (IH (Z.shiftr n 7) ltac:(lia) ltac:(lia) ltac:(lia) _ _ _ Hloop)
      as Hrec.
    rewrite Hrec, (writeVarint_large n), (writeVarint_head n) by lia.
    rewrite and32_low7. rewrite or32_continuation
      by (apply Z.mod_pos_bound; lia).
    rewrite <- app_assoc. reflexivity.
Qed.

(** [encodeVarint] of index.ts, which works on Numbers with 32-bit
    operations, writes for every [n] below [2^32] the bytes that
    [writeVarint] of the transaction module writes. *)
Theorem encodeVarint_writeVarint (n : Z) :
  0 <= n < 2 ^ 32 -> Wallet.encodeVarint n = Transaction.writeVarint n.
Proof.
  intros Hn. unfold Wallet.encodeVarint.
  destruct (Wallet.encodeVarint_loop n []) as [r bs'] eqn:Hloop.
  rewrite (encodeVarint_loop_writeVarint n Hn [] r bs' Hloop).
  apply map_mod256. apply writeVarint_bytes. lia.
Qed.

Lemma encodeVarint_writeVarint_example :
  Wallet.encodeVarint 0x198004 = Transaction.writeVarint 0x198004.
Proof. apply encodeVarint_writeVarint. lia. Defined.

(** *** [readVarint] *)

Lemma land_continuation (b : Z) :
  0 <= b < 256 -> (Z.land b 0x80 =? 0) = (b <? 128).
Proof.
  intros Hb. apply Bool.eqb_prop.
  apply (byte_forall (fun b => Bool.eqb (Z.land b 0x80 =? 0) (b <? 128)));
    [|assumption].
  vm_compute. reflexivity.
Qed.

Lemma readVarint_loop_writeVarint (n : Z) :
  0 <= n ->
  forall value shift bytesRead rest,
    0 <= shift -> 0 <= value < 2 ^ shift ->
    StakingCodec.readVarint_loop (writeVarint n ++ rest) value shift bytesRead =
    (value + n * 2 ^ shift, bytesRead + Z.of_nat (length (writeVarint n))).
Proof.
  intros Hn. induction_below n Hn IH.
  intros value shift bytesRead rest Hs Hv.
  assert (Hp : 0 < 2 ^ shift) by (apply Z.pow_pos_nonneg; lia).
  destruct (Z_lt_le_dec n 128) as [Hlt|Hge].
  - rewrite writeVarint_small by lia. unfold mask.
    rewrite land_mask, Z.mod_small by lia.
    cbn [app StakingCodec.readVarint_loop length].
    rewrite land_continuation by lia.
    replace (n <? 128) with true by (symmetry; apply Z.ltb_lt; lia).
    rewrite land_mask, Z.mod_small by lia.
    rewrite Z.shiftl_mul_pow2, lor_shifted by lia. f_equal.
  - rewrite writeVarint_large by lia. rewrite writeVarint_head by lia.
    pose proof (Z.mod_pos_bound n 128 ltac:(lia)) as Hm.
    pose proof (shiftr7_lt n Hge) as Hsh.
    pose proof (Z.div_mod n 128 ltac:(lia)) as Hdm.
    assert (Hq : Z.shiftr n 7 = n / 128)
      by (rewrite Z.shiftr_div_pow2 by lia; reflexivity).
    assert (Hp7 : 2 ^ (shift + 7) = 128 * 2 ^ shift)
      by (rewrite Z.pow_add_r by lia; lia).
    cbn [app StakingCodec.readVarint_loop length].
    rewrite land_continuation by lia.
    replace (n mod 128 + 128 <? 128) with false by (symmetry; apply Z.ltb_ge; lia).
    rewrite land_mask by lia.
    replace ((n mod 128 + 128) mod 128) with (n mod 128).
    2:{ replace (n mod 128 + 128) with (n mod 128 + 1 * 128) by lia.
        rewrite Z_mod_plus_full, Z.mod_mod by lia. reflexivity. }
    rewrite Z.shiftl_mul_pow2, lor_shifted by lia.
    rewrite (IH (Z.shiftr n 7)); try lia; try nia.
    f_equal; [rewrite Hq; nia | lia].
Qed.

(** [readVarint] of staking.js, called at the offset where a varint
    written by [writeVarint] starts, returns the number that was written
    and the count of its bytes, whatever bytes come before and after; this
    holds for every [n] below [2^53], where [Number(value)] is exact. *)
Theorem readVarint_writeVarint (pre rest : list Z) (n : Z) :
  0 <= n < 2 ^ 53 ->
  StakingCodec.readVarint (pre ++ Transaction.writeVarint n ++ rest) (length pre)
  = (Some n, Z.of_nat (length (Transaction.writeVarint n))).
Proof.
  intros Hn. unfold StakingCodec.readVarint.
  rewrite drop_app_length.
  rewrite (readVarint_loop_writeVarint n ltac:(lia) 0 0 0 rest) by lia.
  replace (0 + n * 2 ^ 0) with n by lia.
  unfold JS.number_of_bigint.
  replace (Z.abs n <? 2 ^ 53) with true by (symmetry; apply Z.ltb_lt; lia).
  reflexivity.
Qed.

Lemma readVarint_writeVarint_example :
  StakingCodec.readVarint
    ([0x01] ++ Transaction.writeVarint 518785 ++ [0x02; 0x02]) 1
  = (Some 518785, 3).
Proof. apply (readVarint_writeVarint [0x01] [0x02; 0x02] 518785). lia. Defined.

End CodecFacts.

(** ** The other balance figures *)
Module BalanceFacts.
Import WalletSync Balance TrackerFacts.

(** *** [isOutputSpendable] *)

(** [isOutputSpendable] never reads [blockTimestamp]; an output is not
    spendable before [MATURITY_BLOCKS] blocks have passed; and an output
    that is spendable stays spendable as the chain and the clock advance. *)
Theorem isOutputSpendable_monotone
    (now now' blockHeight unlockTime blockTimestamp blockTimestamp' : Z)
    (currentHeight currentHeight' : Z) :
  isOutputSpendable now blockHeight unlockTime blockTimestamp currentHeight = true ->
  currentHeight <= currentHeight' -> now <= now' ->
  blockHeight + Config.MATURITY_BLOCKS <= currentHeight /\
  isOutputSpendable now' blockHeight unlockTime blockTimestamp' currentHeight'
  = true.
Proof.
  unfold isOutputSpendable, Config.MATURITY_BLOCKS,
    Config.UNLOCK_TIME_TIMESTAMP_THRESHOLD.
  intros H Hh Hnow.
  destruct (Z.leb_spec blockHeight (currentHeight - 10)) as [Hm|Hm];
    cbn [negb] in H; [|discriminate].
  split; [lia|].
  destruct (Z.leb_spec blockHeight (currentHeight' - 10)); [|lia].
  cbn [negb].
  destruct (Z.eqb_spec unlockTime 0); [reflexivity|].
  destruct (Z.ltb_spec unlockTime 500000000).
  - apply Z.geb_le. apply Z.geb_le in H. lia.
  - apply Z.geb_le. apply Z.geb_le in H. lia.
Qed.

Lemma isOutputSpendable_monotone_example :
  500 + Config.MATURITY_BLOCKS <= 1000 /\
  isOutputSpendable 1700000001 500 900 0 1001 = true.
Proof.
  apply (isOutputSpendable_monotone 1700000000 1700000001 500 900 7 0 1000 1001);
    [vm_compute; reflexivity|lia|lia].
Defined.

(** *** Sums over the outputs of a context *)

Lemma total_amount_split (P Q : WalletOutput.t -> bool)
    (m : gmap string WalletOutput.t) :
  total_amount P m =
  total_amount (fun o => P o && Q o) m
  + total_amount (fun o => P o && negb (Q o)) m.
Proof.
  induction m as [|k o m Hk IH] using map_ind.
  - rewrite !total_amount_empty. reflexivity.
  - rewrite !total_amount_insert by assumption.
    destruct (P o), (Q o); cbn [negb andb]; lia.
Qed.

Lemma sum_amounts_acc (l : list WalletOutput.t) (a : Z) :
  fold_left (fun sum output => sum + WalletOutput.amount output) l a
  = a + sum_amounts l.
Proof.
  unfold sum_amounts. revert a.
  induction l as [|o l IH]; intros a; cbn [fold_left]; [lia|].
  rewrite IH, (IH (0 + _)). lia.
Qed.

Lemma sum_amounts_cons (o : WalletOutput.t) (l : list WalletOutput.t) :
  sum_amounts (o :: l) = WalletOutput.amount o + sum_amounts l.
Proof. unfold sum_amounts at 1. cbn [fold_left]. apply sum_amounts_acc. Qed.

(** The sum over the outputs a filter selects from [getOutputs()]. *)
Lemma sum_amounts_filter (P : WalletOutput.t -> bool) (c : ProcessingContext) :
  sum_amounts (List.filter P (getOutputs c)) = total_amount P (outputs c).
Proof.
  unfold getOutputs, total_amount. rewrite map_fold_foldr.
  induction (map_to_list (outputs c)) as [|[k o] l IH]; [reflexivity|].
  cbn [fmap list_fmap snd List.filter foldr uncurry].
  rewrite <- IH. destruct (P o); [|reflexivity].
  rewrite sum_amounts_cons. lia.
Qed.

Lemma filter_filter {A} (f g : A -> bool) (l : list A) :
  List.filter f (List.filter g l) = List.filter (fun x => g x && f x) l.
Proof.
  induction l as [|x l IH]; [reflexivity|].
  cbn [List.filter]. destruct (g x); cbn [andb List.filter]; rewrite IH;
    reflexivity.
Qed.

Lemma getStakingLockedBalance_total (now : Z) (c : ProcessingContext) :
  getStakingLockedBalance now c =
  total_amount
    (fun o => unspent o && negb (spendable_now now (currentHeight c) o)
              && staking_origin (stakingTxHashes c) o)
    (outputs c).
Proof.
  unfold getStakingLockedBalance.
  apply (map_fold_weak_ind (fun r m => r = total_amount _ m)).
  - rewrite total_amount_empty. reflexivity.
  - intros k o m r Hk ->. rewrite total_amount_insert by assumption.
    unfold getStakingLockedBalance_step, unspent, spendable_now, staking_origin.
    destruct (JS.truthy (WalletOutput.spentHeight o)); cbn [negb andb];
      [reflexivity|].
    destruct (flag (WalletOutput.isStaking o) || _);
      destruct (isOutputSpendable now _ _ 0 _); reflexivity.
Qed.

(** [getStakingLockedBalance(ctx)] is the [stakingLocked] figure of
    [recalculateBalances(ctx)]. *)
Theorem getStakingLockedBalance_recalculateBalances (now : Z)
    (c : ProcessingContext) :
  getStakingLockedBalance now c = stakingLocked (recalculateBalances now c).
Proof.
  destruct (recalculateBalances_buckets now c) as (_ & _ & Hs).
  rewrite Hs. apply getStakingLockedBalance_total.
Qed.

(** *** Pruning spent outputs *)

Lemma delete_where_insert `{Countable K} {V : Type} (cond : K -> V -> bool)
    (m : gmap K V) (k : K) (v : V) :
  m !! k = None ->
  delete_where cond (<[k := v]> m) =
  if cond k v then delete_where cond m else <[k := v]> (delete_where cond m).
Proof.
  intros Hk. apply map_eq. intros j.
  rewrite delete_where_lookup.
  destruct (decide (j = k)) as [->|Hne].
  - rewrite lookup_insert_eq. destruct (cond k v).
    + rewrite delete_where_lookup, Hk. reflexivity.
    + rewrite lookup_insert_eq. reflexivity.
  - rewrite lookup_insert_ne by congruence.
    destruct (cond k v).
    + rewrite delete_where_lookup. reflexivity.
    + rewrite lookup_insert_ne by congruence.
      rewrite delete_where_lookup. reflexivity.
Qed.

Lemma total_amount_delete_where (P : WalletOutput.t -> bool)
    (cond : string -> WalletOutput.t -> bool)
    (m : gmap string WalletOutput.t) :
  (forall k o, cond k o = true -> P o = false) ->
  total_amount P (delete_where cond m) = total_amount P m.
Proof.
  intros Hc. induction m as [|k o m Hk IH] using map_ind.
  - reflexivity.
  - rewrite delete_where_insert by assumption.
    rewrite (total_amount_insert P m k o) by assumption.
    destruct (cond k o) eqn:Hcond.
    + rewrite IH, (Hc k o Hcond). reflexivity.
    + rewrite total_amount_insert, IH; [reflexivity|].
      rewrite delete_where_lookup, Hk. reflexivity.
Qed.

Lemma Balances_eq (b1 b2 : Balances) :
  available b1 = available b2 -> locked b1 = locked b2 ->
  stakingLocked b1 = stakingLocked b2 -> b1 = b2.
Proof. destruct b1, b2. cbn. intros -> -> ->. reflexivity. Qed.

(** [pruneSpentInputs] deletes no output the balance code takes as unspent,
    leaves the outputs it keeps as they are, and so changes none of the
    three figures of [recalculateBalances]. *)
Theorem pruneSpentInputs_keeps_balances (now h : Z) (c : ProcessingContext) :
  let c' :=
    mkContext (publicKeys c) (currentHeight c)
      (Processing.pruneSpentInputs h (outputs c)) (spends c)
      (stakingTxHashes c) in
  (forall k o, outputs c !! k = Some o -> unspent o = true ->
               outputs c' !! k = Some o) /\
  (forall k o, outputs c' !! k = Some o -> outputs c !! k = Some o) /\
  recalculateBalances now c' = recalculateBalances now c.
Proof.
  intros c'.
  assert (Hcond : forall (k : string) o,
            match WalletOutput.spentHeight o with
            | Some s => negb (s =? 0) && (s <? h - Processing.PRUNE_INTERVAL)
            | None => false
            end = true -> unspent o = false).
  { intros k o. unfold unspent, JS.truthy.
    destruct (WalletOutput.spentHeight o) as [s|]; [|discriminate].
    destruct (s =? 0); [discriminate|reflexivity]. }
  split; [|split].
  - intros k o Hk Hu. cbn [c' outputs]. unfold Processing.pruneSpentInputs.
    apply delete_where_Some. split; [assumption|].
    specialize (Hcond k o). destruct (match WalletOutput.spentHeight o with
                                      | Some _ => _ | None => _ end);
      [rewrite Hcond in Hu by reflexivity; discriminate|reflexivity].
  - intros k o Hk. cbn [c' outputs] in Hk.
    unfold Processing.pruneSpentInputs in Hk.
    apply delete_where_Some in Hk. tauto.
  - destruct (recalculateBalances_buckets now c) as (Ha & Hl & Hs).
    destruct (recalculateBalances_buckets now c') as (Ha' & Hl' & Hs').
    cbn [c' outputs stakingTxHashes currentHeight] in Ha', Hl', Hs'.
    unfold Processing.pruneSpentInputs in Ha', Hl', Hs'.
    rewrite total_amount_delete_where in Ha', Hl', Hs'.
    + apply Balances_eq; congruence.
    + intros k o Hc. rewrite (Hcond k o Hc). reflexivity.
    + intros k o Hc. rewrite (Hcond k o Hc). reflexivity.
    + intros k o Hc. rewrite (Hcond k o Hc). reflexivity.
Qed.

End BalanceFacts.

(** ** Pruning checkpoints and synced blocks *)
Module PruningFacts.
Import WalletSync Processing.

Lemma insert_height_perm (h : Z) (s : list Z) :
  Permutation (insert_height h s) (h :: s).
Proof.
  induction s as [|x s IH]; [reflexivity|].
  cbn [insert_height]. destruct (x <? h); [reflexivity|].
  rewrite IH. apply perm_swap.
Qed.

Lemma fold_insert_height_perm (l acc : list Z) :
  Permutation (fold_left (fun sorted h => insert_height h sorted) l acc)
    (l ++ acc).
Proof.
  revert acc. induction l as [|x l IH]; intros acc; [reflexivity|].
  cbn [fold_left app]. rewrite IH, insert_height_perm.
  symmetry. apply Permutation_middle.
Qed.

Lemma sort_heights_perm (l : list Z) : Permutation (sort_heights l) l.
Proof.
  unfold sort_heights. rewrite fold_insert_height_perm, app_nil_r. reflexivity.
Qed.

Lemma insert_height_decreasing (h : Z) (s : list Z) :
  decreasing s -> ~ In h s -> decreasing (insert_height h s).
Proof.
  induction s as [|x s IH]; intros Hs Hh.
  - cbn. split; [intros ? []|exact I].
  - cbn [insert_height]. destruct Hs as [Hx Hs].
    destruct (Z.ltb_spec x h) as [Hlt|Hge].
    + split; [|split; assumption].
      intros y [<-|Hy]; [assumption|]. specialize (Hx y Hy). lia.
    + assert (h <> x) by (intros ->; apply Hh; left; reflexivity).
      split.
      * intros y Hy.
        apply (Permutation_in _ (insert_height_perm h s)) in Hy.
        destruct Hy as [<-|Hy]; [lia|apply Hx; assumption].
      * apply IH; [assumption|]. intros Hin. apply Hh. right. assumption.
Qed.

Lemma fold_insert_height_decreasing (l acc : list Z) :
  decreasing acc -> List.NoDup (l ++ acc) ->
  decreasing (fold_left (fun sorted h => insert_height h sorted) l acc).
Proof.
  revert acc. induction l as [|x l IH]; intros acc Hacc Hnd; [assumption|].
  cbn [fold_left]. cbn [app] in Hnd. apply NoDup_cons_iff in Hnd.
  destruct Hnd as [Hx Hnd]. apply IH.
  - apply insert_height_decreasing; [assumption|].
    intros Hin. apply Hx. apply in_or_app. right. assumption.
  - apply (Permutation_NoDup (l := x :: l ++ acc)).
    + rewrite insert_height_perm. apply Permutation_middle.
    + apply NoDup_cons_iff. split; assumption.
Qed.

Lemma sort_heights_decreasing (l : list Z) :
  List.NoDup l -> decreasing (sort_heights l).
Proof.
  intros Hnd. apply fold_insert_height_decreasing; [exact I|].
  rewrite app_nil_r. assumption.
Qed.

Lemma above_perm (k : Z) (l l' : list Z) :
  Permutation l l' -> above k l = above k l'.
Proof.
  unfold above. induction 1 as [|x l l' _ IH|x y l|l l' l'' _ IH1 _ IH2].
  - reflexivity.
  - cbn [List.filter]. destruct (k <? x); cbn [length]; rewrite IH; reflexivity.
  - cbn [List.filter]. destruct (k <? x), (k <? y); reflexivity.
  - congruence.
Qed.

(** In a strictly decreasing list, what comes after the first [n] places
    is what has at least [n] heights above it. *)
Lemma skipn_decreasing (s : list Z) :
  decreasing s ->
  forall n x, In x (skipn n s) <-> In x s /\ (n <= above x s)%nat.
Proof.
  induction s as [|a s IH]; intros Hs n x.
  - rewrite skipn_nil. cbn. tauto.
  - destruct Hs as [Ha Hs]. destruct n as [|n].
    + cbn [skipn]. split; [intros H; split; [assumption|lia]|tauto].
    + cbn [skipn]. rewrite (IH Hs n x). unfold above. cbn [List.filter].
      split.
      * intros [Hx Hn]. split; [right; assumption|].
        specialize (Ha x Hx).
        replace (x <? a) with true by (symmetry; apply Z.ltb_lt; lia).
        cbn [length]. unfold above in Hn. lia.
      * intros [[<-|Hx] Hn].
        -- exfalso. rewrite Z.ltb_irrefl in Hn.
           assert (Hnil : List.filter (fun j => a <? j) s = []).
           { clear -Ha. induction s as [|y s IHs]; [reflexivity|].
             cbn [List.filter].
             replace (a <? y) with false
               by (symmetry; apply Z.ltb_ge; specialize (Ha y (or_introl eq_refl)); lia).
             apply IHs. intros z Hz. apply Ha. right. assumption. }
           rewrite Hnil in Hn. cbn in Hn. lia.
        -- split; [assumption|]. specialize (Ha x Hx).
           replace (x <? a) with true in Hn by (symmetry; apply Z.ltb_lt; lia).
           cbn [length] in Hn. unfold above. lia.
Qed.

Lemma fold_delete_kept {V : Type} (c : Z -> bool) (ds : list Z)
    (m : gmap Z V) (k : Z) :
  ~ In k ds \/ c k = false ->
  fold_left (fun m h => if c h then delete h m else m) ds m !! k = m !! k.
Proof.
  revert m. induction ds as [|d ds IH]; intros m Hk; [reflexivity|].
  cbn [fold_left]. rewrite IH.
  - destruct (c d) eqn:Hc; [|reflexivity].
    apply lookup_delete_ne. intros ->.
    destruct Hk as [Hk|Hk]; [apply Hk; left; reflexivity|congruence].
  - destruct Hk as [Hk|Hk]; [left|right; assumption].
    intros Hin. apply Hk. right. assumption.
Qed.

Lemma fold_delete_gone {V : Type} (c : Z -> bool) (ds : list Z)
    (m : gmap Z V) (k : Z) :
  In k ds -> c k = true ->
  fold_left (fun m h => if c h then delete h m else m) ds m !! k = None.
Proof.
  revert m. induction ds as [|d ds IH]; intros m Hin Hc; [destruct Hin|].
  cbn [fold_left]. destruct Hin as [->|Hin].
  - rewrite Hc.
    destruct (in_dec Z.eq_dec k ds) as [Hin|Hout].
    + apply IH; assumption.
    + rewrite fold_delete_kept by (left; assumption).
      apply lookup_delete_eq.
  - apply IH; assumption.
Qed.

Lemma keys_In {V : Type} (m : gmap Z V) (k : Z) :
  In k (map_to_list m).*1 <-> is_Some (m !! k).
Proof.
  rewrite <- list_elem_of_In, list_elem_of_fmap. split.
  - intros [[j v] [-> Hin]]. apply elem_of_map_to_list in Hin. eauto.
  - intros [v Hv]. exists (k, v). split; [reflexivity|].
    apply elem_of_map_to_list. assumption.
Qed.

(** What is left after the loop [for (i = n; i < sortedHeights.length; i++)
    if (c(height)) delete(height)]. *)
Lemma prune_lookup {V : Type} (c : Z -> bool) (n : nat) (m : gmap Z V)
    (k : Z) :
  fold_left (fun m h => if c h then delete h m else m)
    (skipn n (sort_heights (map_to_list m).*1)) m !! k
  = if negb (c k) || (heights_above k m <? n)%nat then m !! k else None.
Proof.
  set (keys := (map_to_list m).*1).
  assert (Hnd : List.NoDup keys)
    by (apply NoDup_ListNoDup, (NoDup_fst_map_to_list m)).
  pose proof (skipn_decreasing _ (sort_heights_decreasing keys Hnd) n k) as Hskip.
  rewrite (above_perm k _ _ (sort_heights_perm keys)) in Hskip.
  change (heights_above k m) with (above k keys).
  assert (Hin : In k (sort_heights keys) <-> is_Some (m !! k)).
  { rewrite <- keys_In. split; apply Permutation_in;
      [apply sort_heights_perm|symmetry; apply sort_heights_perm]. }
  destruct (c k) eqn:Hc; cbn [negb orb].
  - destruct (Nat.ltb_spec (above k keys) n) as [Hlt|Hge].
    + apply fold_delete_kept. left. rewrite Hskip. intros [_ ?]. lia.
    + destruct (m !! k) as [v|] eqn:Hk.
      * apply fold_delete_gone; [|assumption].
        apply Hskip. split; [apply Hin; eauto|assumption].
      * rewrite fold_delete_kept; [assumption|].
        left. rewrite Hskip, Hin. intros [[? ?] _]. discriminate.
  - apply fold_delete_kept. right. assumption.
Qed.

(** [pruneCheckpoints] keeps a checkpoint, with its hash, when its height
    is a multiple of 5000 or fewer than 50 checkpoints lie above it, and
    deletes every other one. *)
Theorem pruneCheckpoints_lookup (m : gmap Z string) (k : Z) :
  pruneCheckpoints m !! k =
  if (Z.rem k 5000 =? 0) || (heights_above k m <? 50)%nat then m !! k
  else None.
Proof.
  unfold pruneCheckpoints, LAST_KNOWN_BLOCK_HASHES_SIZE.
  rewrite (prune_lookup (fun h => negb (Z.rem h 5000 =? 0)) 50 m k).
  rewrite negb_involutive. reflexivity.
Qed.

(** [pruneSyncedBlocks] keeps a block when fewer than 1000 synced blocks
    lie above it, and deletes every other one. *)
Theorem pruneSyncedBlocks_lookup (m : gmap Z SyncedBlockInfo.t) (k : Z) :
  pruneSyncedBlocks m !! k =
  if (heights_above k m <? 1000)%nat then m !! k else None.
Proof.
  unfold pruneSyncedBlocks.
  apply (prune_lookup (fun _ => true) 1000 m k).
Qed.

End PruningFacts.

(** ** More on fork rollback *)
Module ForkFacts.
Import WalletSync TrackerFacts.

(** [handleFork(h)] leaves every output, spend, synced block and
    checkpoint below [h] as it was, stores nothing that was not stored
    before, and leaves the key and staking-hash sets as they are: a
    staking hash recorded from a block that is rolled back stays. *)
Theorem handleFork_keeps_below (h : Z) (t : Tracker) :
  let t' := handleFork h t in
  (forall k o, outputs (ctx t') !! k = Some o <->
     outputs (ctx t) !! k = Some o /\ WalletOutput.blockHeight o < h) /\
  (forall k s, spends (ctx t') !! k = Some s <->
     spends (ctx t) !! k = Some s /\ WalletSpend.blockHeight s < h) /\
  (forall height b, syncedBlocks t' !! height = Some b <->
     syncedBlocks t !! height = Some b /\ height < h) /\
  (forall height hash, blockCheckpoints t' !! height = Some hash <->
     blockCheckpoints t !! height = Some hash /\ height < h) /\
  publicKeys (ctx t') = publicKeys (ctx t) /\
  stakingTxHashes (ctx t') = stakingTxHashes (ctx t).
Proof.
  cbn [handleFork ctx outputs spends syncedBlocks blockCheckpoints
       publicKeys stakingTxHashes].
  repeat split.
  all: try match goal with
           | H : delete_where _ _ !! _ = Some _ |- _ =>
               apply delete_where_Some in H; destruct H as [Hk Hc];
               first [assumption | lia]
           end.
  all: intros [Hk Hlt]; apply delete_where_Some; split; [assumption|lia].
Qed.

Lemma delete_where_absorbs `{Countable K} {V : Type}
    (c1 c2 : K -> V -> bool) (m : gmap K V) :
  (forall k v, c2 k v = true -> c1 k v = true) ->
  delete_where c1 (delete_where c2 m) = delete_where c1 m.
Proof.
  intros Himp. apply map_eq. intros k.
  rewrite !delete_where_lookup.
  destruct (m !! k) as [v|]; [|reflexivity].
  destruct (c2 k v) eqn:H2; [rewrite (Himp k v H2)|]; reflexivity.
Qed.

(** A rollback to [h1] after a rollback to [h2 >= h1] leaves the tracker
    as the rollback to [h1] alone does; so [handleFork] done twice for the
    same height is [handleFork] done once. *)
Theorem handleFork_absorbs (h1 h2 : Z) (t : Tracker) :
  h1 <= h2 -> handleFork h1 (handleFork h2 t) = handleFork h1 t.
Proof.
  intros Hle. unfold handleFork.
  cbn [ctx outputs spends syncedBlocks blockCheckpoints publicKeys
       stakingTxHashes].
  rewrite !delete_where_absorbs; [reflexivity|..].
  all: intros k v Hc; lia.
Qed.

Lemma handleFork_absorbs_example :
  handleFork 101 (handleFork 102 Scenario.spent_in_block_102)
  = handleFork 101 Scenario.spent_in_block_102.
Proof. apply handleFork_absorbs. lia. Defined.

End ForkFacts.

(** ** More on crypto.js *)
Module CryptoMoreFacts.
Import Crypto CryptoFacts.

(** *** Hex strings *)

Lemma lower_pair_check :
  forallb
    (fun c1 =>
       forallb
         (fun c2 =>
            String.eqb
              (byteToHex
                 (toUint8 (parseInt16 (String c1 (String c2 EmptyString)))))
              (String c1 (String c2 EmptyString)))
         (String.list_ascii_of_string "0123456789abcdef"))
    (String.list_ascii_of_string "0123456789abcdef") = true.
Proof. vm_compute. reflexivity. Qed.

Lemma lower_pair (c1 c2 : ascii) :
  Hex.lower_digit c1 = true -> Hex.lower_digit c2 = true ->
  byteToHex (toUint8 (parseInt16 (String c1 (String c2 EmptyString))))
  = String c1 (String c2 EmptyString).
Proof.
  unfold Hex.lower_digit. intros H1 H2.
  apply existsb_exists in H1 as [d1 [Hd1 He1]].
  apply existsb_exists in H2 as [d2 [Hd2 He2]].
  apply Ascii.eqb_eq in He1, He2. subst d1 d2.
  pose proof lower_pair_check as Hc. rewrite forallb_forall in Hc.
  specialize (Hc c1 Hd1). rewrite forallb_forall in Hc.
  specialize (Hc c2 Hd2). apply String.eqb_eq. exact Hc.
Qed.

Lemma bytesToHex_cons (b : Z) (bs : list Z) :
  bytesToHex (b :: bs) = String.append (byteToHex b) (bytesToHex bs).
Proof. reflexivity. Qed.

Lemma bytesToHex_hexToBytes (n : nat) :
  forall s, String.length s = (2 * n)%nat ->
  forallb Hex.lower_digit (String.list_ascii_of_string s) = true ->
  bytesToHex (hexToBytes s) = s.
Proof.
  induction n as [|n IH]; intros s Hlen Hall.
  - destruct s; [reflexivity|discriminate].
  - destruct s as [|c1 [|c2 rest]]; try (cbn in Hlen; lia).
    cbn [String.list_ascii_of_string forallb] in Hall.
    apply andb_prop in Hall as [H1 Hall]. apply andb_prop in Hall as [H2 Hall].
    rewrite hexToBytes_pair, bytesToHex_cons, lower_pair by assumption.
    cbn [String.append]. rewrite IH; [reflexivity| |assumption].
    cbn [String.length] in Hlen. lia.
Qed.

(** [hexToBytes] and [bytesToHex] are inverse to each other: on every
    byte array in one direction, and in the other on the strings
    [bytesToHex] can write, those with an even number of characters
    [0-9a-f]. *)
Theorem hex_round_trip :
  (forall bs, bytes bs -> hexToBytes (bytesToHex bs) = bs) /\
  (forall s, Hex.lower s -> bytesToHex (hexToBytes s) = s).
Proof.
  split.
  - apply hexToBytes_bytesToHex.
  - intros s [Heven Hall]. apply Nat.even_spec in Heven as [n Hn].
    apply (bytesToHex_hexToBytes n); assumption.
Qed.

Lemma hex_round_trip_example :
  hexToBytes (bytesToHex [0; 255; 16]) = [0; 255; 16] /\
  bytesToHex (hexToBytes "00ff10") = "00ff10"%string.
Proof.
  destruct hex_round_trip as [Hb Hs]. split.
  - apply Hb. apply bytes_check. reflexivity.
  - apply Hs. split; reflexivity.
Defined.

(** *** Scalars *)

Lemma le_bytes_le_value (bs : list Z) :
  bytes bs -> le_bytes (length bs) (le_value bs) = bs.
Proof.
  induction 1 as [|b bs Hb _ IH]; [reflexivity|].
  cbn [length le_bytes le_value].
  replace (b + 256 * le_value bs) with (b + le_value bs * 256) by lia.
  rewrite Z_mod_plus_full, Z_div_plus_full by lia.
  rewrite Z.mod_small, Z.div_small by lia. rewrite Z.add_0_l.
  rewrite IH. reflexivity.
Qed.

(** [scalarToBigInt] and [bigIntToScalar] are inverse to each other on the
    numbers below [2^256] and the 32-byte arrays; [scalarToBigInt] throws
    on a shorter array, and [bigIntToScalar] always writes 32 bytes. *)
Theorem scalar_round_trip :
  (forall x, 0 <= x < 2 ^ 256 -> scalarToBigInt (bigIntToScalar x) = Some x) /\
  (forall bs, bytes bs -> length bs = 32%nat ->
     exists x, scalarToBigInt bs = Some x /\ 0 <= x < 2 ^ 256 /\
               bigIntToScalar x = bs) /\
  (forall bs, (length bs < 32)%nat -> scalarToBigInt bs = None) /\
  (forall x, length (bigIntToScalar x) = 32%nat).
Proof.
  split; [apply scalarToBigInt_bigIntToScalar|]. split; [|split].
  - intros bs Hb Hlen. exists (le_value bs).
    pose proof (le_value_range bs Hb) as Hr. rewrite Hlen in Hr.
    split; [|split].
    + rewrite scalarToBigInt_le_value by (assumption || lia).
      rewrite firstn_all2 by lia. reflexivity.
    + change (256 ^ Z.of_nat 32) with (2 ^ 256) in Hr. exact Hr.
    + rewrite bigIntToScalar_le_bytes by lia.
      rewrite <- Hlen. apply le_bytes_le_value. assumption.
  - intros bs Hlen. unfold scalarToBigInt.
    replace (length bs <? 32)%nat with true
      by (symmetry; apply Nat.ltb_lt; assumption).
    reflexivity.
  - intros x. unfold bigIntToScalar. rewrite length_map, length_seq.
    reflexivity.
Qed.

Lemma scalar_round_trip_example :
  scalarToBigInt (bigIntToScalar (2 ^ 255 + 19)) = Some (2 ^ 255 + 19) /\
  scalarToBigInt [1; 2; 3] = None.
Proof.
  destruct scalar_round_trip as (Hx & _ & Hshort & _). split.
  - apply Hx. lia.
  - apply Hshort. cbn. lia.
Defined.

Lemma zeros_zero (n : nat) : Forall (fun b => b = 0) (zeros n).
Proof. apply Forall_forall. intros x Hx. apply list_elem_of_In in Hx.
       apply repeat_spec in Hx. assumption. Qed.

Lemma le_value_zero (z : list Z) : Forall (fun b => b = 0) z -> le_value z = 0.
Proof.
  induction 1 as [|b z Hb _ IH]; [reflexivity|].
  cbn [le_value]. rewrite Hb, IH. reflexivity.
Qed.

Lemma le_value_take_padded (n : nat) (input z : list Z) :
  Forall (fun b => b = 0) z ->
  le_value (firstn n (input ++ z)) = le_value (firstn n input).
Proof.
  intros Hz. rewrite firstn_app, le_value_app.
  rewrite (le_value_zero (firstn _ z)) by (apply Forall_take; assumption).
  lia.
Qed.

(** [scReduce] returns, for a byte array of any length, the 32-byte
    little-endian scalar below the curve order that the first 32 bytes of
    the array reduce to; the bytes after them are not read. *)
Theorem scReduce_first_half (input : list Z) :
  bytes input ->
  let scalar := le_value (firstn 32 input) mod CURVE_ORDER in
  scReduce input = Some (le_bytes 32 scalar) /\ 0 <= scalar < CURVE_ORDER.
Proof.
  intros Hb scalar. pose proof CURVE_ORDER_range as HL.
  split; [|apply Z.mod_pos_bound; lia].
  unfold scReduce, scalar.
  destruct (Nat.ltb_spec (length input) 64) as [Hlt|Hge].
  - rewrite typed_set_fits by (rewrite zeros_length; lia).
    rewrite take_0. cbn [app Nat.add].
    rewrite scReduce32_value.
    + rewrite le_value_take_padded; [reflexivity|].
      apply Forall_drop, zeros_zero.
    + apply bytes_app; [assumption|].
      apply Forall_drop, bytes_zeros.
    + rewrite length_app, length_drop, zeros_length. lia.
  - unfold subarray. rewrite drop_0.
    rewrite scReduce32_value.
    + rewrite take_take. reflexivity.
    + apply bytes_take. assumption.
    + rewrite length_take. lia.
Qed.

Lemma scReduce_first_half_example :
  let scalar := le_value (firstn 32 CryptoScenario.random_bytes) mod CURVE_ORDER in
  scReduce CryptoScenario.random_bytes = Some (le_bytes 32 scalar) /\
  0 <= scalar < CURVE_ORDER.
Proof.
  apply scReduce_first_half. apply bytes_check. vm_compute. reflexivity.
Defined.

(** *** Signatures *)

Section Signatures.
Context {keccak : Keccak} {keccak_laws : KeccakLaws keccak}.
Context {curve : Ed25519} {curve_laws : Ed25519Laws curve}.

(** [generateSchnorrSignature] throws when the hash or a key has not 32
    bytes or when the nonce [k] that the first 32 random bytes reduce to
    is 0, and only then.  Otherwise the signature is [c || s], two 32-byte
    scalars below the curve order, with
    [c = hash_to_scalar(h || P || k * G)] and [s + sec * c = k] modulo the
    order. *)
Theorem generateSchnorrSignature_shape (randomBytes prefixHash : list Z)
    (publicKey privateKey : string) :
  bytes randomBytes -> length randomBytes = 64%nat ->
  (length prefixHash <> 32%nat \/
   length (hexToBytes publicKey) <> 32%nat \/
   length (hexToBytes privateKey) <> 32%nat ->
   generateSchnorrSignature randomBytes prefixHash publicKey privateKey = None) /\
  (length prefixHash = 32%nat ->
   String.length publicKey = 64%nat -> String.length privateKey = 64%nat ->
   let k := le_value (firstn 32 randomBytes) mod CURVE_ORDER in
   let sec := le_value (hexToBytes privateKey) in
   let R := toRawBytes (scalar_mul BASE k) in
   let c := hash_to_scalar (prefixHash ++ hexToBytes publicKey ++ R) in
   (k = 0 ->
    generateSchnorrSignature randomBytes prefixHash publicKey privateKey
    = None) /\
   (k <> 0 ->
    exists s,
      0 <= c < CURVE_ORDER /\ 0 <= s < CURVE_ORDER /\
      (s + sec * c) mod CURVE_ORDER = k /\
      generateSchnorrSignature randomBytes prefixHash publicKey privateKey
      = Some (le_bytes 32 c ++ le_bytes 32 s))).
Proof.
  intros Hrb Hrl. pose proof CURVE_ORDER_range as HL. split.
  - intros Hbad. unfold generateSchnorrSignature.
    destruct (Nat.eqb_spec (length prefixHash) 32) as [Hp|Hp];
      [|reflexivity].
    destruct (Nat.eqb_spec (length (hexToBytes publicKey)) 32) as [Hpk|Hpk];
      [|reflexivity].
    destruct (Nat.eqb_spec (length (hexToBytes privateKey)) 32) as [Hsk|Hsk];
      [|reflexivity].
    exfalso. tauto.
  - intros Hh Hpk Hsk k sec R c.
    assert (Hkr : 0 <= k < CURVE_ORDER) by (apply Z.mod_pos_bound; lia).
    assert (Hcr : 0 <= c < CURVE_ORDER) by (apply Z.mod_pos_bound; lia).
    assert (Hsecr : 0 <= sec)
      by (apply le_value_range, hexToBytes_bytes).
    pose proof (generateSchnorrSignature_value randomBytes prefixHash
                  publicKey privateKey Hrb Hrl Hh Hpk Hsk) as Hsign.
    cbv zeta in Hsign. fold k sec R c in Hsign. rewrite Hsign. split.
    + intros ->. reflexivity.
    + intros Hnz. destruct (Z.eqb_spec k 0); [contradiction|].
      exists (response k c sec).
      destruct (schnorr_scalar CURVE_ORDER k c sec ltac:(lia) Hkr
                  ltac:(lia) Hsecr) as [Hsr Hmod].
      pose proof (schnorr_scalar_response k c sec Hkr ltac:(lia) Hsecr)
        as Hresp.
      cbv zeta in Hsr, Hmod, Hresp. rewrite Hresp in Hsr, Hmod.
      split; [exact Hcr|]. split; [exact Hsr|]. split; [|reflexivity].
      rewrite Hmod. apply Z.mod_small. assumption.
Qed.

(** [verifySchnorrSignature] does not check the length of the hash it is
    given: of a hash longer than 32 bytes (and no longer than 96) it reads
    the first 32 bytes only, the rest being overwritten in the buffer it
    hashes, so it answers, or throws, as it does for those 32 bytes. *)
Theorem verifySchnorrSignature_long_hash (prefixHash extra : list Z)
    (publicKey : string) (signature : list Z) :
  length prefixHash = 32%nat -> (length extra <= 64)%nat ->
  String.length publicKey = 64%nat ->
  verifySchnorrSignature (prefixHash ++ extra) publicKey signature
  = verifySchnorrSignature prefixHash publicKey signature.
Proof.
  intros Hh Hextra Hpk. unfold verifySchnorrSignature.
  destruct (negb (length signature =? 64)%nat); [reflexivity|].
  destruct (scalarToBigInt (subarray signature 32 64)) as [sBigInt|];
    [|reflexivity].
  destruct (scalarToBigInt (subarray signature 0 32)) as [cBigInt|];
    [|reflexivity].
  rewrite !bind_Some_eq.
  destruct (multiply BASE sBigInt) as [pointSG|]; [|reflexivity].
  rewrite !bind_Some_eq.
  destruct (fromHex publicKey) as [pointPub|]; [|reflexivity].
  rewrite !bind_Some_eq.
  destruct (multiply pointPub cBigInt) as [pointCPub|]; [|reflexivity].
  rewrite !bind_Some_eq. cbv zeta.
  set (comm := toRawBytes _).
  assert (Hcomm : length comm = 32%nat) by apply toRawBytes_length.
  assert (Hpkl : length (hexToBytes publicKey) = 32%nat)
    by (rewrite hexToBytes_length, Hpk; reflexivity).
  destruct (prefix_buffer prefixHash extra Hh Hextra)
    as (buffer & Hset & Hlen & Htake).
  destruct (prefix_buffer prefixHash [] Hh ltac:(cbn; lia))
    as (buffer0 & Hset0 & Hlen0 & Htake0).
  rewrite app_nil_r in Hset0.
  rewrite Hset, Hset0, !bind_Some_eq.
  pose proof (commitment_buffer_value buffer prefixHash
                (hexToBytes publicKey) comm Hlen Htake Hpkl Hcomm) as H1.
  pose proof (commitment_buffer_value buffer0 prefixHash
                (hexToBytes publicKey) comm Hlen0 Htake0 Hpkl Hcomm) as H0.
  destruct (typed_set buffer (hexToBytes publicKey) 32) as [b1|];
    [|discriminate].
  destruct (typed_set buffer0 (hexToBytes publicKey) 32) as [b0|];
    [|discriminate].
  rewrite bind_Some_eq in H1, H0. rewrite !bind_Some_eq, H1, H0.
  reflexivity.
Qed.

End Signatures.

Lemma generateSchnorrSignature_shape_example :
  let k := le_value (firstn 32 CryptoScenario.random_bytes) mod CURVE_ORDER in
  let sec := le_value (hexToBytes CryptoScenario.private_key) in
  let R := @toRawBytes ScalarGroup.curve (scalar_mul BASE k) in
  let c := @hash_to_scalar Keccak256.keccak
             (CryptoScenario.prefix_hash
              ++ hexToBytes CryptoScenario.public_key ++ R) in
  (k = 0 ->
   @generateSchnorrSignature Keccak256.keccak ScalarGroup.curve
     CryptoScenario.random_bytes CryptoScenario.prefix_hash
     CryptoScenario.public_key CryptoScenario.private_key
   = None) /\
  (k <> 0 ->
   exists s,
     0 <= c < CURVE_ORDER /\ 0 <= s < CURVE_ORDER /\
     (s + sec * c) mod CURVE_ORDER = k /\
     @generateSchnorrSignature Keccak256.keccak ScalarGroup.curve
       CryptoScenario.random_bytes CryptoScenario.prefix_hash
       CryptoScenario.public_key CryptoScenario.private_key
     = Some (le_bytes 32 c ++ le_bytes 32 s)).
Proof.
  apply (@generateSchnorrSignature_shape Keccak256.keccak keccak256_laws
           ScalarGroup.curve scalar_group_laws
           CryptoScenario.random_bytes CryptoScenario.prefix_hash
           CryptoScenario.public_key CryptoScenario.private_key).
  - apply bytes_check. vm_compute. reflexivity.
  - reflexivity.
  - reflexivity.
  - reflexivity.
  - reflexivity.
Defined.

(** The signature of [CryptoScenario] is one the verifier accepts. *)
Lemma scenario_signature_accepted :
  @verifySchnorrSignature Keccak256.keccak ScalarGroup.curve
    CryptoScenario.prefix_hash CryptoScenario.public_key
    CryptoScenario.signature = Some true.
Proof. vm_compute. reflexivity. Qed.

Lemma verifySchnorrSignature_long_hash_example :
  @verifySchnorrSignature Keccak256.keccak ScalarGroup.curve
    (CryptoScenario.prefix_hash ++ [1; 2; 3]) CryptoScenario.public_key
    CryptoScenario.signature
  = @verifySchnorrSignature Keccak256.keccak ScalarGroup.curve
      CryptoScenario.prefix_hash CryptoScenario.public_key
      CryptoScenario.signature.
Proof.
  apply (@verifySchnorrSignature_long_hash Keccak256.keccak
           ScalarGroup.curve scalar_group_laws).
  - reflexivity.
  - cbn. lia.
  - reflexivity.
Defined.

End CryptoMoreFacts.

(** ** The selectors of staking inputs *)
Module StakingInputsFacts.
Import Staking StakingInputs.

Lemma find_filter_spendable (P : WalletOutput.t -> bool)
    (outputs : list WalletOutput.t) (currentHeight maturityBlocks : Z)
    (o : WalletOutput.t) :
  List.find P
    (List.filter (spendable_filter (currentHeight - maturityBlocks)) outputs)
  = Some o ->
  spendable_in outputs currentHeight maturityBlocks o /\ P o = true.
Proof.
  intros Hfind. apply find_some in Hfind as [Hin HP].
  apply filter_In in Hin. split; [exact Hin|exact HP].
Qed.



(** Whenever [hasPreciseStakingOutputs] answers true, [pickStakingInputs]
    without a preparation hash returns inputs, so the check that
    [createStakingTransaction] makes first guarantees the pick that
    follows it. *)
Theorem hasPreciseStakingOutputs_pickStakingInputs (amount : Z)
    (outputs : list WalletOutput.t) (currentHeight : Z)
    (publicKey privateKey : string) (currentFee maturityBlocks : Z)
    (preparationTxHash : option string) :
  hasPreciseStakingOutputs amount outputs currentHeight currentFee
    maturityBlocks = true ->
  truthy_string preparationTxHash = false ->
  exists picked,
    pickStakingInputs amount outputs currentHeight publicKey privateKey
      currentFee maturityBlocks preparationTxHash = Some picked.
Proof.
  unfold hasPreciseStakingOutputs, pickStakingInputs. cbv zeta.
  intros Hhas Hprep. rewrite Hprep.
  set (spendable := List.filter _ outputs) in *.
  destruct (existsb (fun o => WalletOutput.amount o =? amount) spendable
            && existsb _ spendable) eqn:Hboth; [|discriminate].
  apply existsb_exists in Hhas as [f [Hfin Hf]].
  apply filter_In in Hfin as [Hfin Hfee].
  apply negb_true_iff in Hf.
  apply andb_prop in Hboth as [Hamt _].
  apply existsb_exists in Hamt as [a0 [Ha0in Ha0]].
  destruct (List.find (fun output => WalletOutput.amount output =? amount)
              spendable) as [a|] eqn:Ha.
  2:{ apply (find_none _ _ Ha) in Ha0in. cbv beta in Ha0in. congruence. }
  apply find_some in Ha as [Hain Ha].
  match goal with
  | |- context [List.find ?p spendable] =>
      destruct (List.find p spendable) as [f'|] eqn:Hf'
  end; [eexists; reflexivity|exfalso].
  apply (find_none _ _ Hf') in Hfin. cbv beta zeta in Hfin.
  rewrite Hfee in Hfin. cbn [andb] in Hfin.
  assert (Hsame :
    String.eqb (WalletOutput.transactionHash a) (WalletOutput.transactionHash f)
    && (WalletOutput.transactionIndex a =? WalletOutput.transactionIndex f)
    = false).
  { apply not_true_is_false. intros Hs.
    assert (Hex : existsb
              (fun amount0 =>
                 String.eqb (WalletOutput.transactionHash amount0)
                   (WalletOutput.transactionHash f)
                 && (WalletOutput.transactionIndex amount0
                     =? WalletOutput.transactionIndex f))
              (List.filter (fun o => WalletOutput.amount o =? amount) spendable)
            = true).
    { apply existsb_exists. exists a. split; [|exact Hs].
      apply filter_In. split; assumption. }
    rewrite Hex in Hf. discriminate. }
  apply andb_false_iff in Hsame.
  apply orb_false_iff in Hfin as [Hh Hi].
  apply negb_false_iff in Hh, Hi.
  apply String.eqb_eq in Hh. apply Z.eqb_eq in Hi.
  destruct Hsame as [Hs|Hs].
  - apply String.eqb_neq in Hs. congruence.
  - apply Z.eqb_neq in Hs. congruence.
Qed.

Lemma hasPreciseStakingOutputs_pickStakingInputs_example :
  exists picked,
    pickStakingInputs 5000000000 Scenario.confirmed_preparation 200
      "pub" "sec" 1000 10 None = Some picked.
Proof.
  apply hasPreciseStakingOutputs_pickStakingInputs; vm_compute; reflexivity.
Defined.

(** [findPreciseStakingOutputsTxHash] asks of the fee output the
    [transactionIndex] of the amount output and another [outputIndex]; so
    on outputs whose [transactionIndex] is their [outputIndex], as
    [processOutputs] creates them, it finds no transaction. *)
Theorem findPreciseStakingOutputsTxHash_synced (amount : Z)
    (outputs : list WalletOutput.t)
    (currentHeight currentFee maturityBlocks : Z) :
  (forall o, In o outputs ->
     WalletOutput.outputIndex o = Some (WalletOutput.transactionIndex o)) ->
  findPreciseStakingOutputsTxHash amount outputs currentHeight currentFee
    maturityBlocks = None.
Proof.
  intros Hsynced. unfold findPreciseStakingOutputsTxHash. cbv zeta.
  set (spendable := List.filter _ outputs).
  destruct (List.find _ spendable) as [a|] eqn:Ha; [|reflexivity].
  apply find_some in Ha as [Hain _]. apply filter_In in Hain as [Hain _].
  match goal with
  | |- context [List.find ?p spendable] =>
      destruct (List.find p spendable) as [f|] eqn:Hf
  end; [exfalso|reflexivity].
  apply find_some in Hf as [Hfin Hf]. apply filter_In in Hfin as [Hfin _].
  apply andb_prop in Hf as [Hf Hidx]. apply andb_prop in Hf as [_ Htx].
  apply Z.eqb_eq in Htx. apply negb_true_iff in Hidx.
  rewrite (Hsynced a Hain), (Hsynced f Hfin), Htx in Hidx.
  cbn [same_index] in Hidx. rewrite Z.eqb_refl in Hidx. discriminate.
Qed.

Lemma findPreciseStakingOutputsTxHash_synced_example :
  findPreciseStakingOutputsTxHash 5000000000 Scenario.confirmed_preparation
    200 1000 10 = None.
Proof.
  apply findPreciseStakingOutputsTxHash_synced.
  intros o Ho. cbn in Ho. intuition (subst; reflexivity).
Defined.

End StakingInputsFacts.

(** ** The greedy selections *)
Module SelectionFacts.
Import Staking Balance BalanceFacts Selection.

(** *** Sums and sorting *)

Lemma sum_amounts_app (l1 l2 : list WalletOutput.t) :
  sum_amounts (l1 ++ l2) = sum_amounts l1 + sum_amounts l2.
Proof.
  unfold sum_amounts at 1. rewrite fold_left_app.
  rewrite sum_amounts_acc. reflexivity.
Qed.

Lemma sum_amounts_perm (l l' : list WalletOutput.t) :
  Permutation l l' -> sum_amounts l = sum_amounts l'.
Proof.
  induction 1 as [|x l l' _ IH|x y l|l l' l'' _ IH1 _ IH2].
  - reflexivity.
  - rewrite !sum_amounts_cons, IH. reflexivity.
  - rewrite !sum_amounts_cons. lia.
  - congruence.
Qed.

Lemma sum_amounts_nonneg (l : list WalletOutput.t) :
  (forall o, In o l -> 0 <= WalletOutput.amount o) -> 0 <= sum_amounts l.
Proof.
  induction l as [|o l IH]; intros Hpos; [reflexivity|].
  rewrite sum_amounts_cons.
  assert (0 <= WalletOutput.amount o) by (apply Hpos; left; reflexivity).
  assert (0 <= sum_amounts l)
    by (apply IH; intros x Hx; apply Hpos; right; assumption).
  lia.
Qed.

Lemma insert_desc_perm (o : WalletOutput.t) (s : list WalletOutput.t) :
  Permutation (insert_desc o s) (o :: s).
Proof.
  induction s as [|x s IH]; [reflexivity|].
  cbn [insert_desc]. destruct (_ <? _); [reflexivity|].
  rewrite IH. apply perm_swap.
Qed.

Lemma fold_insert_desc_perm (l acc : list WalletOutput.t) :
  Permutation (fold_left (fun sorted o => insert_desc o sorted) l acc)
    (l ++ acc).
Proof.
  revert acc. induction l as [|x l IH]; intros acc; [reflexivity|].
  cbn [fold_left app]. rewrite IH, insert_desc_perm.
  symmetry. apply Permutation_middle.
Qed.

Lemma sort_desc_perm (l : list WalletOutput.t) : Permutation (sort_desc l) l.
Proof.
  unfold sort_desc. rewrite fold_insert_desc_perm, app_nil_r. reflexivity.
Qed.

Lemma insert_desc_descending (o : WalletOutput.t) (s : list WalletOutput.t) :
  descending s -> descending (insert_desc o s).
Proof.
  induction s as [|x s IH]; intros Hs.
  - cbn. split; [intros ? []|exact I].
  - cbn [insert_desc]. destruct Hs as [Hx Hs].
    destruct (Z.ltb_spec (WalletOutput.amount x) (WalletOutput.amount o))
      as [Hlt|Hge].
    + split; [|split; assumption].
      intros y [<-|Hy]; [lia|]. specialize (Hx y Hy). lia.
    + split; [|apply IH; assumption].
      intros y Hy.
      apply (Permutation_in _ (insert_desc_perm o s)) in Hy.
      destruct Hy as [<-|Hy]; [lia|apply Hx; assumption].
Qed.

Lemma sort_desc_descending (l : list WalletOutput.t) :
  descending (sort_desc l).
Proof.
  unfold sort_desc. assert (H : descending []) by exact I. revert H.
  generalize (@nil WalletOutput.t) as acc.
  induction l as [|x l IH]; intros acc Hacc; [assumption|].
  cbn [fold_left]. apply IH, insert_desc_descending, Hacc.
Qed.

Lemma filter_sublist {A} (P : A -> bool) (l : list A) :
  List.filter P l `sublist_of` l.
Proof.
  induction l as [|x l IH]; [constructor|].
  cbn [List.filter]. destruct (P x); constructor; assumption.
Qed.

(** *** Exact sums *)

Lemma exact_amounts_nonneg (l : list WalletOutput.t) :
  exact_amounts l -> forall o, In o l -> 0 <= WalletOutput.amount o.
Proof.
  intros [Hall _] o Ho. rewrite Forall_forall in Hall.
  apply Hall, list_elem_of_In, Ho.
Qed.

Lemma sum_amounts_submseteq (s l : list WalletOutput.t) :
  (forall o, In o l -> 0 <= WalletOutput.amount o) ->
  s ⊆+ l -> sum_amounts s <= sum_amounts l.
Proof.
  intros Hpos Hs. apply submseteq_Permutation in Hs as [rest Hperm].
  rewrite (sum_amounts_perm _ _ Hperm), sum_amounts_app.
  assert (0 <= sum_amounts rest); [|lia].
  apply sum_amounts_nonneg. intros o Ho. apply Hpos.
  apply (Permutation_in _ (Permutation_sym Hperm)), in_or_app. right. exact Ho.
Qed.

Lemma exact_amounts_submseteq (s l : list WalletOutput.t) :
  exact_amounts l -> s ⊆+ l -> exact_amounts s.
Proof.
  intros Hl Hs. pose proof (exact_amounts_nonneg l Hl) as Hpos.
  destruct Hl as [_ Hsum]. split.
  - apply Forall_forall. intros o Ho. apply Hpos, list_elem_of_In.
    apply (elem_of_submseteq _ _ _ Ho Hs).
  - pose proof (sum_amounts_submseteq s l Hpos Hs). lia.
Qed.

Lemma exact_amounts_filter (P : WalletOutput.t -> bool)
    (l : list WalletOutput.t) :
  exact_amounts l -> exact_amounts (List.filter P l).
Proof.
  intros Hl. apply (exact_amounts_submseteq _ l Hl).
  apply sublist_submseteq, filter_sublist.
Qed.

Lemma exact_amounts_sort (l : list WalletOutput.t) :
  exact_amounts l -> exact_amounts (sort_desc l).
Proof.
  intros Hl. apply (exact_amounts_submseteq _ l Hl).
  rewrite sort_desc_perm. reflexivity.
Qed.

(** *** The selection loop *)

(** On amounts whose sums are exact the loop takes a prefix of the sorted
    list: the shortest one that reaches [needed], or the whole list when
    none does. *)
Lemma select_inputs_prefix (sorted : list WalletOutput.t) :
  forall acc tot needed,
  0 <= tot ->
  (forall o, In o sorted -> 0 <= WalletOutput.amount o) ->
  tot + sum_amounts sorted <= 2 ^ 53 ->
  exists k,
    (k <= length sorted)%nat /\
    select_inputs sorted acc tot needed
    = (acc ++ take k sorted, tot + sum_amounts (take k sorted)) /\
    (sorted <> [] -> (1 <= k)%nat) /\
    (forall j, (1 <= j < k)%nat ->
       tot + sum_amounts (take j sorted) < needed) /\
    (tot + sum_amounts (take k sorted) < needed -> k = length sorted).
Proof.
  induction sorted as [|o rest IH]; intros acc tot needed Htot Hpos Hsum.
  - exists 0%nat. cbn [select_inputs take length]. rewrite app_nil_r.
    unfold sum_amounts. cbn [fold_left].
    repeat split; try lia; try congruence. f_equal. lia.
  - cbn [select_inputs].
    rewrite sum_amounts_cons in Hsum.
    assert (Ho : 0 <= WalletOutput.amount o) by (apply Hpos; left; reflexivity).
    assert (Hrest : 0 <= sum_amounts rest)
      by (apply sum_amounts_nonneg; intros x Hx; apply Hpos; right; exact Hx).
    rewrite NumberFacts.number_add_exact by (unfold JS.exact; lia).
    destruct (Z.geb_spec (tot + WalletOutput.amount o) needed) as [Hge|Hlt].
    + exists 1%nat. cbn [take length]. rewrite take_0.
      rewrite sum_amounts_cons. change (sum_amounts []) with 0.
      repeat split; try lia. f_equal. lia.
    + destruct (IH (acc ++ [o]) (tot + WalletOutput.amount o) needed)
        as (k & Hk & Heq & _ & Hbelow & Hend);
        [lia|intros x Hx; apply Hpos; right; exact Hx|lia|].
      exists (S k). cbn [take length]. rewrite Heq, sum_amounts_cons.
      rewrite <- app_assoc. cbn [app].
      repeat split; try lia.
      * f_equal. lia.
      * intros j Hj. destruct j as [|j]; [lia|].
        cbn [take]. rewrite sum_amounts_cons.
        destruct j as [|j].
        -- rewrite take_0. unfold sum_amounts. cbn [fold_left]. lia.
        -- specialize (Hbelow (S j) ltac:(lia)). lia.
Qed.

Lemma select_inputs_acc (sorted : list WalletOutput.t) :
  forall acc tot needed,
  select_inputs sorted acc tot needed =
  (acc ++ fst (select_inputs sorted [] tot needed),
   snd (select_inputs sorted [] tot needed)).
Proof.
  induction sorted as [|o rest IH]; intros acc tot needed.
  - cbn. rewrite app_nil_r. reflexivity.
  - cbn [select_inputs]. destruct (_ >=? _); [reflexivity|].
    rewrite (IH (acc ++ [o])), (IH ([] ++ [o])). cbn [fst snd app].
    rewrite <- app_assoc. reflexivity.
Qed.

Lemma pickInputs_loop_select (picker : TransactionPicker.t)
    (sorted : list WalletOutput.t) :
  forall chosen tot targetAmount fee,
  TransactionPicker.pickInputs_loop picker sorted chosen tot targetAmount fee
  = (chosen
     ++ map (selected (TransactionPicker.walletPublicKey picker)
               (TransactionPicker.walletPrivateKey picker))
          (fst (select_inputs sorted [] tot
                  (JS.number_add targetAmount fee))),
     snd (select_inputs sorted [] tot (JS.number_add targetAmount fee))).
Proof.
  induction sorted as [|o rest IH]; intros chosen tot targetAmount fee.
  - cbn. rewrite app_nil_r. reflexivity.
  - cbn [TransactionPicker.pickInputs_loop select_inputs].
    destruct (_ >=? _); [reflexivity|].
    rewrite IH, (select_inputs_acc rest ([] ++ [o])). cbn [fst snd app map].
    rewrite <- app_assoc. reflexivity.
Qed.

(** Among the outputs of a list in decreasing order of amount, no choice
    of [j] outputs adds up to more than the first [j]. *)
Lemma descending_shift (a : WalletOutput.t) (l : list WalletOutput.t)
    (j : nat) :
  (forall x, In x l -> WalletOutput.amount x <= WalletOutput.amount a) ->
  (j <= length l)%nat ->
  sum_amounts (take j l) <= sum_amounts (take j (a :: l)).
Proof.
  intros Ha Hj. destruct j as [|j]; [reflexivity|].
  cbn [take]. rewrite sum_amounts_cons.
  destruct (l !! j) as [x|] eqn:Hx.
  - rewrite (take_S_r l j x Hx), sum_amounts_app, sum_amounts_cons.
    change (sum_amounts []) with 0.
    assert (WalletOutput.amount x <= WalletOutput.amount a); [|lia].
    apply Ha. apply list_elem_of_In. eapply list_elem_of_lookup_2. exact Hx.
  - apply lookup_ge_None in Hx. lia.
Qed.

Lemma descending_take_max (l : list WalletOutput.t) :
  descending l ->
  forall s, s ⊆+ l -> sum_amounts s <= sum_amounts (take (length s) l).
Proof.
  induction l as [|a l IH]; intros Hl s Hs.
  - apply submseteq_nil_r in Hs. subst s. reflexivity.
  - destruct Hl as [Ha Hl].
    apply submseteq_cons_r in Hs as [Hs|(s' & Hperm & Hs')].
    + specialize (IH Hl s Hs).
      pose proof (submseteq_length _ _ Hs).
      pose proof (descending_shift a l (length s) Ha ltac:(lia)). lia.
    + rewrite (sum_amounts_perm _ _ Hperm), (Permutation_length Hperm).
      cbn [length take]. rewrite !sum_amounts_cons.
      specialize (IH Hl s' Hs'). lia.
Qed.

(** What the loop returns on the sorted outputs of a list whose sums are
    exact. *)
Lemma select_inputs_sorted (outputs : list WalletOutput.t) (needed : Z) :
  exact_amounts outputs ->
  exists k,
    (k <= length outputs)%nat /\
    select_inputs (sort_desc outputs) [] 0 needed
    = (take k (sort_desc outputs), sum_amounts (take k (sort_desc outputs))) /\
    (outputs <> [] -> (1 <= k)%nat) /\
    (forall j, (1 <= j < k)%nat ->
       sum_amounts (take j (sort_desc outputs)) < needed) /\
    (sum_amounts (take k (sort_desc outputs)) < needed ->
     take k (sort_desc outputs) = sort_desc outputs).
Proof.
  intros Hexact. apply exact_amounts_sort in Hexact.
  pose proof (exact_amounts_nonneg _ Hexact) as Hpos.
  destruct Hexact as [_ Hsum].
  destruct (select_inputs_prefix (sort_desc outputs) [] 0 needed
              ltac:(lia) Hpos ltac:(lia))
    as (k & Hk & Heq & Hk1 & Hbelow & Hend).
  exists k. rewrite (Permutation_length (sort_desc_perm outputs)) in Hk.
  split; [exact Hk|]. split; [rewrite Heq; f_equal; lia|]. split; [|split].
  - intros Hne. apply Hk1. intros Hnil. apply Hne.
    apply Permutation_nil. rewrite <- Hnil. apply sort_desc_perm.
  - intros j Hj. specialize (Hbelow j Hj). lia.
  - intros Hlt. rewrite (Hend ltac:(lia)). apply firstn_all.
Qed.

(** The number of outputs the loop takes is the least that can reach
    [needed]. *)
Lemma select_inputs_minimal (outputs s : list WalletOutput.t) (needed : Z) :
  exact_amounts outputs ->
  0 < needed -> s ⊆+ outputs -> needed <= sum_amounts s ->
  (length (fst (select_inputs (sort_desc outputs) [] 0 needed)) <= length s)%nat.
Proof.
  intros Hexact Hpos Hs Hsum.
  destruct (select_inputs_sorted outputs needed Hexact)
    as (k & Hk & Heq & _ & Hbelow & _).
  rewrite Heq. cbn [fst]. rewrite length_take.
  destruct (Nat.le_gt_cases k (length s)) as [|Hlt]; [lia|exfalso].
  assert (Hne : (1 <= length s)%nat).
  { destruct s; [|cbn; lia]. unfold sum_amounts in Hsum. cbn in Hsum. lia. }
  specialize (Hbelow (length s) ltac:(lia)).
  assert (Hs' : s ⊆+ sort_desc outputs)
    by (rewrite sort_desc_perm; assumption).
  pose proof (descending_take_max _ (sort_desc_descending outputs) s Hs').
  lia.
Qed.

(** *** [pickInputs] *)

(** What [pickInputs] computes when the sums it makes are exact: [None]
    when the spendable outputs fall short, and otherwise the inputs of the
    shortest prefix of the sorted spendable outputs that covers the target
    and the fee. *)
Lemma pickInputs_value (now : Z) (picker : TransactionPicker.t)
    (targetAmount fee : Z) :
  exact_amounts (TransactionPicker.outputs picker) ->
  0 <= targetAmount -> 0 <= fee -> targetAmount + fee <= 2 ^ 53 ->
  let spendable := TransactionPicker.getSpendableOutputs now picker in
  exists chosen,
    chosen ⊆+ spendable /\
    (spendable <> [] -> chosen <> []) /\
    (sum_amounts chosen < targetAmount + fee -> chosen ≡ₚ spendable) /\
    length chosen
    = length (fst (select_inputs (sort_desc spendable) [] 0
                     (targetAmount + fee))) /\
    TransactionPicker.pickInputs now picker targetAmount fee
    = if (length spendable =? 0)%nat
         || (sum_amounts chosen <? targetAmount + fee)
      then None
      else Some (TransactionPicker.mkPickResult
                   (map (selected (TransactionPicker.walletPublicKey picker)
                           (TransactionPicker.walletPrivateKey picker)) chosen)
                   (sum_amounts chosen) fee
                   (sum_amounts chosen - targetAmount - fee) []).
Proof.
  intros Hexact Htarget Hfee Hneeded spendable.
  assert (Hsp : exact_amounts spendable) by (apply exact_amounts_filter, Hexact).
  unfold TransactionPicker.pickInputs. cbv zeta. fold spendable.
  rewrite pickInputs_loop_select.
  rewrite NumberFacts.number_add_exact by (unfold JS.exact; lia).
  destruct (select_inputs_sorted spendable (targetAmount + fee) Hsp)
    as (k & Hk & Heq & Hk1 & _ & Hend).
  rewrite Heq. cbn [fst snd app].
  set (chosen := take k (sort_desc spendable)) in *.
  assert (Hsub : chosen ⊆+ spendable).
  { unfold chosen. rewrite <- (sort_desc_perm spendable) at 2.
    apply submseteq_take. }
  pose proof (exact_amounts_submseteq _ _ Hsp Hsub) as [Hcpos Hcsum].
  assert (0 <= sum_amounts chosen).
  { apply sum_amounts_nonneg. intros o Ho.
    rewrite Forall_forall in Hcpos. apply Hcpos, list_elem_of_In, Ho. }
  exists chosen. split; [exact Hsub|]. split; [|split; [|split]].
  - intros Hne. specialize (Hk1 Hne). unfold chosen. intros Hnil.
    assert (Hlen : length (sort_desc spendable) = length spendable)
      by apply Permutation_length, sort_desc_perm.
    apply (f_equal length) in Hnil. rewrite length_take in Hnil.
    destruct spendable; [congruence|]. cbn [length] in *. lia.
  - intros Hlt. rewrite (Hend Hlt). apply sort_desc_perm.
  - reflexivity.
  - destruct (Nat.eqb_spec (length spendable) 0) as [Hnil|Hne];
      [reflexivity|]. cbn [orb].
    destruct (Z.ltb_spec (sum_amounts chosen) (targetAmount + fee));
      [reflexivity|].
    rewrite (NumberFacts.number_sub_exact (sum_amounts chosen) targetAmount)
      by (unfold JS.exact; lia).
    rewrite NumberFacts.number_sub_exact by (unfold JS.exact; lia).
    reflexivity.
Qed.

(** What [pickInputs] returns when it returns a result, on a wallet whose
    amounts are not negative and add up to at most [2^53], for a target
    and a fee that are not negative and add up to at most [2^53]: inputs
    made of spendable outputs of the picker, none of them taken twice,
    whose amounts add up to [totalInput]; [totalInput] covers the target
    and the fee, and [change] is what is left over. *)
Theorem pickInputs_sound (now : Z) (picker : TransactionPicker.t)
    (targetAmount fee : Z) (r : TransactionPicker.TransactionPickResult) :
  exact_amounts (TransactionPicker.outputs picker) ->
  0 <= targetAmount -> 0 <= fee -> targetAmount + fee <= 2 ^ 53 ->
  TransactionPicker.pickInputs now picker targetAmount fee = Some r ->
  exists chosen,
    TransactionPicker.inputs r =
      map (selected (TransactionPicker.walletPublicKey picker)
             (TransactionPicker.walletPrivateKey picker)) chosen /\
    chosen <> [] /\ chosen ⊆+ TransactionPicker.outputs picker /\
    Forall (fun o => TransactionPicker.spendable now picker o = true) chosen /\
    TransactionPicker.totalInput r = sum_amounts chosen /\
    TransactionPicker.totalInput r
    = targetAmount + fee + TransactionPicker.change r /\
    0 <= TransactionPicker.change r /\
    TransactionPicker.fee r = fee /\ TransactionPicker.destinations r = [].
Proof.
  intros Hexact Htarget Hfee Hneeded.
  destruct (pickInputs_value now picker targetAmount fee Hexact Htarget Hfee
              Hneeded) as (chosen & Hsub & Hne & _ & _ & Hpick).
  cbv zeta in Hpick. rewrite Hpick. clear Hpick.
  set (spendable := TransactionPicker.getSpendableOutputs now picker) in *.
  destruct (Nat.eqb_spec (length spendable) 0) as [|Hlen]; [discriminate|].
  cbn [orb].
  destruct (Z.ltb_spec (sum_amounts chosen) (targetAmount + fee));
    [discriminate|].
  intros [= <-]. cbn. exists chosen. repeat split; try lia.
  - apply Hne. intros Hnil. rewrite Hnil in Hlen. cbn in Hlen. lia.
  - etransitivity; [exact Hsub|].
    apply sublist_submseteq, filter_sublist.
  - apply Forall_forall. intros o Ho.
    apply (elem_of_submseteq _ _ _ Ho) in Hsub.
    apply list_elem_of_In, filter_In in Hsub. tauto.
Qed.

Lemma pickInputs_sound_example :
  exists chosen,
    [selected "pub" "sec" (Scenario.output "aa" 0 10000000000 100 None)] =
      map (selected "pub" "sec") chosen /\
    chosen <> [] /\ chosen ⊆+ Scenario.single_utxo /\
    Forall
      (fun o =>
         TransactionPicker.spendable 0
           (TransactionPicker.mk Scenario.single_utxo 200 10 "pub" "sec") o
         = true) chosen /\
    10000000000 = sum_amounts chosen /\
    10000000000 = 5000000000 + 1000 + 4999999000 /\
    0 <= 4999999000 /\ 1000 = 1000 /\
    @nil TransactionPicker.TransactionDestination = [].
Proof.
  apply (pickInputs_sound 0
           (TransactionPicker.mk Scenario.single_utxo 200 10 "pub" "sec")
           5000000000 1000
           (TransactionPicker.mkPickResult
              [selected "pub" "sec" (Scenario.output "aa" 0 10000000000 100 None)]
              10000000000 1000 4999999000 [])).
  - split; [repeat constructor; cbn; lia|vm_compute; discriminate].
  - lia.
  - lia.
  - lia.
  - vm_compute. reflexivity.
Defined.

(** Past [2^53] the sums of [pickInputs] are rounded: with one output of
    [2^53], a target of [2^53] and a fee of 1, the test
    [totalInput >= targetAmount + fee] passes, for [2^53 + 1] is rounded
    to [2^53], and the change is -1. *)
Lemma pickInputs_rounds :
  TransactionPicker.change
  <$> TransactionPicker.pickInputs 0
        (TransactionPicker.mk [Scenario.output "aa" 0 (2 ^ 53) 100 None]
           200 10 "pub" "sec") (2 ^ 53) 1
  = Some (-1).
Proof. vm_compute. reflexivity. Qed.

(** On such a wallet, target and fee, [pickInputs] returns [null] exactly
    when the picker has no spendable output or the spendable outputs do
    not add up to the target and the fee. *)
Theorem pickInputs_none (now : Z) (picker : TransactionPicker.t)
    (targetAmount fee : Z) :
  exact_amounts (TransactionPicker.outputs picker) ->
  0 <= targetAmount -> 0 <= fee -> targetAmount + fee <= 2 ^ 53 ->
  TransactionPicker.pickInputs now picker targetAmount fee = None <->
  TransactionPicker.getSpendableOutputs now picker = [] \/
  sum_amounts (TransactionPicker.getSpendableOutputs now picker)
  < targetAmount + fee.
Proof.
  intros Hexact Htarget Hfee Hneeded.
  pose proof (exact_amounts_filter (TransactionPicker.spendable now picker)
                _ Hexact) as Hsp.
  destruct (pickInputs_value now picker targetAmount fee Hexact Htarget Hfee
              Hneeded) as (chosen & Hsub & _ & Hall & _ & Hpick).
  cbv zeta in Hpick. rewrite Hpick. clear Hpick.
  fold (TransactionPicker.getSpendableOutputs now picker) in Hsp.
  set (spendable := TransactionPicker.getSpendableOutputs now picker) in *.
  pose proof (sum_amounts_submseteq chosen spendable
                (exact_amounts_nonneg _ Hsp) Hsub) as Hle.
  destruct (Nat.eqb_spec (length spendable) 0) as [Hnil|Hne].
  { split; [intros _; left|reflexivity].
    destruct spendable; [reflexivity|discriminate]. }
  cbn [orb].
  destruct (Z.ltb_spec (sum_amounts chosen) (targetAmount + fee))
    as [Hlt|Hge].
  - split; [intros _; right|reflexivity].
    rewrite <- (sum_amounts_perm _ _ (Hall Hlt)). exact Hlt.
  - split; [discriminate|].
    intros [Hnil|Hlt]; [rewrite Hnil in Hne; cbn in Hne; lia|lia].
Qed.

Lemma pickInputs_none_example :
  TransactionPicker.pickInputs 0
    (TransactionPicker.mk Scenario.single_utxo 200 10 "pub" "sec")
    10000000000 1000 = None <->
  TransactionPicker.getSpendableOutputs 0
    (TransactionPicker.mk Scenario.single_utxo 200 10 "pub" "sec") = [] \/
  sum_amounts
    (TransactionPicker.getSpendableOutputs 0
       (TransactionPicker.mk Scenario.single_utxo 200 10 "pub" "sec"))
  < 10000000000 + 1000.
Proof.
  apply pickInputs_none.
  - split; [repeat constructor; cbn; lia|vm_compute; discriminate].
  - lia.
  - lia.
  - lia.
Defined.

(** On such a wallet, target and fee, [pickInputs] uses as few inputs as
    can be: no choice of spendable outputs that covers a positive target
    and fee has fewer outputs than the result has inputs. *)
Theorem pickInputs_minimal (now : Z) (picker : TransactionPicker.t)
    (targetAmount fee : Z) (r : TransactionPicker.TransactionPickResult)
    (s : list WalletOutput.t) :
  exact_amounts (TransactionPicker.outputs picker) ->
  0 <= targetAmount -> 0 <= fee -> targetAmount + fee <= 2 ^ 53 ->
  TransactionPicker.pickInputs now picker targetAmount fee = Some r ->
  0 < targetAmount + fee ->
  s ⊆+ TransactionPicker.getSpendableOutputs now picker ->
  targetAmount + fee <= sum_amounts s ->
  (length (TransactionPicker.inputs r) <= length s)%nat.
Proof.
  intros Hexact Htarget Hfee Hneeded.
  pose proof (exact_amounts_filter (TransactionPicker.spendable now picker)
                _ Hexact) as Hsp.
  destruct (pickInputs_value now picker targetAmount fee Hexact Htarget Hfee
              Hneeded) as (chosen & _ & _ & _ & Hlen & Hpick).
  cbv zeta in Hpick. rewrite Hpick. clear Hpick.
  fold (TransactionPicker.getSpendableOutputs now picker) in Hsp.
  set (spendable := TransactionPicker.getSpendableOutputs now picker) in *.
  destruct ((length spendable =? 0)%nat || _); [discriminate|].
  intros [= <-] Hpos Hs Hsum. cbn. rewrite length_map, Hlen.
  apply select_inputs_minimal; assumption.
Qed.

Lemma pickInputs_minimal_example :
  (length [selected "pub" "sec" (Scenario.output "aa" 0 5000000000 100 None)]
   <= length (A := WalletOutput.t)
        [Scenario.output "aa" 1 1000 100 None;
         Scenario.output "aa" 2 4999998000 100 None])%nat.
Proof.
  apply (pickInputs_minimal 0
           (TransactionPicker.mk Scenario.confirmed_preparation 200 10
              "pub" "sec")
           4999998000 1000
           (TransactionPicker.mkPickResult
              [selected "pub" "sec" (Scenario.output "aa" 0 5000000000 100 None)]
              5000000000 1000 1000 [])).
  - split; [repeat constructor; cbn; lia|vm_compute; discriminate].
  - lia.
  - lia.
  - lia.
  - vm_compute. reflexivity.
  - lia.
  - apply sublist_submseteq. vm_compute.
    apply sublist_cons. apply sublist_skip. apply sublist_skip.
    apply sublist_nil.
  - vm_compute. discriminate.
Defined.

End SelectionFacts.

(** ** The balances as sums of Numbers, and the list getters *)
Module GetterFacts.
Import WalletSync Balance TrackerFacts BalanceFacts Selection SelectionFacts.

Lemma reduce_amounts_acc (l : list WalletOutput.t) :
  forall acc,
  0 <= acc ->
  (forall o, In o l -> 0 <= WalletOutput.amount o) ->
  acc + sum_amounts l <= 2 ^ 53 ->
  fold_left (fun sum output => JS.number_add sum (WalletOutput.amount output))
    l acc
  = acc + sum_amounts l.
Proof.
  induction l as [|o l IH]; intros acc Hacc Hpos Hsum.
  - unfold sum_amounts. cbn [fold_left]. lia.
  - rewrite sum_amounts_cons in *. cbn [fold_left].
    assert (0 <= WalletOutput.amount o) by (apply Hpos; left; reflexivity).
    assert (0 <= sum_amounts l)
      by (apply sum_amounts_nonneg; intros x Hx; apply Hpos; right; exact Hx).
    rewrite NumberFacts.number_add_exact by (unfold JS.exact; lia).
    rewrite IH; [lia|lia|intros x Hx; apply Hpos; right; exact Hx|lia].
Qed.

(** The sum the program makes of amounts that are not negative and add up
    to at most [2^53] is their integer sum. *)
Lemma reduce_amounts_exact (l : list WalletOutput.t) :
  exact_amounts l -> reduce_amounts l = sum_amounts l.
Proof.
  intros Hl. pose proof (exact_amounts_nonneg l Hl) as Hpos.
  destruct Hl as [_ Hsum]. unfold reduce_amounts.
  rewrite reduce_amounts_acc; [lia|lia|exact Hpos|lia].
Qed.

(** Past [2^53] it is not: [2^53 + 1 + 1] gives [2^53]. *)
Lemma reduce_amounts_rounds :
  reduce_amounts
    [Scenario.output "aa" 0 (2 ^ 53) 0 None; Scenario.output "aa" 1 1 0 None;
     Scenario.output "aa" 2 1 0 None] = 2 ^ 53.
Proof. vm_compute. reflexivity. Qed.

(** *** The balances as sums of Numbers *)

(** Walking a list of outputs whose amounts are not negative and add up
    to at most [2^53], the loop of [recalculateBalances] makes with
    Numbers the figures it makes with integers. *)
Lemma recalculateBalances_steps_exact (now : Z) (hs : gset string) (h : Z)
    (l : list (string * WalletOutput.t)) :
  (forall o, In o l.*2 -> 0 <= WalletOutput.amount o) ->
  sum_amounts l.*2 <= 2 ^ 53 ->
  let numbers :=
    foldr (uncurry (fun (_ : string) output acc =>
                      NumberBalances.recalculateBalances_step now hs h
                        output acc))
      (mkBalances 0 0 0) l in
  let integers :=
    foldr (uncurry (fun (_ : string) output acc =>
                      recalculateBalances_step now hs h output acc))
      (mkBalances 0 0 0) l in
  numbers = integers /\
  0 <= available integers /\ 0 <= locked integers /\
  0 <= stakingLocked integers /\
  available integers + locked integers + stakingLocked integers
  <= sum_amounts l.*2.
Proof.
  induction l as [|[k o] l IH]; intros Hpos Hsum; cbv zeta.
  - cbn. repeat split; lia.
  - cbn [fmap list_fmap snd] in Hpos, Hsum |- *.
    rewrite sum_amounts_cons in Hsum |- *.
    assert (Ho : 0 <= WalletOutput.amount o) by (apply Hpos; left; reflexivity).
    assert (Hrest : 0 <= sum_amounts l.*2)
      by (apply sum_amounts_nonneg; intros x Hx; apply Hpos; right; exact Hx).
    destruct IH as (Heq & Ha & Hl & Hs & Hle);
      [intros x Hx; apply Hpos; right; exact Hx|lia|].
    cbn [foldr uncurry]. rewrite Heq. clear Heq.
    set (r := foldr _ _ l) in *.
    unfold NumberBalances.recalculateBalances_step, recalculateBalances_step.
    destruct (JS.truthy _); [repeat split; lia|].
    destruct (isOutputSpendable _ _ _ _ _);
      [|destruct (flag _ || _)];
      cbn [available locked stakingLocked];
      rewrite NumberFacts.number_add_exact by (unfold JS.exact; lia);
      repeat split; lia.
Qed.

Lemma recalculateBalances_exact (now : Z) (c : ProcessingContext) :
  exact_amounts (getOutputs c) ->
  NumberBalances.recalculateBalances now c = recalculateBalances now c.
Proof.
  intros Hexact. pose proof (exact_amounts_nonneg _ Hexact) as Hpos.
  destruct Hexact as [_ Hsum].
  unfold NumberBalances.recalculateBalances, recalculateBalances.
  rewrite !map_fold_foldr.
  apply (recalculateBalances_steps_exact now _ _ (map_to_list (outputs c)));
    assumption.
Qed.

(** C6, as amended.  In a tracker whose amounts are not negative and add
    up to at most [2^53] and in which no [spentHeight] is 0, the three
    figures of [recalculateBalances] add up to the sum of the amounts of
    the outputs whose [spentHeight] is unset.  Each such output is counted
    in exactly one figure: in [available] when it is spendable, else in
    [stakingLocked] when it comes from a staking transaction, else in
    [locked]; an output whose [spentHeight] is set is counted in none. *)
Theorem recalculateBalances_partition (now : Z) (c : ProcessingContext) :
  exact_amounts (getOutputs c) ->
  Forall (fun o => WalletOutput.spentHeight o <> Some 0) (getOutputs c) ->
  let hs := stakingTxHashes c in
  let h := currentHeight c in
  let b := NumberBalances.recalculateBalances now c in
  available b + locked b + stakingLocked b
  = total_amount spentHeight_unset (outputs c) /\
  available b =
    total_amount (fun o => spentHeight_unset o && spendable_now now h o)
      (outputs c) /\
  locked b =
    total_amount (fun o => spentHeight_unset o && negb (spendable_now now h o)
                           && negb (staking_origin hs o)) (outputs c) /\
  stakingLocked b =
    total_amount (fun o => spentHeight_unset o && negb (spendable_now now h o)
                           && staking_origin hs o) (outputs c).
Proof.
  intros Hexact Hnz hs h b.
  assert (Hunset : forall k o, outputs c !! k = Some o ->
                               unspent o = spentHeight_unset o).
  { intros k o Hk. rewrite Forall_forall in Hnz.
    assert (Ho : o ∈ getOutputs c).
    { unfold getOutputs. apply list_elem_of_fmap. exists (k, o).
      split; [reflexivity|]. apply elem_of_map_to_list, Hk. }
    specialize (Hnz o Ho).
    unfold unspent, spentHeight_unset, JS.truthy.
    destruct (WalletOutput.spentHeight o) as [n|]; [|reflexivity].
    destruct (Z.eqb_spec n 0) as [->|]; [congruence|reflexivity]. }
  unfold b. rewrite (recalculateBalances_exact now c Hexact).
  destruct (recalculateBalances_buckets now c) as (Ha & Hl & Hs).
  fold hs h in Ha, Hl, Hs.
  assert (Ha' : available (recalculateBalances now c)
                = total_amount
                    (fun o => spentHeight_unset o && spendable_now now h o)
                    (outputs c)).
  { rewrite Ha. apply total_amount_ext. intros k o Hk.
    rewrite (Hunset k o Hk). reflexivity. }
  assert (Hl' : locked (recalculateBalances now c)
                = total_amount
                    (fun o => spentHeight_unset o
                              && negb (spendable_now now h o)
                              && negb (staking_origin hs o)) (outputs c)).
  { rewrite Hl. apply total_amount_ext. intros k o Hk.
    rewrite (Hunset k o Hk). reflexivity. }
  assert (Hs' : stakingLocked (recalculateBalances now c)
                = total_amount
                    (fun o => spentHeight_unset o
                              && negb (spendable_now now h o)
                              && staking_origin hs o) (outputs c)).
  { rewrite Hs. apply total_amount_ext. intros k o Hk.
    rewrite (Hunset k o Hk). reflexivity. }
  split; [|auto].
  rewrite Ha', Hl', Hs'. apply total_amount_three_way.
Qed.

(** The tracker of blocks 100 to 102: one output spent in block 102, one
    unspent output of 700. *)
Lemma recalculateBalances_partition_example :
  let c := ctx Scenario.spent_in_block_102 in
  let hs := stakingTxHashes c in
  let h := currentHeight c in
  let b := NumberBalances.recalculateBalances 0 c in
  available b + locked b + stakingLocked b
  = total_amount spentHeight_unset (outputs c) /\
  available b =
    total_amount (fun o => spentHeight_unset o && spendable_now 0 h o)
      (outputs c) /\
  locked b =
    total_amount (fun o => spentHeight_unset o && negb (spendable_now 0 h o)
                           && negb (staking_origin hs o)) (outputs c) /\
  stakingLocked b =
    total_amount (fun o => spentHeight_unset o && negb (spendable_now 0 h o)
                           && staking_origin hs o) (outputs c).
Proof.
  apply (recalculateBalances_partition 0 (ctx Scenario.spent_in_block_102)).
  - let l := eval vm_compute in (getOutputs (ctx Scenario.spent_in_block_102))
    in change (getOutputs (ctx Scenario.spent_in_block_102)) with l.
    split; [repeat constructor; cbn; lia|vm_compute; discriminate].
  - let l := eval vm_compute in (getOutputs (ctx Scenario.spent_in_block_102))
    in change (getOutputs (ctx Scenario.spent_in_block_102)) with l.
    repeat constructor; discriminate.
Defined.

(** C6, as stated, fails past [2^53], where the figures are rounded: with
    two unspent outputs, of [2^53] and of 1, the three figures add up to
    [2^53], one less than the sum of the amounts, and so they do in
    whichever order the two amounts are added. *)
Lemma recalculateBalances_rounds :
  let c := Scenario.large_outputs in
  let b := NumberBalances.recalculateBalances 0 c in
  available b + locked b + stakingLocked b = 2 ^ 53 /\
  total_amount spentHeight_unset (outputs c) = 2 ^ 53 + 1 /\
  JS.number_add (JS.number_add 0 1) (2 ^ 53) = 2 ^ 53 /\
  JS.number_add (JS.number_add 0 (2 ^ 53)) 1 = 2 ^ 53.
Proof. vm_compute. repeat split; reflexivity. Qed.

(** *** The list getters *)

(** The list getters of the [WalletSync] class against the figures of
    [recalculateBalances], in a tracker whose amounts are not negative and
    add up to at most [2^53]: [getLockedBalance()] is [locked],
    [getBalance()] is the sum of the three figures, and
    [getAvailableBalance()] falls short of [available] by the unspent
    staking outputs that have become spendable, which [getAvailableOutputs]
    leaves out. *)
Theorem getters_recalculateBalances (now : Z) (c : ProcessingContext) :
  exact_amounts (getOutputs c) ->
  let b := NumberBalances.recalculateBalances now c in
  getLockedBalance now c = locked b /\
  getBalance c = available b + locked b + stakingLocked b /\
  getAvailableBalance now c
  + total_amount
      (fun o => unspent o && spendable_now now (currentHeight c) o
                && staking_origin (stakingTxHashes c) o)
      (outputs c)
  = available b.
Proof.
  intros Hexact b. unfold b.
  rewrite (recalculateBalances_exact now c Hexact). clear b.
  set (b := recalculateBalances now c).
  destruct (recalculateBalances_buckets now c) as (Ha & Hl & Hs).
  fold b in Ha, Hl, Hs.
  unfold getLockedBalance, getBalance, getAvailableBalance,
    getLockedOutputs, getAvailableOutputs, getUnspentOutputs.
  rewrite !reduce_amounts_exact
    by (repeat apply exact_amounts_filter; exact Hexact).
  rewrite !filter_filter, !sum_amounts_filter.
  split; [|split].
  - rewrite Hl. apply total_amount_ext. intros k o _.
    unfold unspent, spendable_now, staking_origin.
    destruct (negb _), (flag (WalletOutput.isStaking o) || _),
      (isOutputSpendable now _ _ 0 _); reflexivity.
  - rewrite Ha, Hl, Hs. symmetry.
    apply (total_amount_three_way unspent
             (spendable_now now (currentHeight c))
             (staking_origin (stakingTxHashes c))).
  - rewrite Ha.
    rewrite (total_amount_split
               (fun o => unspent o && spendable_now now (currentHeight c) o)
               (staking_origin (stakingTxHashes c))).
    rewrite Z.add_comm. f_equal.
    apply total_amount_ext. intros k o _.
    unfold unspent, spendable_now, staking_origin.
    destruct (negb _), (flag (WalletOutput.isStaking o) || _),
      (isOutputSpendable now _ _ 0 _); reflexivity.
Qed.

Lemma getters_recalculateBalances_example :
  let c := ctx Scenario.spent_in_block_102 in
  let b := NumberBalances.recalculateBalances 0 c in
  getLockedBalance 0 c = locked b /\
  getBalance c = available b + locked b + stakingLocked b /\
  getAvailableBalance 0 c
  + total_amount
      (fun o => unspent o && spendable_now 0 (currentHeight c) o
                && staking_origin (stakingTxHashes c) o)
      (outputs c)
  = available b.
Proof.
  apply (getters_recalculateBalances 0 (ctx Scenario.spent_in_block_102)).
  let l := eval vm_compute in (getOutputs (ctx Scenario.spent_in_block_102))
  in change (getOutputs (ctx Scenario.spent_in_block_102)) with l.
  split; [repeat constructor; cbn; lia|vm_compute; discriminate].
Defined.

End GetterFacts.

(** ** Base58 in blocks *)
Module Base58Facts.
Import Base58.

(** *** Numbers and their bytes *)

Lemma be_value_snoc (bs : list Z) (b : Z) :
  be_value (bs ++ [b]) = be_value bs * 256 + b.
Proof. unfold be_value. rewrite fold_left_app. reflexivity. Qed.

Lemma be_value_range (bs : list Z) :
  Crypto.bytes bs -> 0 <= be_value bs < 256 ^ Z.of_nat (length bs).
Proof.
  induction bs as [|b bs IH] using rev_ind; intros Hbs.
  - cbn. lia.
  - apply Forall_app in Hbs as [Hbs Hb]. apply Forall_inv in Hb.
    specialize (IH Hbs). rewrite be_value_snoc, length_app. cbn [length].
    replace (Z.of_nat (length bs + 1)) with (Z.of_nat (length bs) + 1) by lia.
    rewrite Z.pow_add_r by lia. lia.
Qed.

Lemma be_bytes_length (size : nat) (num : Z) : length (be_bytes size num) = size.
Proof.
  revert num. induction size as [|size IH]; intros num; [reflexivity|].
  cbn [be_bytes]. rewrite length_app, IH. cbn. lia.
Qed.

Lemma be_bytes_be_value (bs : list Z) :
  Crypto.bytes bs -> be_bytes (length bs) (be_value bs) = bs.
Proof.
  induction bs as [|b bs IH] using rev_ind; intros Hbs; [reflexivity|].
  apply Forall_app in Hbs as [Hbs Hb]. apply Forall_inv in Hb.
  rewrite be_value_snoc, length_app. cbn [length].
  replace (length bs + 1)%nat with (S (length bs)) by lia. cbn [be_bytes].
  replace ((be_value bs * 256 + b) / 256) with (be_value bs)
    by (apply (Z.div_unique _ 256 _ b); lia).
  replace ((be_value bs * 256 + b) mod 256) with b
    by (apply (Z.mod_unique _ 256 (be_value bs) b); lia).
  rewrite (IH Hbs). reflexivity.
Qed.

Lemma lor_byte (v b : Z) :
  0 <= b < 256 -> Z.lor (Z.shiftl v 8) b = v * 256 + b.
Proof.
  intros Hb. rewrite Z.shiftl_mul_pow2 by lia. change (2 ^ 8) with 256.
  assert (Hland : Z.land (v * 256) b = 0).
  { apply Z.bits_inj'. intros n Hn. rewrite Z.land_spec, Z.bits_0.
    destruct (Z.ltb_spec n 8) as [Hlt|Hge].
    - change 256 with (2 ^ 8). rewrite Z.mul_pow2_bits_low by lia. reflexivity.
    - destruct (Z.eq_dec b 0) as [->|Hnz].
      + rewrite Z.bits_0. apply andb_false_r.
      + rewrite (Z.bits_above_log2 b n), andb_false_r; [reflexivity|lia|].
        assert (Z.log2 b < 8) by (apply Z.log2_lt_pow2; lia). lia. }
  rewrite <- Z.lxor_lor by exact Hland.
  symmetry. apply Z.add_nocarry_lxor. exact Hland.
Qed.

Lemma uint8BeToBigInt_loop (buffer : list Z) (offset size : nat) :
  Crypto.bytes buffer -> (offset + size <= length buffer)%nat ->
  fold_left
    (fun num i =>
       num ← num;
       let num := Z.shiftl num 8 in
       byte ← buffer !! (offset + i)%nat;
       Some (Z.lor num byte))
    (seq 0 size) (Some 0)
  = Some (be_value (take size (drop offset buffer))).
Proof.
  intros Hbytes. induction size as [|size IH]; intros Hfit; [reflexivity|].
  rewrite seq_S, fold_left_app, IH by lia. cbn [fold_left Nat.add].
  destruct (lookup_lt_is_Some_2 buffer (offset + size)%nat ltac:(lia))
    as [b Hb].
  cbn. rewrite Hb. cbn.
  rewrite (take_S_r _ _ b) by (rewrite lookup_drop; exact Hb).
  rewrite be_value_snoc, lor_byte; [reflexivity|].
  apply (Forall_lookup_1 _ _ _ _ Hbytes Hb).
Qed.

Lemma uint8BeToBigInt_be_value (buffer : list Z) (offset size : nat) :
  Crypto.bytes buffer -> (offset + size <= length buffer)%nat ->
  (1 <= size <= 8)%nat ->
  uint8BeToBigInt buffer offset size
  = Some (be_value (take size (drop offset buffer))).
Proof.
  intros Hbytes Hfit Hsize. unfold uint8BeToBigInt.
  destruct (Nat.ltb_spec size 1); [lia|].
  destruct (Nat.ltb_spec 8 size); [lia|]. cbn [orb].
  apply uint8BeToBigInt_loop; assumption.
Qed.

(** *** One block *)

Lemma encode_loop_positive (num j resultStart : Z) (result : list string) :
  0 < num ->
  encode_loop num j resultStart result =
  encode_loop (num / 58) (j - 1) resultStart
    (array_set result (resultStart + j) (alphabet_at (num mod 58))).
Proof.
  intros Hnum. rewrite encode_loop_equation_1 at 1.
  destruct (Z_lt_le_dec 0 num) as [Hlt|Hle]; [|lia]. cbn.
  rewrite Z.quot_div_nonneg, Z.rem_mod_nonneg by lia. reflexivity.
Qed.

Lemma encode_loop_zero (num j resultStart : Z) (result : list string) :
  num <= 0 -> encode_loop num j resultStart result = result.
Proof.
  intros Hnum. rewrite encode_loop_equation_1.
  destruct (Z_lt_le_dec 0 num) as [Hlt|Hle]; [lia|reflexivity].
Qed.

Lemma digits_length (width : nat) (num : Z) : length (digits width num) = width.
Proof.
  revert num. induction width as [|width IH]; intros num; [reflexivity|].
  cbn [digits]. rewrite length_app, IH. cbn. lia.
Qed.

Lemma digits_zero (width : nat) : digits width 0 = repeat (alphabet_at 0) width.
Proof.
  induction width as [|width IH]; [reflexivity|].
  cbn [digits]. change (0 / 58) with 0. change (0 mod 58) with 0.
  rewrite IH. symmetry. apply repeat_cons.
Qed.

(** The loop writes the digits of [num] over the places of its block. *)
Lemma encode_loop_digits (width : nat) :
  forall (num : Z) (pre post : list string),
  0 <= num < 58 ^ Z.of_nat width ->
  encode_loop num (Z.of_nat width - 1) (Z.of_nat (length pre))
    (pre ++ repeat (alphabet_at 0) width ++ post)
  = pre ++ digits width num ++ post.
Proof.
  induction width as [|width IH]; intros num pre post Hnum.
  - rewrite encode_loop_zero by (cbn in Hnum; lia). reflexivity.
  - destruct (Z.eq_dec num 0) as [->|Hnz].
    + rewrite encode_loop_zero, digits_zero by lia. reflexivity.
    + rewrite encode_loop_positive by lia.
      replace (Z.of_nat (S width) - 1 - 1) with (Z.of_nat width - 1) by lia.
      assert (Hset :
        array_set (pre ++ repeat (alphabet_at 0) (S width) ++ post)
          (Z.of_nat (length pre) + (Z.of_nat (S width) - 1))
          (alphabet_at (num mod 58))
        = pre ++ repeat (alphabet_at 0) width
              ++ (alphabet_at (num mod 58) :: post)).
      { change (repeat (alphabet_at 0) (S width))
          with (alphabet_at 0 :: repeat (alphabet_at 0) width).
        rewrite repeat_cons, <- app_assoc. cbn [app].
        unfold array_set.
        destruct (Z.ltb_spec (Z.of_nat (length pre) + (Z.of_nat (S width) - 1)) 0);
          [lia|].
        rewrite !length_app, repeat_length. cbn [length].
        destruct (Z.ltb_spec (Z.of_nat (length pre) + (Z.of_nat (S width) - 1))
                    (Z.of_nat (length pre + (width + S (length post)))));
          [|lia].
        replace (Z.to_nat (Z.of_nat (length pre) + (Z.of_nat (S width) - 1)))
          with (length pre + (length (repeat (alphabet_at 0) width) + 0))%nat
          by (rewrite repeat_length; lia).
        rewrite insert_app_r, insert_app_r. reflexivity. }
      rewrite Hset, IH.
      * cbn [digits]. rewrite <- app_assoc. reflexivity.
      * replace (Z.of_nat (S width)) with (Z.of_nat width + 1) in Hnum by lia.
        rewrite Z.pow_add_r in Hnum by lia. split.
        -- apply Z.div_pos; lia.
        -- apply Z.div_lt_upper_bound; lia.
Qed.

Lemma block_fits (size : nat) :
  (1 <= size <= 8)%nat ->
  256 ^ Z.of_nat size < 58 ^ Z.of_nat (encoded_size size).
Proof.
  intros Hsize.
  do 9 (destruct size as [|size]; [try lia; vm_compute; reflexivity|]). lia.
Qed.

Lemma encode_block_digits (buffer : list Z) (blockStart size : nat)
    (pre post : list string) :
  Crypto.bytes buffer -> (blockStart + size <= length buffer)%nat ->
  (1 <= size <= 8)%nat ->
  encode_block buffer blockStart (length pre) size
    (pre ++ repeat (alphabet_at 0) (encoded_size size) ++ post)
  = Some (pre ++ digits (encoded_size size)
                   (be_value (take size (drop blockStart buffer))) ++ post).
Proof.
  intros Hbytes Hfit Hsize. unfold encode_block.
  rewrite uint8BeToBigInt_be_value by assumption. cbn [mbind option_bind].
  rewrite encode_loop_digits; [reflexivity|].
  assert (Hb : Crypto.bytes (take size (drop blockStart buffer))).
  { apply Forall_take, Forall_drop. exact Hbytes. }
  apply be_value_range in Hb.
  rewrite length_take, length_drop in Hb.
  replace (size `min` (length buffer - blockStart))%nat with size in Hb by lia.
  pose proof (block_fits size Hsize). lia.
Qed.

Lemma write_block_be_bytes (size : nat) :
  forall (num : Z) (pre old post : list Z),
  length old = size ->
  write_block (pre ++ old ++ post) (length pre) size num
  = pre ++ be_bytes size num ++ post.
Proof.
  unfold write_block.
  induction size as [|size IH]; intros num pre old post Hlen.
  - destruct old; [reflexivity|discriminate].
  - destruct (exists_last (l := old)) as [old' [x ->]].
    { intros ->. discriminate. }
    rewrite length_app in Hlen. cbn [length] in Hlen.
    rewrite seq_S, rev_app_distr. cbn [rev app fold_left Nat.add].
    replace (length pre + size)%nat with (length pre + (length old' + 0))%nat
      by lia.
    rewrite <- app_assoc, insert_app_r, insert_app_r. cbn [app].
    change (<[0%nat:=Z.land num 255]> (x :: post))
      with (Z.land num 255 :: post).
    rewrite (IH (Z.shiftr num 8) pre old' (Z.land num 255 :: post)) by lia.
    cbn [be_bytes]. rewrite <- app_assoc. cbn [app].
    rewrite Z.shiftr_div_pow2 by lia. change (2 ^ 8) with 256.
    change 255 with (Z.ones 8). rewrite Z.land_ones by lia.
    reflexivity.
Qed.

Lemma digit_char_check :
  forallb
    (fun i =>
       match alphabet_at (Z.of_nat i) with
       | String c EmptyString =>
           match BASE58_MAP !! c with
           | Some d => d =? Z.of_nat i
           | None => false
           end
       | _ => false
       end)
    (seq 0 58) = true.
Proof. vm_compute. reflexivity. Qed.

Lemma digit_char (d : Z) :
  0 <= d < 58 ->
  exists c, alphabet_at d = single c /\ BASE58_MAP !! c = Some d.
Proof.
  intros Hd. pose proof digit_char_check as Hcheck.
  rewrite forallb_forall in Hcheck. specialize (Hcheck (Z.to_nat d)).
  rewrite Z2Nat.id in Hcheck by lia.
  assert (Hin : In (Z.to_nat d) (seq 0 58)) by (apply in_seq; lia).
  specialize (Hcheck Hin).
  destruct (alphabet_at d) as [|c [|? ?]]; try discriminate.
  destruct (BASE58_MAP !! c) as [d'|] eqn:Hmap; [|discriminate].
  apply Z.eqb_eq in Hcheck. subst d'. exists c. split; [reflexivity|exact Hmap].
Qed.

Lemma digits_chars (width : nat) (num : Z) :
  exists cs, digits width num = map single cs.
Proof.
  revert num. induction width as [|width IH]; intros num.
  - exists []. reflexivity.
  - destruct (IH (num / 58)) as [cs Hcs].
    destruct (digit_char (num mod 58)) as [c [Hc _]].
    { apply Z.mod_pos_bound. lia. }
    exists (cs ++ [c]). cbn [digits]. rewrite Hcs, Hc, map_app. reflexivity.
Qed.

Lemma block_number_loop (block : list ascii) (k : nat) :
  forall (m num order : Z),
  (k <= length block)%nat ->
  map single (take k block) = digits k m ->
  fold_left
    (fun state j =>
       state ← state;
       let '(num, order) := state in
       c ← block !! j;
       digit ← BASE58_MAP !! c;
       Some (num + order * digit, order * 58))
    (rev (seq 0 k)) (Some (num, order))
  = Some (num + order * (m mod 58 ^ Z.of_nat k), order * 58 ^ Z.of_nat k).
Proof.
  induction k as [|k IH]; intros m num order Hk Hdigits.
  - cbn. rewrite Z.mod_1_r. f_equal. f_equal; lia.
  - destruct (lookup_lt_is_Some_2 block k ltac:(lia)) as [c Hc].
    rewrite (take_S_r _ _ c), map_app in Hdigits by exact Hc.
    cbn [digits map] in Hdigits. apply app_inj_tail in Hdigits as [Hrest Hlast].
    destruct (digit_char (m mod 58)) as [c' [Hc' Hmap]].
    { apply Z.mod_pos_bound. lia. }
    rewrite Hc' in Hlast. injection Hlast as ->.
    rewrite seq_S, rev_app_distr. cbn [rev app fold_left Nat.add].
    cbn [mbind option_bind]. rewrite Hc. cbn [mbind option_bind].
    rewrite Hmap. cbn [mbind option_bind].
    rewrite (IH (m / 58)) by (assumption || lia).
    f_equal. f_equal.
    + replace (Z.of_nat (S k)) with (1 + Z.of_nat k) by lia.
      rewrite Z.pow_add_r by lia. change (58 ^ 1) with 58.
      rewrite (Z.rem_mul_r m 58 (58 ^ Z.of_nat k)) by lia. ring.
    + replace (Z.of_nat (S k)) with (1 + Z.of_nat k) by lia.
      rewrite Z.pow_add_r by lia. ring.
Qed.

Lemma block_number_digits (block : list ascii) (m : Z) :
  0 <= m < 58 ^ Z.of_nat (length block) ->
  map single block = digits (length block) m ->
  block_number block = Some m.
Proof.
  intros Hm Hdigits. unfold block_number.
  rewrite (block_number_loop block (length block) m);
    [|lia|rewrite firstn_all; exact Hdigits].
  cbn [mbind option_bind fst]. rewrite Z.mod_small by lia. f_equal. lia.
Qed.

Lemma join_single (cs : list ascii) :
  String.list_ascii_of_string (join (map single cs)) = cs.
Proof.
  induction cs as [|c cs IH]; [reflexivity|].
  change (join (map single (c :: cs))) with (String c (join (map single cs))).
  cbn [String.list_ascii_of_string]. f_equal. exact IH.
Qed.

(** *** Whole buffers *)

Lemma blocks_length {X} (F : nat -> list X) (w n : nat) :
  (forall j, length (F j) = w) ->
  length (concat (map F (seq 0 n))) = (n * w)%nat.
Proof.
  intros HF. induction n as [|n IH]; [reflexivity|].
  rewrite seq_S, map_app, concat_app, length_app, IH. cbn [map concat Nat.add].
  rewrite app_nil_r, HF. lia.
Qed.

Lemma blocks_take_drop {X} (F : nat -> list X) (w n i : nat) :
  (forall j, length (F j) = w) -> (i < n)%nat ->
  forall tail,
  take w (drop (i * w) (concat (map F (seq 0 n)) ++ tail)) = F i.
Proof.
  intros HF. induction n as [|n IH]; intros Hi tail; [lia|].
  rewrite seq_S, map_app, concat_app. cbn [map concat Nat.add].
  rewrite app_nil_r, <- app_assoc.
  destruct (Nat.eq_dec i n) as [->|Hne].
  - rewrite drop_app_length' by (symmetry; apply blocks_length; exact HF).
    apply take_app_length'. symmetry. apply HF.
  - apply IH. lia.
Qed.

Lemma blocks_drop {X} (F : nat -> list X) (w n : nat) (tail : list X) :
  (forall j, length (F j) = w) ->
  drop (n * w) (concat (map F (seq 0 n)) ++ tail) = tail.
Proof.
  intros HF. apply drop_app_length'. symmetry. apply blocks_length. exact HF.
Qed.

Lemma full_block_length (buffer : list Z) (i : nat) :
  length (full_block buffer i) = 11%nat.
Proof. apply digits_length. Qed.

Lemma encode_full_blocks (buffer : list Z) (n : nat) :
  Crypto.bytes buffer -> (n * 8 <= length buffer)%nat ->
  forall post,
  fold_left
    (fun result i =>
       result ← result;
       let blockStart := (i * FULL_BLOCK_SIZE)%nat in
       let resultStart := (i * FULL_ENCODED_BLOCK_SIZE)%nat in
       encode_block buffer blockStart resultStart FULL_BLOCK_SIZE result)
    (seq 0 n) (Some (repeat (alphabet_at 0) (n * 11) ++ post))
  = Some (concat (map (full_block buffer) (seq 0 n)) ++ post).
Proof.
  intros Hbytes. induction n as [|n IH]; intros Hn post; [reflexivity|].
  rewrite seq_S, fold_left_app.
  replace (S n * 11)%nat with (n * 11 + 11)%nat by lia.
  rewrite repeat_app, <- app_assoc, IH by lia.
  cbn [fold_left Nat.add mbind option_bind].
  pose proof (encode_block_digits buffer (n * FULL_BLOCK_SIZE) FULL_BLOCK_SIZE
                (concat (map (full_block buffer) (seq 0 n))) post Hbytes)
    as Hblock.
  rewrite (blocks_length _ 11) in Hblock by apply full_block_length.
  change (encoded_size FULL_BLOCK_SIZE) with 11%nat in Hblock.
  unfold FULL_ENCODED_BLOCK_SIZE.
  rewrite Hblock by (unfold FULL_BLOCK_SIZE; lia).
  rewrite map_app, concat_app. cbn [map concat].
  rewrite app_nil_r, <- app_assoc. reflexivity.
Qed.

Lemma buffer_split (buffer : list Z) :
  (length buffer
   = length buffer / 8 * 8 + length buffer mod 8)%nat
  /\ (length buffer mod 8 < 8)%nat.
Proof.
  pose proof (Nat.div_mod_eq (length buffer) 8).
  pose proof (Nat.mod_upper_bound (length buffer) 8). lia.
Qed.

(** [base58Encode] writes the digits of the blocks. *)
Lemma base58Encode_blocks (buffer : list Z) :
  Crypto.bytes buffer ->
  base58Encode buffer = Some (join (encoded_blocks buffer)).
Proof.
  intros Hbytes. unfold base58Encode, encoded_blocks.
  destruct (Nat.eqb_spec (length buffer) 0) as [Hempty|Hfull].
  { destruct buffer; [reflexivity|discriminate]. }
  cbv zeta. unfold FULL_BLOCK_SIZE, FULL_ENCODED_BLOCK_SIZE.
  destruct (buffer_split buffer) as [Hlen Hlast].
  set (full := (length buffer / 8)%nat) in *.
  set (last := (length buffer mod 8)%nat) in *.
  rewrite repeat_app.
  pose proof (encode_full_blocks buffer full Hbytes ltac:(lia)) as Hblocks.
  unfold FULL_BLOCK_SIZE, FULL_ENCODED_BLOCK_SIZE in Hblocks.
  rewrite Hblocks. cbn [mbind option_bind].
  destruct (Nat.ltb_spec 0 last) as [Hpos|Hzero].
  - pose proof (encode_block_digits buffer (full * 8) last
                  (concat (map (full_block buffer) (seq 0 full))) []
                  Hbytes ltac:(lia) ltac:(lia)) as Hblock.
    rewrite (blocks_length _ 11), !app_nil_r in Hblock
      by apply full_block_length.
    rewrite Hblock. reflexivity.
  - replace last with 0%nat by lia. reflexivity.
Qed.

Lemma encoded_blocks_chars (buffer : list Z) :
  exists cs, encoded_blocks buffer = map single cs.
Proof.
  unfold encoded_blocks. cbv zeta.
  generalize (length buffer / FULL_BLOCK_SIZE)%nat as n.
  intros n.
  match goal with
  | |- context [digits ?w ?v] => destruct (digits_chars w v) as [last ->]
  end.
  assert (Hfull : exists cs,
            concat (map (full_block buffer) (seq 0 n)) = map single cs).
  { clear last. induction n as [|n [cs IH]]; [exists []; reflexivity|].
    destruct (digits_chars FULL_ENCODED_BLOCK_SIZE
                (be_value (take FULL_BLOCK_SIZE
                             (drop (n * FULL_BLOCK_SIZE) buffer))))
      as [block Hblock].
    exists (cs ++ block).
    rewrite seq_S, map_app, concat_app, IH. cbn [map concat Nat.add].
    unfold full_block. rewrite Hblock, app_nil_r, map_app. reflexivity. }
  destruct Hfull as [cs ->]. exists (cs ++ last). rewrite map_app. reflexivity.
Qed.

Lemma decode_full_blocks (buffer : list Z) (input : list ascii) (n : nat) :
  Crypto.bytes buffer -> (n * 8 <= length buffer)%nat ->
  (forall i, (i < n)%nat ->
     map single (take 11 (drop (i * 11) input)) = full_block buffer i) ->
  forall post,
  fold_left
    (fun state i =>
       state ← state;
       let '(result, offset) := state in
       let blockStart := (i * FULL_ENCODED_BLOCK_SIZE)%nat in
       let block := take FULL_ENCODED_BLOCK_SIZE (drop blockStart input) in
       num ← block_number block;
       Some (write_block result offset FULL_BLOCK_SIZE num,
             (offset + FULL_BLOCK_SIZE)%nat))
    (seq 0 n) (Some (Crypto.zeros (n * 8) ++ post, 0%nat))
  = Some (take (n * 8) buffer ++ post, (n * 8)%nat).
Proof.
  intros Hbytes. induction n as [|n IH]; intros Hn Hinput post; [reflexivity|].
  rewrite seq_S, fold_left_app.
  replace (S n * 8)%nat with (n * 8 + 8)%nat by lia.
  unfold Crypto.zeros in *. rewrite repeat_app, <- app_assoc.
  rewrite IH by (lia || (intros i Hi; apply Hinput; lia)).
  cbn [fold_left Nat.add mbind option_bind].
  unfold FULL_ENCODED_BLOCK_SIZE, FULL_BLOCK_SIZE.
  pose proof (Hinput n ltac:(lia)) as Hblock.
  set (bs := take 8 (drop (n * 8) buffer)).
  assert (Hbs : Crypto.bytes bs) by (apply Forall_take, Forall_drop, Hbytes).
  assert (Hbslen : length bs = 8%nat).
  { unfold bs. rewrite length_take, length_drop. lia. }
  assert (Hblen : length (take 11 (drop (n * 11) input)) = 11%nat).
  { rewrite <- (length_map single), Hblock. apply full_block_length. }
  rewrite (block_number_digits _ (be_value bs)).
  - cbn [mbind option_bind].
    pose proof (write_block_be_bytes 8 (be_value bs) (take (n * 8) buffer)
                  (repeat 0 8) post eq_refl) as Hwrite.
    rewrite length_take_le in Hwrite by lia. rewrite Hwrite.
    pose proof (be_bytes_be_value bs Hbs) as Hround.
    rewrite Hbslen in Hround. rewrite Hround.
    unfold bs. rewrite app_assoc, take_take_drop. reflexivity.
  - rewrite Hblen. apply be_value_range in Hbs. rewrite Hbslen in Hbs.
    pose proof (block_fits 8 ltac:(lia)). change (encoded_size 8) with 11%nat in *.
    lia.
  - rewrite Hblen. exact Hblock.
Qed.

Lemma last_block_sizes (last : nat) :
  (last < 8)%nat ->
  (encoded_size last < 11)%nat
  /\ ((0 <? encoded_size last)%nat = (0 <? last)%nat)
  /\ ((0 < last)%nat -> DECODED_BLOCK_SIZES !! encoded_size last = Some last).
Proof.
  intros Hlast.
  do 8 (destruct last as [|last];
        [vm_compute; repeat split; (lia || reflexivity || auto)|]).
  lia.
Qed.

(** [base58Decode] reads the bytes back from the digits of the blocks. *)
Lemma base58Decode_blocks (buffer : list Z) :
  Crypto.bytes buffer ->
  base58Decode (join (encoded_blocks buffer)) = Some buffer.
Proof.
  intros Hbytes. destruct (encoded_blocks_chars buffer) as [input Hinput].
  rewrite Hinput. unfold base58Decode. rewrite join_single. cbv zeta.
  destruct (buffer_split buffer) as [Hlen Hlast].
  destruct (last_block_sizes _ Hlast) as [Hsize [Hpos Hdecoded]].
  unfold encoded_blocks in Hinput. cbv zeta in Hinput.
  unfold FULL_BLOCK_SIZE, FULL_ENCODED_BLOCK_SIZE in *.
  set (full := (length buffer / 8)%nat) in *.
  set (last := (length buffer mod 8)%nat) in *.
  assert (Hinlen : length input = (full * 11 + encoded_size last)%nat).
  { rewrite <- (length_map single), <- Hinput, length_app, digits_length.
    rewrite (blocks_length _ 11) by apply full_block_length. reflexivity. }
  assert (Hdiv : (length input / 11 = full)%nat).
  { symmetry. apply (Nat.div_unique _ 11 _ (encoded_size last)); lia. }
  assert (Hmod : (length input mod 11 = encoded_size last)%nat).
  { symmetry. apply (Nat.mod_unique _ 11 full); lia. }
  rewrite Hdiv, Hmod, Hpos.
  destruct (Nat.eqb_spec (length input) 0) as [Hempty|Hfull].
  { destruct buffer as [|b buffer]; [reflexivity|].
    exfalso. destruct (Nat.ltb_spec 0 last) as [Hl|Hl].
    - destruct (Nat.ltb_spec 0 (encoded_size last)); [lia|discriminate].
    - cbn [length] in Hlen. lia. }
  assert (Hblocks : forall i, (i < full)%nat ->
            map single (take 11 (drop (i * 11) input)) = full_block buffer i).
  { intros i Hi. rewrite <- firstn_map, <- skipn_map, <- Hinput.
    apply blocks_take_drop; [apply full_block_length|exact Hi]. }
  assert (Htail : map single (drop (full * 11) input)
                  = digits (encoded_size last)
                      (be_value (take last (drop (full * 8) buffer)))).
  { rewrite <- skipn_map, <- Hinput.
    apply blocks_drop, full_block_length. }
  destruct (Nat.ltb_spec 0 last) as [Hl|Hl].
  - rewrite (Hdecoded Hl). cbn [mbind option_bind].
    unfold Crypto.zeros. rewrite repeat_app.
    pose proof (decode_full_blocks buffer input full Hbytes ltac:(lia) Hblocks)
      as Hfold.
    unfold Crypto.zeros, FULL_BLOCK_SIZE, FULL_ENCODED_BLOCK_SIZE in Hfold.
    rewrite Hfold. cbn [mbind option_bind].
    set (bs := take last (drop (full * 8) buffer)) in *.
    assert (Hbs : Crypto.bytes bs) by (apply Forall_take, Forall_drop, Hbytes).
    assert (Hbslen : length bs = last).
    { unfold bs. rewrite length_take, length_drop. lia. }
    assert (Hdlen : length (drop (full * 11) input) = encoded_size last).
    { rewrite length_drop. lia. }
    rewrite (block_number_digits _ (be_value bs)).
    + cbn [mbind option_bind].
      pose proof (write_block_be_bytes last (be_value bs)
                    (take (full * 8) buffer) (repeat 0 last) []
                    (repeat_length _ _)) as Hwrite.
      rewrite length_take_le, !app_nil_r in Hwrite by lia. rewrite Hwrite.
      pose proof (be_bytes_be_value bs Hbs) as Hround.
    rewrite Hbslen in Hround. rewrite Hround.
      unfold bs. rewrite take_take_drop, firstn_all2 by lia. reflexivity.
    + rewrite Hdlen. apply be_value_range in Hbs. rewrite Hbslen in Hbs.
      pose proof (block_fits last ltac:(lia)). lia.
    + rewrite Hdlen. exact Htail.
  - cbn [mbind option_bind].
    pose proof (decode_full_blocks buffer input full Hbytes ltac:(lia) Hblocks [])
      as Hfold.
    unfold FULL_BLOCK_SIZE, FULL_ENCODED_BLOCK_SIZE in Hfold.
    rewrite !app_nil_r in Hfold. rewrite Hfold. cbn [mbind option_bind].
    rewrite firstn_all2 by lia. reflexivity.
Qed.

(** [base58Encode] returns a string for every byte array, and
    [base58Decode] reads the same bytes back from it. *)
Theorem base58_round_trip (buffer : list Z) :
  Crypto.bytes buffer ->
  exists encoded,
    base58Encode buffer = Some encoded /\
    base58Decode encoded = Some buffer.
Proof.
  intros Hbytes. exists (join (encoded_blocks buffer)). split.
  - apply base58Encode_blocks. exact Hbytes.
  - apply base58Decode_blocks. exact Hbytes.
Qed.

Lemma base58_round_trip_example :
  exists encoded,
    base58Encode [0; 1; 2; 3; 4; 5; 6; 7; 8; 255] = Some encoded /\
    base58Decode encoded = Some [0; 1; 2; 3; 4; 5; 6; 7; 8; 255].
Proof.
  apply base58_round_trip. apply CryptoFacts.bytes_check. vm_compute. reflexivity.
Defined.

(** *** What [base58Decode] rejects *)

Lemma fold_bind_None {S A} (f : S -> A -> option S) (l : list A) :
  fold_left (fun state x => state ← state; f state x) l None = None.
Proof. induction l as [|x l IH]; [reflexivity|exact IH]. Qed.

Lemma fold_bind_fails {S A} (f : S -> A -> option S) (l : list A) (a : A) :
  In a l -> (forall state, f state a = None) ->
  forall init,
  fold_left (fun state x => state ← state; f state x) l init = None.
Proof.
  intros Hin Hfail. induction l as [|x l IH]; intros init; [destruct Hin|].
  cbn [fold_left]. destruct Hin as [->|Hin].
  - destruct init as [state|]; cbn [mbind option_bind];
      [rewrite Hfail|]; apply fold_bind_None.
  - apply IH. exact Hin.
Qed.

Lemma block_number_rejects (block : list ascii) (c : ascii) :
  In c block -> BASE58_MAP !! c = None -> block_number block = None.
Proof.
  intros Hin Hmap. unfold block_number.
  apply list_elem_of_In, list_elem_of_lookup in Hin as [j Hj].
  rewrite (fold_bind_fails
             (fun state j =>
                let '(num, order) := state in
                c ← block !! j;
                digit ← BASE58_MAP !! c;
                Some (num + order * digit, order * 58))
             _ j).
  - reflexivity.
  - apply in_rev. rewrite rev_involutive. apply in_seq.
    apply lookup_lt_Some in Hj. lia.
  - intros [num order]. rewrite Hj. cbn [mbind option_bind].
    rewrite Hmap. reflexivity.
Qed.

Lemma chars_length (s : string) :
  length (String.list_ascii_of_string s) = String.length s.
Proof. induction s as [|c s IH]; [reflexivity|]. cbn. f_equal. exact IH. Qed.

(** [base58Decode] throws on a string whose length leaves 1, 4 or 8
    characters after the blocks of eleven, and on a string with a
    character outside the alphabet. *)
Theorem base58Decode_rejects (input : string) :
  (String.length input mod 11 = 1 \/ String.length input mod 11 = 4 \/
   String.length input mod 11 = 8)%nat
  \/ (exists c, In c (String.list_ascii_of_string input)
                /\ BASE58_MAP !! c = None) ->
  base58Decode input = None.
Proof.
  intros Hbad. unfold base58Decode. cbv zeta.
  pose proof (chars_length input) as Hlen.
  set (chars := String.list_ascii_of_string input) in *.
  unfold FULL_BLOCK_SIZE, FULL_ENCODED_BLOCK_SIZE.
  destruct (Nat.eqb_spec (length chars) 0) as [Hempty|Hfull].
  { exfalso. rewrite <- Hlen, Hempty in Hbad.
    destruct Hbad as [[H|[H|H]]|[c [Hin _]]]; try discriminate.
    destruct chars; [destruct Hin|discriminate]. }
  destruct Hbad as [Hsize|[c [Hin Hmap]]].
  { rewrite Hlen.
    destruct Hsize as [->|[->| ->]]; reflexivity. }
  pose proof (Nat.div_mod_eq (length chars) 11) as Hsplit.
  pose proof (Nat.mod_upper_bound (length chars) 11 ltac:(lia)) as Hlast.
  set (full := (length chars / 11)%nat) in *.
  set (last := (length chars mod 11)%nat) in *.
  match goal with
  | |- (?size ≫= _) = None => destruct size as [total|]; [|reflexivity]
  end.
  cbn [mbind option_bind].
  apply list_elem_of_In, list_elem_of_lookup in Hin as [p Hp].
  pose proof (lookup_lt_Some _ _ _ Hp) as Hplen.
  destruct (Nat.lt_ge_cases p (full * 11)) as [Hin_full|Hin_last].
  - rewrite (fold_bind_fails
               (fun state i =>
                  let '(result, offset) := state in
                  num ← block_number (take 11 (drop (i * 11) chars));
                  Some (write_block result offset 8 num, (offset + 8)%nat))
               _ (p / 11)%nat).
    + reflexivity.
    + apply in_seq. split; [lia|]. cbn [Nat.add].
      apply Nat.Div0.div_lt_upper_bound. lia.
    + intros [result offset].
      rewrite (block_number_rejects _ c); [reflexivity| |exact Hmap].
      apply list_elem_of_In, list_elem_of_lookup. exists (p mod 11)%nat.
      pose proof (Nat.div_mod_eq p 11).
      pose proof (Nat.mod_upper_bound p 11 ltac:(lia)).
      rewrite lookup_take_lt by lia. rewrite lookup_drop.
      replace (p / 11 * 11 + p mod 11)%nat with p by lia. exact Hp.
  - match goal with
    | |- (?fold ≫= _) = None =>
        destruct fold as [[result offset]|]; [|reflexivity]
    end.
    cbn [mbind option_bind].
    destruct (Nat.ltb_spec 0 last) as [Hpos|Hzero]; [|lia].
    destruct (DECODED_BLOCK_SIZES !! last) as [decodedSize|]; [|reflexivity].
    cbn [mbind option_bind].
    rewrite (block_number_rejects _ c); [reflexivity| |exact Hmap].
    apply list_elem_of_In, list_elem_of_lookup. exists (p - full * 11)%nat.
    rewrite lookup_drop.
    replace (full * 11 + (p - full * 11))%nat with p by lia. exact Hp.
Qed.

Lemma base58Decode_rejects_example :
  base58Decode "11O1" = None.
Proof.
  apply base58Decode_rejects. right. exists "O"%char.
  split; [cbn; auto|vm_compute; reflexivity].
Defined.

End Base58Facts.

(** ** Addresses *)
Module AddressFacts.
Import Base58 Address.

Lemma prefix_bytes :
  Wallet.encodeVarint WALLET_ADDRESS_PREFIX = [132; 128; 102].
Proof. vm_compute. reflexivity. Qed.

Lemma decodeVarint_prefix (rest : list Z) :
  Transaction.decodeVarint (132 :: 128 :: 102 :: rest) 0 = (0x198004, 3).
Proof. reflexivity. Qed.

Lemma typed_set_middle (pre old source post : list Z) :
  length old = length source ->
  Crypto.typed_set (pre ++ old ++ post) source (length pre)
  = Some (pre ++ source ++ post).
Proof.
  intros Hlen. rewrite CryptoFacts.typed_set_fits
    by (rewrite !length_app; lia).
  rewrite take_app_length, <- Hlen, drop_app_add, drop_app_length.
  reflexivity.
Qed.

Lemma typed_set_start (old source post : list Z) :
  length old = length source ->
  Crypto.typed_set (old ++ post) source 0 = Some (source ++ post).
Proof. intros Hlen. apply (typed_set_middle [] old source post Hlen). Qed.

Lemma join_length (cs : list ascii) :
  String.length (join (map single cs)) = length cs.
Proof.
  rewrite <- Base58Facts.chars_length, Base58Facts.join_single. reflexivity.
Qed.

Lemma digits_app (high low : nat) :
  forall num,
  digits (high + low) num
  = digits high (num / 58 ^ Z.of_nat low) ++ digits low num.
Proof.
  induction low as [|low IH]; intros num.
  - rewrite Nat.add_0_r, Z.div_1_r, app_nil_r. reflexivity.
  - rewrite Nat.add_succ_r. cbn [digits]. rewrite IH, app_assoc.
    rewrite Z.div_div by lia.
    replace (58 * 58 ^ Z.of_nat low) with (58 ^ Z.of_nat (S low))
      by (rewrite Nat2Z.inj_succ, Z.pow_succ_r by lia; reflexivity).
    reflexivity.
Qed.

(** What [addressToPublicKey] reads from the encoding of the prefix, a
    key of 32 bytes and any bytes after it. *)
Lemma addressToPublicKey_blocks (publicKeyBytes tail : list Z) :
  Crypto.bytes publicKeyBytes -> Crypto.bytes tail ->
  length publicKeyBytes = 32%nat ->
  addressToPublicKey
    (join (encoded_blocks ([132; 128; 102] ++ publicKeyBytes ++ tail)))
  = Some (Crypto.bytesToHex publicKeyBytes).
Proof.
  intros Hkey Htail Hlen. unfold addressToPublicKey.
  rewrite Base58Facts.base58Decode_blocks.
  - cbn [mbind option_bind app]. rewrite decodeVarint_prefix.
    change (Z.to_nat 3) with 3%nat. cbn [drop].
    rewrite drop_0, <- Hlen, take_app_length. reflexivity.
  - apply CryptoFacts.bytes_app; [|apply CryptoFacts.bytes_app; assumption].
    apply CryptoFacts.bytes_check. reflexivity.
Qed.

Section Hash.
Context {keccak : Crypto.Keccak}.

(** The buffer that [publicKeyToAddress] encodes: the prefix, the key and
    four bytes. *)
Lemma publicKeyToAddress_buffer (publicKeyBytes : list Z) :
  exists tail,
    length tail = 4%nat /\ Crypto.bytes tail /\
    publicKeyToAddress publicKeyBytes
    = base58Encode ([132; 128; 102] ++ publicKeyBytes ++ tail).
Proof.
  unfold publicKeyToAddress. cbv zeta. rewrite prefix_bytes.
  unfold Crypto.zeros. rewrite repeat_app.
  rewrite typed_set_start by reflexivity. cbn [mbind option_bind].
  rewrite <- (app_nil_r (repeat 0 (length publicKeyBytes))).
  rewrite (typed_set_middle [132; 128; 102]) by apply repeat_length.
  cbn [mbind option_bind]. rewrite app_nil_r.
  set (buffer := [132; 128; 102] ++ publicKeyBytes).
  set (checksum := take 4 (Crypto.hexToBytes (Crypto.keccak256 buffer))).
  assert (Hsum : (length checksum <= 4)%nat).
  { unfold checksum. rewrite length_take. lia. }
  rewrite repeat_app, typed_set_start by apply repeat_length.
  cbn [mbind option_bind].
  replace (repeat 0 4)
    with (repeat 0 (length checksum) ++ repeat 0 (4 - length checksum))
    by (rewrite <- repeat_app; f_equal; lia).
  rewrite typed_set_middle by apply repeat_length.
  cbn [mbind option_bind].
  exists (checksum ++ repeat 0 (4 - length checksum)). split; [|split].
  - rewrite length_app, repeat_length. lia.
  - apply CryptoFacts.bytes_app.
    + apply Forall_take, CryptoFacts.hexToBytes_bytes.
    + apply CryptoFacts.bytes_zeros.
  - unfold buffer. rewrite <- app_assoc. reflexivity.
Qed.

(** [addressToPublicKey] reads back, in hex, the key that
    [publicKeyToAddress] made an address of; and the hex key that
    [publicKeyHexToAddress] made an address of, when it is written in
    lower case. *)
Theorem address_round_trip :
  (forall publicKeyBytes,
     Crypto.bytes publicKeyBytes -> length publicKeyBytes = 32%nat ->
     exists address,
       publicKeyToAddress publicKeyBytes = Some address /\
       addressToPublicKey address
       = Some (Crypto.bytesToHex publicKeyBytes)) /\
  (forall publicKeyHex,
     Hex.lower publicKeyHex -> String.length publicKeyHex = 64%nat ->
     exists address,
       publicKeyHexToAddress publicKeyHex = Some address /\
       addressToPublicKey address = Some publicKeyHex).
Proof.
  assert (Hbytes : forall publicKeyBytes,
     Crypto.bytes publicKeyBytes -> length publicKeyBytes = 32%nat ->
     exists address,
       publicKeyToAddress publicKeyBytes = Some address /\
       addressToPublicKey address
       = Some (Crypto.bytesToHex publicKeyBytes)).
  { intros publicKeyBytes Hkey Hlen.
    destruct (publicKeyToAddress_buffer publicKeyBytes)
      as [tail [_ [Htail ->]]].
    exists (join (encoded_blocks ([132; 128; 102] ++ publicKeyBytes ++ tail))).
    split.
    - apply Base58Facts.base58Encode_blocks.
      apply CryptoFacts.bytes_app; [|apply CryptoFacts.bytes_app; assumption].
      apply CryptoFacts.bytes_check. reflexivity.
    - apply addressToPublicKey_blocks; assumption. }
  split; [exact Hbytes|].
  intros publicKeyHex Hlower Hlen. unfold publicKeyHexToAddress. cbv zeta.
  destruct (Hbytes (Crypto.hexToBytes publicKeyHex)) as [address [Hmake Hread]].
  - apply CryptoFacts.hexToBytes_bytes.
  - rewrite CryptoFacts.hexToBytes_length, Hlen. reflexivity.
  - exists address. split; [exact Hmake|].
    rewrite Hread. f_equal.
    destruct Hlower as [_ Hall].
    apply (CryptoMoreFacts.bytesToHex_hexToBytes 32); assumption.
Qed.

(** An address of a key of 32 bytes has 54 characters and starts with
    [WALLET_ADDRESS_PREFIX_STRING], so [buildTransaction] takes it for an
    address. *)
Theorem publicKeyToAddress_shape (publicKeyBytes : list Z) :
  Crypto.bytes publicKeyBytes -> length publicKeyBytes = 32%nat ->
  exists address,
    publicKeyToAddress publicKeyBytes = Some address /\
    String.length address = 54%nat /\
    String.prefix WALLET_ADDRESS_PREFIX_STRING address = true.
Proof.
  intros Hkey Hlen.
  destruct (publicKeyToAddress_buffer publicKeyBytes)
    as [tail [Htlen [Htail ->]]].
  set (buffer := [132; 128; 102] ++ publicKeyBytes ++ tail).
  assert (Hbuffer : Crypto.bytes buffer).
  { apply CryptoFacts.bytes_app; [|apply CryptoFacts.bytes_app; assumption].
    apply CryptoFacts.bytes_check. reflexivity. }
  assert (Hblen : length buffer = 39%nat).
  { unfold buffer. rewrite !length_app, Hlen, Htlen. reflexivity. }
  exists (join (encoded_blocks buffer)).
  split; [apply Base58Facts.base58Encode_blocks; exact Hbuffer|]. split.
  - destruct (Base58Facts.encoded_blocks_chars buffer) as [cs Hcs].
    rewrite Hcs, join_length, <- (length_map single), <- Hcs.
    unfold encoded_blocks. cbv zeta. rewrite Hblen.
    rewrite length_app, Base58Facts.digits_length.
    rewrite (Base58Facts.blocks_length _ 11)
      by apply Base58Facts.full_block_length.
    reflexivity.
  - unfold encoded_blocks. cbv zeta. rewrite Hblen.
    change (39 / FULL_BLOCK_SIZE)%nat with 4%nat.
    cbn [seq map concat].
    unfold full_block at 1.
    change FULL_ENCODED_BLOCK_SIZE with (4 + 7)%nat.
    rewrite digits_app.
    destruct publicKeyBytes as [|p0 [|p1 [|p2 [|p3 [|p4 rest]]]]];
      try discriminate.
    apply Forall_cons in Hkey as [H0 Hkey].
    apply Forall_cons in Hkey as [H1 Hkey].
    apply Forall_cons in Hkey as [H2 Hkey].
    apply Forall_cons in Hkey as [H3 Hkey].
    apply Forall_cons in Hkey as [H4 Hkey].
    unfold buffer. cbn [app Nat.mul drop take FULL_BLOCK_SIZE].
    unfold be_value. rewrite take_0. cbn [fold_left].
    match goal with
    | |- context [digits 4 (?v / ?d)] =>
        assert (Hv : v / d = 4324190);
        [symmetry;
         apply (Z.div_unique_pos v d 4324190 (v - d * 4324190));
         change d with 2207984167552; lia
        |rewrite Hv]
    end.
    reflexivity.
Qed.

End Hash.

Lemma address_round_trip_example :
  (exists address,
     @publicKeyToAddress Keccak256.keccak
       (Crypto.hexToBytes CryptoScenario.public_key) = Some address /\
     addressToPublicKey address
     = Some (Crypto.bytesToHex (Crypto.hexToBytes CryptoScenario.public_key)))
  /\
  (exists address,
     @publicKeyHexToAddress Keccak256.keccak CryptoScenario.public_key
     = Some address /\
     addressToPublicKey address = Some CryptoScenario.public_key).
Proof.
  destruct (@address_round_trip Keccak256.keccak) as [Hbytes Hhex]. split.
  - apply Hbytes; [apply CryptoFacts.hexToBytes_bytes|reflexivity].
  - apply Hhex; [split; reflexivity|reflexivity].
Defined.

Lemma publicKeyToAddress_shape_example :
  exists address,
    @publicKeyToAddress Keccak256.keccak
      (Crypto.hexToBytes CryptoScenario.public_key) = Some address /\
    String.length address = 54%nat /\
    String.prefix WALLET_ADDRESS_PREFIX_STRING address = true.
Proof.
  apply (@publicKeyToAddress_shape Keccak256.keccak);
    [apply CryptoFacts.hexToBytes_bytes|reflexivity].
Defined.

(** [addressToPublicKey] does not check the checksum: whatever bytes
    follow the prefix and a key of 32 bytes, it reads the key. *)
Theorem addressToPublicKey_ignores_checksum (publicKeyBytes tail : list Z) :
  Crypto.bytes publicKeyBytes -> Crypto.bytes tail ->
  length publicKeyBytes = 32%nat ->
  exists address,
    base58Encode
      (Wallet.encodeVarint WALLET_ADDRESS_PREFIX ++ publicKeyBytes ++ tail)
    = Some address /\
    addressToPublicKey address = Some (Crypto.bytesToHex publicKeyBytes).
Proof.
  intros Hkey Htail Hlen. rewrite prefix_bytes.
  exists (join (encoded_blocks ([132; 128; 102] ++ publicKeyBytes ++ tail))).
  split.
  - apply Base58Facts.base58Encode_blocks.
    apply CryptoFacts.bytes_app; [|apply CryptoFacts.bytes_app; assumption].
    apply CryptoFacts.bytes_check. reflexivity.
  - apply addressToPublicKey_blocks; assumption.
Qed.

Lemma addressToPublicKey_ignores_checksum_example :
  exists address,
    base58Encode
      (Wallet.encodeVarint WALLET_ADDRESS_PREFIX
       ++ Crypto.hexToBytes CryptoScenario.public_key ++ [0; 0; 0; 0])
    = Some address /\
    addressToPublicKey address
    = Some (Crypto.bytesToHex (Crypto.hexToBytes CryptoScenario.public_key)).
Proof.
  apply addressToPublicKey_ignores_checksum;
    [apply CryptoFacts.hexToBytes_bytes
    |apply CryptoFacts.bytes_check; reflexivity
    |reflexivity].
Defined.

End AddressFacts.

(** ** The preparation transaction *)
Module PreparationFacts.
Import Staking Balance Selection Outcome StakingTransaction.
Import BalanceFacts SelectionFacts.

(** *** Enough fuel *)

Lemma eventually_and (P Q : nat -> Prop) :
  eventually P -> eventually Q -> eventually (fun fuel => P fuel /\ Q fuel).
Proof.
  intros [p HP] [q HQ]. exists (p + q)%nat. intros fuel Hfuel.
  split; [apply HP|apply HQ]; lia.
Qed.

Lemma eventually_impl (P Q : nat -> Prop) :
  (forall fuel, P fuel -> Q fuel) -> eventually P -> eventually Q.
Proof.
  intros HPQ [p HP]. exists p. intros fuel Hfuel. apply HPQ, HP, Hfuel.
Qed.

Lemma eventually_In {A} (R : nat -> A -> Prop) (l : list A) :
  (forall a, In a l -> eventually (fun fuel => R fuel a)) ->
  eventually (fun fuel => forall a, In a l -> R fuel a).
Proof.
  induction l as [|x l IH]; intros Hall.
  - exists 0%nat. intros _ _ a [].
  - destruct (Hall x (or_introl eq_refl)) as [p Hp].
    destruct IH as [q Hq]; [intros a Ha; apply Hall; right; exact Ha|].
    exists (p + q)%nat. intros fuel Hfuel a [<-|Ha].
    + apply Hp. lia.
    + apply Hq; [lia|exact Ha].
Qed.

Lemma for_each_value {A B} (f : A -> outcome B) (g : A -> B) (l : list A) :
  (forall a, In a l -> f a = Value (g a)) -> for_each f l = Value (map g l).
Proof.
  induction l as [|x l IH]; intros Hall; [reflexivity|].
  cbn [for_each map]. rewrite (Hall x (or_introl eq_refl)).
  cbn [mbind outcome_bind].
  rewrite IH by (intros a Ha; apply Hall; right; exact Ha).
  reflexivity.
Qed.

(** *** The serializers *)

(** The varint writer of the helpers writes, for a number that is not
    negative, what the writer of the transaction module writes. *)
Lemma writeVarint_eventually (n : Z) :
  0 <= n ->
  eventually (fun fuel => writeVarint fuel n = Value (Transaction.writeVarint n)).
Proof.
  intros Hn. exists (S (Z.to_nat (Z.log2 n))). intros fuel Hfuel.
  unfold writeVarint, StakingCodec.writeVarint.
  rewrite CodecFacts.helper_loop_writeVarint;
    [reflexivity|exact Hn|pose proof (Z.log2_nonneg n); lia].
Qed.

Lemma hash_check (hex : string) :
  String.length hex = 64%nat ->
  negb (length (Crypto.hexToBytes hex) =? 32)%nat = false.
Proof.
  intros Hlen. rewrite CryptoFacts.hexToBytes_length, Hlen. reflexivity.
Qed.

Lemma serializeKeyInput_eventually (publicKey privateKey : string)
    (o : WalletOutput.t) :
  0 <= WalletOutput.amount o -> Layout.well_formed o ->
  eventually (fun fuel =>
    serializeKeyInput fuel (Layout.spend publicKey privateKey o)
    = Value (Layout.key_input (Layout.spend publicKey privateKey o))).
Proof.
  intros Ha [Hi Hh].
  eapply eventually_impl;
    [|exact (eventually_and _ _ (writeVarint_eventually _ Ha)
               (eventually_and _ _
                  (writeVarint_eventually 1 ltac:(lia))
                  (writeVarint_eventually _ Hi)))].
  cbv beta. intros fuel (H1 & H2 & H3).
  unfold serializeKeyInput, Layout.key_input, Layout.spend.
  cbn [in_amount in_outputIndexes in_transactionHash in_outputIndex
       length for_each flat_map].
  change (Z.of_nat 1) with 1.
  rewrite H1. cbn [mbind outcome_bind].
  rewrite H2. cbn [mbind outcome_bind].
  rewrite H3. cbn [mbind outcome_bind].
  rewrite (hash_check _ Hh). cbn [mbind outcome_bind].
  unfold concatBytes. cbn [app concat]. rewrite !app_nil_r.
  reflexivity.
Qed.

Lemma serializeTransactionOutput_eventually (output : SerializedOutput) :
  0 <= amount output -> String.length (key output) = 64%nat ->
  eventually (fun fuel =>
    serializeTransactionOutput fuel output = Value (Layout.key_output output)).
Proof.
  intros Ha Hk.
  eapply eventually_impl; [|exact (writeVarint_eventually _ Ha)].
  cbv beta. intros fuel H1.
  unfold serializeTransactionOutput, Layout.key_output.
  rewrite H1. cbn [mbind outcome_bind]. rewrite (hash_check _ Hk).
  unfold concatBytes. cbn [app concat]. rewrite !app_nil_r. reflexivity.
Qed.

(** With enough fuel the prefix of a transaction that spends well-formed
    outputs and pays to keys of 64 characters is serialized to the bytes
    of its layout. *)
Lemma serializeTransactionPrefixWithCustomExtra_eventually
    (publicKey privateKey : string) (chosen : list WalletOutput.t)
    (outputs : list SerializedOutput) (extraData : list Z)
    (unlockTime version : Z) :
  (forall o, In o chosen -> 0 <= WalletOutput.amount o /\ Layout.well_formed o) ->
  (forall output, In output outputs ->
     0 <= amount output /\ String.length (key output) = 64%nat) ->
  0 <= unlockTime -> 0 <= version ->
  eventually (fun fuel =>
    serializeTransactionPrefixWithCustomExtra fuel
      (map (Layout.spend publicKey privateKey) chosen) outputs extraData
      unlockTime version
    = Value (Layout.prefix (map (Layout.spend publicKey privateKey) chosen)
               outputs extraData unlockTime version)).
Proof.
  intros Hin Hout Hu Hv.
  set (inputs := map (Layout.spend publicKey privateKey) chosen).
  assert (Hinputs : eventually (fun fuel => forall input, In input inputs ->
            serializeKeyInput fuel input = Value (Layout.key_input input))).
  { apply eventually_In. intros input Hinput.
    apply in_map_iff in Hinput as (o & <- & Ho).
    destruct (Hin o Ho). apply serializeKeyInput_eventually; assumption. }
  assert (Houtputs : eventually (fun fuel => forall output, In output outputs ->
            serializeTransactionOutput fuel output
            = Value (Layout.key_output output))).
  { apply eventually_In. intros output Houtput.
    destruct (Hout output Houtput).
    apply serializeTransactionOutput_eventually; assumption. }
  eapply eventually_impl;
    [|exact (eventually_and _ _ (writeVarint_eventually _ Hv)
               (eventually_and _ _ (writeVarint_eventually _ Hu)
                  (eventually_and _ _
                     (writeVarint_eventually (Z.of_nat (length inputs))
                        ltac:(lia))
                     (eventually_and _ _ Hinputs
                        (eventually_and _ _
                           (writeVarint_eventually (Z.of_nat (length outputs))
                              ltac:(lia))
                           (eventually_and _ _ Houtputs
                              (writeVarint_eventually
                                 (Z.of_nat (length extraData))
                                 ltac:(lia))))))))].
  cbv beta. intros fuel (H1 & H2 & H3 & H4 & H5 & H6 & H7).
  unfold serializeTransactionPrefixWithCustomExtra, Layout.prefix.
  rewrite H1. cbn [mbind outcome_bind].
  rewrite H2. cbn [mbind outcome_bind].
  rewrite H3. cbn [mbind outcome_bind].
  rewrite (for_each_value _ (fun input => [0x02] ++ Layout.key_input input))
    by (intros input Hinput; rewrite (H4 input Hinput); reflexivity).
  cbn [mbind outcome_bind].
  rewrite H5. cbn [mbind outcome_bind].
  rewrite (for_each_value _ Layout.key_output _ H6).
  cbn [mbind outcome_bind].
  rewrite H7. cbn [mbind outcome_bind].
  unfold concatBytes. rewrite !concat_app, <- !flat_map_concat_map.
  cbn [concat]. rewrite !app_nil_r, <- !app_assoc. reflexivity.
Qed.

(** The hex string of a byte array that is not empty is not empty. *)
Lemma bytesToHex_not_empty (b : Z) (bs : list Z) :
  String.eqb (Crypto.bytesToHex (b :: bs)) "" = false.
Proof. reflexivity. Qed.

Lemma writeVarint_1 : Transaction.writeVarint 1 = [1].
Proof. rewrite VarintFacts.writeVarint_small by lia. reflexivity. Qed.

(** The amounts of the inputs made of a list of outputs, added as the
    program adds them. *)
Lemma fold_selected_amounts (publicKey privateKey : string)
    (chosen : list WalletOutput.t) :
  exact_amounts chosen ->
  fold_left
    (fun sum input => JS.number_add sum (WalletOutput.amount (output input)))
    (map (selected publicKey privateKey) chosen) 0
  = sum_amounts chosen.
Proof.
  intros Hexact.
  rewrite <- (GetterFacts.reduce_amounts_exact chosen Hexact).
  unfold reduce_amounts. clear Hexact. generalize 0.
  induction chosen as [|o l IH]; intros acc; [reflexivity|].
  cbn [map fold_left]. apply IH.
Qed.

(** The key inputs [buildPreparationTransactionHex] makes of its inputs. *)
Lemma serialized_selected (publicKey privateKey : string)
    (chosen : list WalletOutput.t) :
  map (fun input =>
         mkSerializedKeyInput (WalletOutput.amount (output input))
           [outputIndex input] (transactionHash input) (outputIndex input)
           (Staking.publicKey input) (Staking.privateKey input))
    (map (selected publicKey privateKey) chosen)
  = map (Layout.spend publicKey privateKey) chosen.
Proof. rewrite map_map. reflexivity. Qed.

Section Signing.
Context {keccak : Crypto.Keccak} {keccak_laws : Crypto.KeccakLaws keccak}.
Context {curve : Crypto.Ed25519} {curve_laws : Crypto.Ed25519Laws curve}.

(** With nonces that are not 0 every input is signed. *)
Lemma sign_inputs_value (random : nat -> list Z) (prefixHashBytes : list Z)
    (publicKey privateKey : string) (chosen : list WalletOutput.t) :
  length prefixHashBytes = 32%nat ->
  String.length publicKey = 64%nat -> String.length privateKey = 64%nat ->
  forall calls,
  (forall i, (calls <= i < calls + length chosen)%nat ->
     Layout.nonce_bytes (random i)) ->
  sign_inputs random prefixHashBytes
    (map (selected publicKey privateKey) chosen) calls
  = Value (map (fun i =>
                  Crypto.schnorr_signature (random i) prefixHashBytes
                    publicKey privateKey)
             (seq calls (length chosen))).
Proof.
  intros Hh Hpk Hsk.
  induction chosen as [|o l IH]; intros calls Hrandom; [reflexivity|].
  cbn [map sign_inputs length seq selected Staking.publicKey
       Staking.privateKey].
  destruct (Hrandom calls ltac:(cbn [length]; lia)) as (Hb & Hl & Hk).
  rewrite CryptoFacts.generateSchnorrSignature_nonce by assumption.
  cbn [throws mbind outcome_bind].
  rewrite IH by (intros i Hi; apply Hrandom; cbn [length]; lia).
  reflexivity.
Qed.

(** What [buildPreparationTransactionHex] returns, with enough fuel, for
    inputs made of well-formed outputs whose amounts cover the two output
    amounts and [MIN_FEE]: the hex string of the transaction with the
    three outputs [amount], [currentFee] and the change. *)
Lemma buildPreparationTransactionHex_eventually (random : nat -> list Z)
    (amount currentFee : Z) (chosen : list WalletOutput.t)
    (outputKey publicKey privateKey : string) :
  exact_amounts chosen ->
  (forall o, In o chosen -> Layout.well_formed o) ->
  0 <= amount -> 0 <= currentFee ->
  amount + currentFee + Config.MIN_FEE <= sum_amounts chosen ->
  String.length outputKey = 64%nat ->
  String.length publicKey = 64%nat -> String.length privateKey = 64%nat ->
  (forall i, (i < length chosen)%nat -> Layout.nonce_bytes (random i)) ->
  eventually (fun fuel =>
    buildPreparationTransactionHex fuel random amount currentFee
      (map (selected publicKey privateKey) chosen) outputKey publicKey
      privateKey
    = Value
        (Crypto.bytesToHex
           (Layout.signed random
              (Layout.prefix (map (Layout.spend publicKey privateKey) chosen)
                 [ mkSerializedOutput outputKey amount;
                   mkSerializedOutput outputKey currentFee;
                   mkSerializedOutput outputKey
                     (sum_amounts chosen - amount - currentFee
                      - Config.MIN_FEE) ]
                 (Layout.extra publicKey) 0 1)
              publicKey privateKey (length chosen)))).
Proof.
  intros Hexact Hwf Ha Hf Hcover Hok Hpk Hsk Hrandom.
  pose proof (exact_amounts_nonneg chosen Hexact) as Hpos.
  pose proof Hexact as [_ Hsum]. unfold Config.MIN_FEE in *.
  set (change := sum_amounts chosen - amount - currentFee - 1000) in *.
  eapply eventually_impl;
    [|exact (serializeTransactionPrefixWithCustomExtra_eventually publicKey
               privateKey chosen
               [ mkSerializedOutput outputKey amount;
                 mkSerializedOutput outputKey currentFee;
                 mkSerializedOutput outputKey change ]
               (Layout.extra publicKey) 0 1
               ltac:(intros o Ho; split; [apply Hpos|apply Hwf]; exact Ho)
               ltac:(intros out [<-|[<-|[<-|[]]]]; cbn [Staking.amount key];
                     (split; [unfold change; lia|exact Hok]))
               ltac:(lia) ltac:(lia))].
  cbv beta. intros fuel Hprefix.
  unfold buildPreparationTransactionHex. cbv zeta.
  rewrite (fold_selected_amounts publicKey privateKey chosen Hexact).
  unfold Config.MIN_FEE.
  rewrite (NumberFacts.number_sub_exact (sum_amounts chosen) amount)
    by (unfold JS.exact; lia).
  rewrite (NumberFacts.number_sub_exact (sum_amounts chosen - amount))
    by (unfold JS.exact; lia).
  rewrite NumberFacts.number_sub_exact by (unfold JS.exact; lia).
  fold change.
  destruct (Z.ltb_spec change 0) as [Hneg|_]; [unfold change in Hneg; lia|].
  rewrite serialized_selected.
  change (buildNormalExtra publicKey) with (Layout.extra publicKey).
  rewrite Hprefix. cbn [mbind outcome_bind].
  rewrite (sign_inputs_value random _ publicKey privateKey chosen
             (CryptoFacts.digest_length _) Hpk Hsk 0%nat)
    by (intros i Hi; apply Hrandom; lia).
  cbn [mbind outcome_bind]. reflexivity.
Qed.

(** *** [prepareStakingOutputs] *)

(** What [prepareStakingOutputs] comes to when the sums it makes are
    exact: the failure for insufficient funds when the spendable outputs
    fall short, whatever the fuel, and otherwise, with well-formed outputs
    and keys and with enough fuel, the call of [sendTx] on the hex string
    of the transaction that spends the outputs it has selected. *)
Lemma prepareStakingOutputs_value (random : nat -> list Z) (amount : Z)
    (address : string) (outputs : list WalletOutput.t)
    (publicKey privateKey : string) (currentHeight maturityBlocks : Z) :
  let spendable :=
    List.filter
      (spendable_filter (JS.number_sub currentHeight maturityBlocks))
      outputs in
  let needed := amount + Config.MIN_FEE + Config.MIN_FEE in
  let chosen := fst (select_inputs (sort_desc spendable) [] 0 needed) in
  exact_amounts spendable -> 0 <= amount -> needed <= 2 ^ 53 ->
  chosen ⊆+ spendable /\
  (sum_amounts spendable < needed ->
   forall fuel,
     prepareStakingOutputs fuel random amount address outputs publicKey
       privateKey currentHeight maturityBlocks
     = Some (Failure (Insufficient_funds needed (sum_amounts spendable)))) /\
  (needed <= sum_amounts spendable ->
   needed <= sum_amounts chosen /\
   forall outputKey,
   (forall o, In o spendable -> Layout.well_formed o) ->
   outputKey_of address = Value outputKey ->
   String.length outputKey = 64%nat ->
   String.length publicKey = 64%nat -> String.length privateKey = 64%nat ->
   (forall i, (i < length spendable)%nat -> Layout.nonce_bytes (random i)) ->
   eventually (fun fuel =>
     prepareStakingOutputs fuel random amount address outputs publicKey
       privateKey currentHeight maturityBlocks
     = Some (SendTx
               (Crypto.bytesToHex
                  (Layout.signed random
                     (Layout.prefix
                        (map (Layout.spend publicKey privateKey) chosen)
                        [ mkSerializedOutput outputKey amount;
                          mkSerializedOutput outputKey Config.MIN_FEE;
                          mkSerializedOutput outputKey
                            (sum_amounts chosen - amount - Config.MIN_FEE
                             - Config.MIN_FEE) ]
                        (Layout.extra publicKey) 0 1)
                     publicKey privateKey (length chosen)))))).
Proof.
  intros spendable needed chosen Hexact Ha Hneeded.
  pose proof (exact_amounts_nonneg spendable Hexact) as Hpos.
  destruct (select_inputs_sorted spendable needed Hexact)
    as (k & Hk & Heq & _ & _ & Hend).
  assert (Hchosen : chosen = take k (sort_desc spendable))
    by (unfold chosen; rewrite Heq; reflexivity).
  assert (Hsub : chosen ⊆+ spendable).
  { rewrite Hchosen. rewrite <- (sort_desc_perm spendable) at 2.
    apply submseteq_take. }
  pose proof (sum_amounts_submseteq chosen spendable Hpos Hsub) as Hle.
  assert (Hrun : forall fuel,
    prepareStakingOutputs fuel random amount address outputs publicKey
      privateKey currentHeight maturityBlocks
    = if sum_amounts chosen <? needed then
        Some (Failure (Insufficient_funds needed (sum_amounts chosen)))
      else
        match
          outputKey ← outputKey_of address;
          txHex ←
            buildPreparationTransactionHex fuel random amount Config.MIN_FEE
              (map (selected publicKey privateKey) chosen) outputKey publicKey
              privateKey;
          if String.eqb txHex "" then Value (Failure Failed_to_build)
          else Value (SendTx txHex)
        with
        | Value r => Some r
        | Thrown => Some (Failure Caught)
        | Unfinished => None
        end).
  { intros fuel. unfold prepareStakingOutputs. cbv zeta. fold spendable.
    unfold Config.MIN_FEE in *.
    rewrite (NumberFacts.number_add_exact amount)
      by (unfold JS.exact; lia).
    rewrite NumberFacts.number_add_exact by (unfold JS.exact; lia).
    fold needed. rewrite Heq, <- Hchosen. reflexivity. }
  split; [exact Hsub|]. split.
  - intros Hshort fuel. rewrite Hrun.
    assert (Hall : chosen = sort_desc spendable)
      by (rewrite Hchosen; apply Hend; rewrite <- Hchosen; lia).
    assert (Hsame : sum_amounts chosen = sum_amounts spendable)
      by (rewrite Hall; apply sum_amounts_perm, sort_desc_perm).
    rewrite Hsame.
    destruct (Z.ltb_spec (sum_amounts spendable) needed); [reflexivity|lia].
  - intros Henough.
    assert (Hcover : needed <= sum_amounts chosen).
    { destruct (Z_lt_le_dec (sum_amounts chosen) needed) as [Hlt|]; [|lia].
      assert (Hall : chosen = sort_desc spendable)
        by (rewrite Hchosen; apply Hend; rewrite <- Hchosen; lia).
      rewrite Hall, (sum_amounts_perm _ _ (sort_desc_perm spendable)) in Hlt.
      lia. }
    split; [exact Hcover|].
    intros outputKey Hwf Hkey Hok Hpk Hsk Hrandom.
    pose proof (submseteq_length _ _ Hsub) as Hlen.
    eapply eventually_impl;
      [|exact (buildPreparationTransactionHex_eventually random amount
                 Config.MIN_FEE chosen outputKey publicKey privateKey
                 (exact_amounts_submseteq _ _ Hexact Hsub)
                 ltac:(intros o Ho; apply Hwf;
                       apply list_elem_of_In;
                       apply list_elem_of_In in Ho;
                       exact (elem_of_submseteq _ _ _ Ho Hsub))
                 Ha ltac:(unfold Config.MIN_FEE; lia)
                 ltac:(unfold needed in Hcover; lia)
                 Hok Hpk Hsk
                 ltac:(intros i Hi; apply Hrandom; lia))].
    cbv beta. intros fuel Hbuild. rewrite Hrun.
    destruct (Z.ltb_spec (sum_amounts chosen) needed); [lia|].
    rewrite Hkey. cbn [mbind outcome_bind]. rewrite Hbuild.
    cbn [mbind outcome_bind].
    unfold Layout.signed, Layout.prefix. rewrite writeVarint_1.
    cbn [app]. rewrite bytesToHex_not_empty. reflexivity.
Qed.

(** When the sums it makes are exact (amounts of the spendable
    outputs that are not negative and add up to at most [2^53], and a
    stake with [amount + 2 * MIN_FEE <= 2^53]), [prepareStakingOutputs]
    answers "Insufficient funds" when the spendable outputs add up to less
    than [amount + 2 * MIN_FEE], whatever the fuel.  Otherwise, with
    spendable outputs of a 64-character transaction hash and an output
    index that is not negative, keys of 64 characters and nonces that are
    not 0, and with enough fuel, it hands to [sendTx] the hex string of a
    version-1 transaction with unlock time 0 that spends spendable
    outputs, none of them twice, and pays three outputs to the output key:
    [amount], [MIN_FEE] and a change that is not negative, the inputs
    being [amount + MIN_FEE + change + MIN_FEE]; each input is signed.
    The answer "Failed to build preparation transaction" is not given. *)
Theorem prepareStakingOutputs_spec (random : nat -> list Z) (amount : Z)
    (address outputKey : string) (outputs : list WalletOutput.t)
    (publicKey privateKey : string) (currentHeight maturityBlocks : Z) :
  let spendable :=
    List.filter
      (spendable_filter (JS.number_sub currentHeight maturityBlocks))
      outputs in
  let needed := amount + Config.MIN_FEE + Config.MIN_FEE in
  exact_amounts spendable -> 0 <= amount -> needed <= 2 ^ 53 ->
  (sum_amounts spendable < needed ->
   forall fuel,
     prepareStakingOutputs fuel random amount address outputs publicKey
       privateKey currentHeight maturityBlocks
     = Some (Failure (Insufficient_funds needed (sum_amounts spendable)))) /\
  (needed <= sum_amounts spendable ->
   (forall o, In o spendable -> Layout.well_formed o) ->
   outputKey_of address = Value outputKey ->
   String.length outputKey = 64%nat ->
   String.length publicKey = 64%nat -> String.length privateKey = 64%nat ->
   (forall i, (i < length spendable)%nat -> Layout.nonce_bytes (random i)) ->
   exists chosen change,
     chosen ⊆+ spendable /\ 0 <= change /\
     sum_amounts chosen = amount + Config.MIN_FEE + change + Config.MIN_FEE /\
     exists fuel0, forall fuel, (fuel0 <= fuel)%nat ->
       prepareStakingOutputs fuel random amount address outputs publicKey
         privateKey currentHeight maturityBlocks
       = Some (SendTx
                 (Crypto.bytesToHex
                    (Layout.signed random
                       (Layout.prefix
                          (map (Layout.spend publicKey privateKey) chosen)
                          [ mkSerializedOutput outputKey amount;
                            mkSerializedOutput outputKey Config.MIN_FEE;
                            mkSerializedOutput outputKey change ]
                          (Layout.extra publicKey) 0 1)
                       publicKey privateKey (length chosen))))).
Proof.
  cbv zeta. intros Hexact Ha Hneeded.
  destruct (prepareStakingOutputs_value random amount address outputs
              publicKey privateKey currentHeight maturityBlocks Hexact Ha
              Hneeded) as (Hsub & Hshort & Henough).
  split; [exact Hshort|].
  intros Hsum Hwf Hkey Hok Hpk Hsk Hrandom.
  destruct (Henough Hsum) as [Hcover Hsent].
  eexists _, _. split; [exact Hsub|].
  split; [|split; [|exact (Hsent outputKey Hwf Hkey Hok Hpk Hsk Hrandom)]];
    lia.
Qed.

(** C9, as amended.  Given exactly one spendable UTXO of amount
    10_000_000_000, with a
    transaction hash of 64 characters and an output index that is not
    negative, keys of 64 characters and a nonce that is not 0,
    [prepareStakingOutputs] called for the stake 5_000_000_000 hands to
    [sendTx], once it has enough fuel, the hex string of the transaction
    that spends the UTXO and pays three outputs to the output key, in the
    order [5_000_000_000, 1000, 4_999_998_000], followed by the signature
    of its input. *)
Theorem prepareStakingOutputs_single_utxo (random : nat -> list Z)
    (address outputKey : string) (outputs : list WalletOutput.t)
    (utxo : WalletOutput.t) (publicKey privateKey : string)
    (currentHeight maturityBlocks : Z) :
  List.filter (spendable_filter (JS.number_sub currentHeight maturityBlocks))
    outputs = [utxo] ->
  WalletOutput.amount utxo = 10000000000 ->
  Layout.well_formed utxo ->
  outputKey_of address = Value outputKey ->
  String.length outputKey = 64%nat ->
  String.length publicKey = 64%nat -> String.length privateKey = 64%nat ->
  Layout.nonce_bytes (random 0%nat) ->
  exists fuel0, forall fuel, (fuel0 <= fuel)%nat ->
    prepareStakingOutputs fuel random 5000000000 address outputs publicKey
      privateKey currentHeight maturityBlocks
    = Some (SendTx
              (Crypto.bytesToHex
                 (Layout.signed random
                    (Layout.prefix [Layout.spend publicKey privateKey utxo]
                       [ mkSerializedOutput outputKey 5000000000;
                         mkSerializedOutput outputKey 1000;
                         mkSerializedOutput outputKey 4999998000 ]
                       (Layout.extra publicKey) 0 1)
                    publicKey privateKey 1))).
Proof.
  intros Hfilter Hamount Hwf Hkey Hok Hpk Hsk Hrandom.
  assert (Hexact : exact_amounts [utxo]).
  { split; [repeat constructor; lia|].
    rewrite sum_amounts_cons, Hamount. vm_compute. discriminate. }
  assert (Hchosen :
    fst (select_inputs (sort_desc [utxo]) [] 0
           (5000000000 + Config.MIN_FEE + Config.MIN_FEE)) = [utxo]).
  { cbn [sort_desc fold_left insert_desc select_inputs app].
    rewrite Hamount. reflexivity. }
  assert (Hsum : sum_amounts [utxo] = 10000000000)
    by (rewrite sum_amounts_cons, Hamount; reflexivity).
  pose proof (prepareStakingOutputs_value random 5000000000 address outputs
                publicKey privateKey currentHeight maturityBlocks) as Hvalue.
  cbv zeta in Hvalue. rewrite Hfilter, Hchosen, Hsum in Hvalue.
  destruct (Hvalue Hexact ltac:(lia) ltac:(vm_compute; discriminate))
    as (_ & _ & Hsent).
  destruct (Hsent ltac:(vm_compute; discriminate)) as [_ Hbuilt].
  apply (Hbuilt outputKey); try assumption.
  - intros o [<-|[]]. exact Hwf.
  - intros i Hi. cbn [length] in Hi.
    replace i with 0%nat by lia. exact Hrandom.
Qed.

End Signing.

Lemma scenario_nonce : Layout.nonce_bytes (PreparationScenario.random 0).
Proof.
  split; [apply CryptoFacts.bytes_check; vm_compute; reflexivity|].
  split; [reflexivity|vm_compute; discriminate].
Qed.

Lemma prepareStakingOutputs_single_utxo_example :
  exists fuel0, forall fuel, (fuel0 <= fuel)%nat ->
    @prepareStakingOutputs Keccak256.keccak ScalarGroup.curve fuel
      PreparationScenario.random 5000000000 PreparationScenario.address
      [PreparationScenario.utxo] CryptoScenario.public_key
      CryptoScenario.private_key 200 10
    = Some (SendTx
              (Crypto.bytesToHex
                 (@Layout.signed Keccak256.keccak ScalarGroup.curve
                    PreparationScenario.random
                    (Layout.prefix
                       [Layout.spend CryptoScenario.public_key
                          CryptoScenario.private_key PreparationScenario.utxo]
                       [ mkSerializedOutput CryptoScenario.public_key 5000000000;
                         mkSerializedOutput CryptoScenario.public_key 1000;
                         mkSerializedOutput CryptoScenario.public_key 4999998000 ]
                       (Layout.extra CryptoScenario.public_key) 0 1)
                    CryptoScenario.public_key CryptoScenario.private_key 1))).
Proof.
  apply (@prepareStakingOutputs_single_utxo Keccak256.keccak
           CryptoFacts.keccak256_laws ScalarGroup.curve
           CryptoFacts.scalar_group_laws).
  - vm_compute. reflexivity.
  - reflexivity.
  - split; [vm_compute; discriminate|reflexivity].
  - vm_compute. reflexivity.
  - reflexivity.
  - reflexivity.
  - reflexivity.
  - exact scenario_nonce.
Defined.

(** C9, as stated, fails: the transaction [prepareStakingOutputs] makes
    of the UTXO of 10_000_000_000, with ten units of fuel, has
    4_999_998_000 as third output, and it is not a transaction whose
    outputs are [5_000_000_000, 1000, 9_999_997_000], whatever the
    signatures. *)
Lemma prepareStakingOutputs_change_not_9999997000 :
  @prepareStakingOutputs Keccak256.keccak ScalarGroup.curve 10
    PreparationScenario.random 5000000000 PreparationScenario.address
    [PreparationScenario.utxo] CryptoScenario.public_key
    CryptoScenario.private_key 200 10
  = Some (SendTx
            (Crypto.bytesToHex
               (@Layout.signed Keccak256.keccak ScalarGroup.curve
                  PreparationScenario.random
                  (Layout.prefix
                     [Layout.spend CryptoScenario.public_key
                        CryptoScenario.private_key PreparationScenario.utxo]
                     [ mkSerializedOutput CryptoScenario.public_key 5000000000;
                       mkSerializedOutput CryptoScenario.public_key 1000;
                       mkSerializedOutput CryptoScenario.public_key 4999998000 ]
                     (Layout.extra CryptoScenario.public_key) 0 1)
                  CryptoScenario.public_key CryptoScenario.private_key 1)))
  /\ (forall signatures : list Z,
        @prepareStakingOutputs Keccak256.keccak ScalarGroup.curve 10
          PreparationScenario.random 5000000000 PreparationScenario.address
          [PreparationScenario.utxo] CryptoScenario.public_key
          CryptoScenario.private_key 200 10
        <> Some (SendTx
                   (Crypto.bytesToHex
                      (Layout.prefix
                         [Layout.spend CryptoScenario.public_key
                            CryptoScenario.private_key PreparationScenario.utxo]
                         [ mkSerializedOutput CryptoScenario.public_key 5000000000;
                           mkSerializedOutput CryptoScenario.public_key 1000;
                           mkSerializedOutput CryptoScenario.public_key 9999997000 ]
                         (Layout.extra CryptoScenario.public_key) 0 1
                       ++ signatures)))).
Proof.
  split; [vm_compute; reflexivity|].
  intros signatures Heq.
  apply (f_equal (fun r =>
           match r with
           | Some (SendTx txHex) => String.substring 0 300 txHex
           | _ => ""%string
           end)) in Heq.
  vm_compute in Heq. discriminate.
Qed.

Lemma prepareStakingOutputs_spec_example :
  exists chosen change,
    chosen ⊆+ [PreparationScenario.utxo] /\ 0 <= change /\
    sum_amounts chosen = 5000000000 + Config.MIN_FEE + change + Config.MIN_FEE /\
    exists fuel0, forall fuel, (fuel0 <= fuel)%nat ->
      @prepareStakingOutputs Keccak256.keccak ScalarGroup.curve fuel
        PreparationScenario.random 5000000000 PreparationScenario.address
        [PreparationScenario.utxo] CryptoScenario.public_key
        CryptoScenario.private_key 200 10
      = Some (SendTx
                (Crypto.bytesToHex
                   (@Layout.signed Keccak256.keccak ScalarGroup.curve
                      PreparationScenario.random
                      (Layout.prefix
                         (map (Layout.spend CryptoScenario.public_key
                                 CryptoScenario.private_key) chosen)
                         [ mkSerializedOutput CryptoScenario.public_key 5000000000;
                           mkSerializedOutput CryptoScenario.public_key
                             Config.MIN_FEE;
                           mkSerializedOutput CryptoScenario.public_key change ]
                         (Layout.extra CryptoScenario.public_key) 0 1)
                      CryptoScenario.public_key CryptoScenario.private_key
                      (length chosen)))).
Proof.
  refine (proj2 (@prepareStakingOutputs_spec Keccak256.keccak
                   CryptoFacts.keccak256_laws ScalarGroup.curve
                   CryptoFacts.scalar_group_laws PreparationScenario.random
                   5000000000 PreparationScenario.address
                   CryptoScenario.public_key [PreparationScenario.utxo]
                   CryptoScenario.public_key CryptoScenario.private_key 200 10
                   _ _ _) _ _ _ _ _ _ _).
  - split; [repeat constructor; vm_compute; discriminate
           |vm_compute; discriminate].
  - lia.
  - vm_compute. discriminate.
  - vm_compute. discriminate.
  - intros o [<-|[]]. split; [vm_compute; discriminate|reflexivity].
  - vm_compute. reflexivity.
  - reflexivity.
  - reflexivity.
  - reflexivity.
  - intros i _. exact scenario_nonce.
Defined.

End PreparationFacts.

(** ** Building a transaction *)
Module BuilderFacts.
Import Staking Balance Selection TransactionPicker TransactionBuilder.

(** *** The serializer *)







Section Signing.
Context {keccak : Crypto.Keccak} {curve : Crypto.Ed25519}.



End Signing.

(** *** Totals *)





(** *** [createTransaction] *)



(** Past [2^53] the sums are rounded: from a wallet of one output of
    [2^53], to pay [2^53] with a fee of 1, the transaction built pays all
    that it spends and leaves nothing for the fee it reports. *)
Lemma createTransaction_rounds :
  match
    @createTransaction Keccak256.keccak ScalarGroup.curve 0
      PreparationScenario.random
      [Scenario.output PreparationScenario.transaction_hash 0 (2 ^ 53) 100
         None]
      [mkDestination PreparationScenario.address (2 ^ 53)]
      CryptoScenario.public_key CryptoScenario.private_key 200 10 1
  with
  | Some (Some built) =>
      input_total (built_inputs built) = output_total (built_outputs built)
      /\ built_fee built = 1
  | _ => False
  end.
Proof. vm_compute. split; reflexivity. Qed.

End BuilderFacts.
